(** * The multipolygon area core of libosmium: area ids, tag matchers and the
    two-pass MultipolygonManager, as a shallow embedding.

  Sources embedded here:
  - osmium/osm/area.hpp              (object_id_to_area_id,
                                      area_id_to_object_id, Area::from_way)
  - osmium/tags/matcher.hpp          (TagMatcher)
  - osmium/area/multipolygon_manager.hpp (MultipolygonManager)

  Collaborators whose headers are not part of the embedded sources
  (TagList, Location, StringMatcher, ItemStash, RelationsDatabase,
  MembersDatabase, CallbackBuffer, area_stats) are modelled from the
  specification; each such definition says so in its doc comment. *)

From Stdlib Require Import ZArith Lia Bool.
From stdpp Require Import base list strings.

#[local] Open Scope Z_scope.

(** ** Machine integers *)

(** [osmium::object_id_type] is [int64_t].  Signed overflow is undefined in
  C++; the embedding writes out the two's complement wrap-around of the
  targets libosmium is built for, and the theorems about ids state the
  range in which no wrap-around happens. *)
Definition object_id_type := Z.

Definition int64_min : Z := - 2 ^ 63.
Definition int64_max : Z := 2 ^ 63 - 1.

Definition wrap64 (z : Z) : Z := (z + 2 ^ 63) mod 2 ^ 64 - 2 ^ 63.

(** [static_cast<unsigned_object_id_type>]: reduction modulo 2^64. *)
Definition to_uint64 (z : Z) : Z := z mod 2 ^ 64.

(** [std::abs] on [int64_t]. *)
Definition abs64 (z : Z) : Z := wrap64 (Z.abs z).

(** The ids for which [object_id_to_area_id] does not overflow:
  |id| * 2 + 1 must fit [int64_t]. *)
Definition id_in_range (id : object_id_type) : Prop :=
  - 2 ^ 62 < id < 2 ^ 62.

(** [v] with the sign of [id]: negated when [id] is negative. *)
Definition signed_like (id v : Z) : Z := if id <? 0 then - v else v.

(** ** Item types (osmium/osm/item_type.hpp, as enumerated by the switch of
  [Area::num_rings]) *)

Module item_type.
Inductive t : Set :=
| undefined
| node
| way
| relation
| area
| changeset
| tag_list
| way_node_list
| relation_member_list
| relation_member_list_with_full_members
| outer_ring
| inner_ring
| changeset_discussion.

#[global] Instance eq_dec : EqDecision t.
Proof. solve_decision. Defined.

Definition eqb (a b : t) : bool := bool_decide (a = b).
End item_type.

(** ** Tags *)

(** Modelled from the spec: [osmium::Tag] and [osmium::TagList]
  (osmium/osm/tag.hpp) are not among the embedded sources.  A tag set is
  an ordered sequence of key/value string pairs whose keys are not
  necessarily unique. *)
Record Tag : Set := mkTag { key : string; value : string }.

Definition TagList := list Tag.

Module TagList_.

(** Modelled from the spec: [TagList::get_value_by_key] is missing.  The
    caller in [keep_relation] receives one C string that is
    [nullptr] when the key is absent; over an ordered sequence this is
    the value of the first tag carrying the key. *)
Fixpoint get_value_by_key (tags : TagList) (k : string) : option string :=
  match tags with
  | [] => None
  | tag :: rest =>
      if String.eqb (key tag) k then Some (value tag)
      else get_value_by_key rest k
  end.

(** Modelled from the spec: [TagList::has_tag] is missing.  The tag list
    is tagged [k=v] when the value it yields for [k] is [v]. *)
Definition has_tag (tags : TagList) (k v : string) : bool :=
  match get_value_by_key tags k with
  | Some v' => String.eqb v' v
  | None => false
  end.

End TagList_.

(** ** osmium/osm/area.hpp *)

(** Convert way or (multipolygon) relation id into unique area id. *)
Definition object_id_to_area_id (id : object_id_type) (type : item_type.t)
  : object_id_type :=
  let area_id := wrap64 (abs64 id * 2) in
  let area_id :=
    if item_type.eqb type item_type.relation then wrap64 (area_id + 1)
    else area_id in
  if id <? 0 then wrap64 (- area_id) else area_id.

(** Convert area id into id of the way or relation it was created from.
  [/] on [int64_t] truncates toward zero: [Z.quot]. *)
Definition area_id_to_object_id (id : object_id_type) : object_id_type :=
  Z.quot id 2.

(** Modelled from the spec: [osmium::Location] (osmium/osm/location.hpp) is
  missing.  A node ref carries an optional location; a present location
  is a pair of integer coordinates (lon, lat), compared bit-exactly. *)
Definition Location := option (Z * Z).

Module Location_.
(** Modelled from the spec: [explicit operator bool], is the location
  present? *)
Definition valid (l : Location) : bool :=
  match l with Some _ => true | None => false end.

(** Modelled from the spec: [operator==], bit-exact on the coordinates. *)
Definition eqb (a b : Location) : bool := bool_decide (a = b).
End Location_.

(** Modelled from the spec: [osmium::NodeRef] (osmium/osm/node_ref.hpp) is
  missing.  A node ref is a pair (node id, optional location). *)
Module NodeRef.
Record t : Set := mk { ref : object_id_type; location : Location }.
End NodeRef.

Definition NodeRefList := list NodeRef.t.

(** An OSM area created out of a closed way or a multipolygon relation:
  the object id, the tags, and the outer rings each followed by its inner
  rings. *)
Module Area.
Record t : Set := mk {
  id : object_id_type;
  tags : TagList;
  rings : list (NodeRefList * list NodeRefList)
}.

(** Modelled from the spec: [OSMObject::positive_id] (osmium/osm/object.hpp)
    is missing; it is the absolute value of the id as an unsigned
    64-bit integer. *)
Definition positive_id (a : t) : Z := to_uint64 (abs64 (id a)).

(** Was this area created from a way? *)
Definition from_way (a : t) : bool :=
  Z.land (positive_id a) 1 =? 0.

(** Return the Id of the way or relation this area was created from. *)
Definition orig_id (a : t) : object_id_type := area_id_to_object_id (id a).
End Area.

(** ** osmium/tags/matcher.hpp *)

(** Modelled from the spec: [osmium::StringMatcher]
  (osmium/util/string_matcher.hpp) is missing.  The spec names the base
  matchers [always_true] and [always_false]; every other alternative of
  the matcher is a predicate on the string. *)
Module StringMatcher.
Inductive t : Type :=
| always_false
| always_true
| matching (p : string -> bool).

(** [operator()] on a C string. *)
Definition call (m : t) (s : string) : bool :=
  match m with
  | always_false => false
  | always_true => true
  | matching p => p s
  end.
End StringMatcher.

(** Compares a tags key (and value) against the specified StringMatchers. *)
Module TagMatcher.
Record t : Type := mk {
  m_key_matcher : StringMatcher.t;
  m_value_matcher : StringMatcher.t;
  m_result : bool
}.

(** [TagMatcher()]: a default TagMatcher that matches no tags.
    [m_result] keeps its default member initializer [true]. *)
Definition default : t :=
  mk StringMatcher.always_false StringMatcher.always_false true.

(** [explicit TagMatcher(TKey&& key_matcher)] *)
Definition of_key (key_matcher : StringMatcher.t) : t :=
  mk key_matcher StringMatcher.always_true true.

(** [TagMatcher(TKey&& key_matcher, TValue&& value_matcher, bool invert)] *)
Definition of_key_value (key_matcher value_matcher : StringMatcher.t)
    (invert : bool) : t :=
  mk key_matcher value_matcher (negb invert).

(** [operator()] on a key and a value: match against the specified key
  and value. *)
Definition match_key_value (m : t) (k v : string) : bool :=
  StringMatcher.call (m_key_matcher m) k &&
  Bool.eqb (StringMatcher.call (m_value_matcher m) v) (m_result m).

(** [operator()] on a tag. *)
Definition match_tag (m : t) (tag : Tag) : bool :=
  match_key_value m (key tag) (value tag).

(** [operator()] on a tag list: the loop returns at the first matching
  tag. *)
Fixpoint match_tags (m : t) (tags : TagList) : bool :=
  match tags with
  | [] => false
  | tag :: rest => if match_tag m tag then true else match_tags m rest
  end.
End TagMatcher.

(** ** OSM objects *)

(** Modelled from the spec: [osmium::Way] (osmium/osm/way.hpp) is missing.
  A way is an ordered sequence of node refs with an id and a tag set. *)
Module Way.
Record t : Set := mk {
  id : object_id_type;
  tags : TagList;
  nodes : NodeRefList
}.

(** Modelled from the spec: [nodes().front()] and [nodes().back()], the
  first and the last node ref.  Both are undefined on an empty list in
  C++; the manager calls them only after checking that the way has more
  than three nodes, and the embedding returns a node ref without
  location on an empty list. *)
Definition front (w : t) : NodeRef.t :=
  hd (NodeRef.mk 0 None) (nodes w).

(** Modelled from the spec: [nodes().back()], see [front]. *)
Definition back (w : t) : NodeRef.t :=
  List.last (nodes w) (NodeRef.mk 0 None).

(** Modelled from the spec: front-location == back-location, bit-exact on
  the integer coordinates. *)
Definition ends_have_same_location (w : t) : bool :=
  Location_.eqb (NodeRef.location (front w)) (NodeRef.location (back w)).
End Way.

(** Modelled from the spec: [osmium::RelationMember] and [osmium::Relation]
  (osmium/osm/relation.hpp) are missing.  A relation is an ordered
  sequence of members (type, id, role-string) with an id and a tag set. *)
Module RelationMember.
Record t : Set := mk {
  type : item_type.t;
  ref : object_id_type;
  role : string
}.

(** Modelled from the spec: [set_ref] overwrites the id of the member and
  nothing else. *)
Definition set_ref (m : t) (new_ref : object_id_type) : t :=
  mk (type m) new_ref (role m).
End RelationMember.

Module Relation.
Record t : Set := mk {
  id : object_id_type;
  tags : TagList;
  members : list RelationMember.t
}.

(** Modelled from the spec: the relation with its members replaced, for
  the write access [members()] gives to a stored relation. *)
Definition set_members (r : t) (ms : list RelationMember.t) : t :=
  mk (id r) (tags r) ms.
End Relation.

(** ** Collaborators of the manager *)

(** Modelled from the spec: [osmium::area::area_stats]
  (osmium/area/stats.hpp) is missing.  An aggregate of counters (areas
  built, rings built, failures by category) that is updated additively
  from each assembler invocation.  The counters are unbounded here. *)
Module area_stats.
Record t : Set := mk {
  areas_built : nat;
  rings_built : nat;
  invalid_locations : nat;
  assembler_failures : nat
}.

(** Modelled from the spec: the statistics of a fresh manager. *)
Definition zero : t := mk 0 0 0 0.

(** Modelled from the spec: [operator+=], counter by counter. *)
Definition add (a b : t) : t :=
  mk (areas_built a + areas_built b)
     (rings_built a + rings_built b)
     (invalid_locations a + invalid_locations b)
     (assembler_failures a + assembler_failures b).
End area_stats.

(** Exceptions that can travel through the manager.  [invalid_location] is
  [osmium::invalid_location]; [stash_corruption] is the fatal contract
  violation of the spec (unknown or released handle);
  [out_of_order_error] is the fatal error of the order check of the
  second pass; [other_exception] stands for every other exception
  type. *)
Inductive exception : Set :=
| invalid_location (what : string)
| stash_corruption
| out_of_order_error (what : string)
| other_exception (what : string).

Definition is_invalid_location (e : exception) : bool :=
  match e with invalid_location _ => true | _ => false end.

(** Modelled from the spec: the assembler is the template argument
  [TAssembler], an external collaborator.  Its contract is re-expressed
  as a result value: either the items it committed to the output buffer
  together with its statistics, or the exception it raised (nothing
  committed). *)
Record assembler_output : Set := mk_assembler_output {
  out_areas : list Area.t;
  out_stats : area_stats.t
}.

Definition assembler_result : Set := exception + assembler_output.

Record TAssembler : Type := mk_TAssembler {
  config_type : Type;
  assemble_closed_way : config_type -> Way.t -> assembler_result;
  assemble_relation :
    config_type -> Relation.t -> list Way.t -> assembler_result
}.

(** Modelled from the spec: [osmium::TagsFilter]
  (osmium/tags/tags_filter.hpp) and [osmium::tags::match_any_of] /
  [match_none_of] (osmium/tags/taglist.hpp) are missing.  The filter is a
  predicate on a tag; a tag list satisfies it when at least one tag
  does. *)
Definition TagsFilter := Tag -> bool.

(** Modelled from the spec: [TagsFilter{true}], the default filter of the
  manager, accepts every tag. *)
Definition TagsFilter_default : TagsFilter := fun _ => true.

(** Modelled from the spec: the filter given by a TagMatcher. *)
Definition TagsFilter_of_matcher (m : TagMatcher.t) : TagsFilter :=
  TagMatcher.match_tag m.

Module tags.
(** Modelled from the spec: at least one tag satisfies the filter. *)
Definition match_any_of (tag_list : TagList) (filter : TagsFilter) : bool :=
  existsb filter tag_list.

(** Modelled from the spec: no tag satisfies the filter. *)
Definition match_none_of (tag_list : TagList) (filter : TagsFilter) : bool :=
  negb (existsb filter tag_list).
End tags.

(** Modelled from the spec: [osmium::ItemStash] (osmium/storage/item_stash.hpp)
  is missing.  An append-only arena of items that hands out stable
  handles (here the slot index); [remove] marks the slot free. *)
Module ItemStash.
Inductive item : Set :=
| item_way (w : Way.t)
| item_relation (r : Relation.t).

Abbreviation handle_type := nat.

Abbreviation t := (list (option item)).

(** Modelled from the spec: [add(item)] copies the item into the arena
  and returns a stable handle. *)
Definition add_item (s : t) (it : item) : handle_type * t :=
  (length s, s ++ [Some it]).

(** Modelled from the spec: [get(handle)]; nothing for an unknown or
  released handle. *)
Definition get_item (s : t) (h : handle_type) : option item :=
  mjoin (s !! h).

(** Modelled from the spec: [remove(handle)] marks the slot free. *)
Definition remove_item (s : t) (h : handle_type) : t :=
  <[h := None]> s.

(** Modelled from the spec: [get<Way>(handle)]. *)
Definition get_way (s : t) (h : handle_type) : option Way.t :=
  match get_item s h with
  | Some (item_way w) => Some w
  | _ => None
  end.

(** Modelled from the spec: [get<Relation>(handle)]. *)
Definition get_relation (s : t) (h : handle_type) : option Relation.t :=
  match get_item s h with
  | Some (item_relation r) => Some r
  | _ => None
  end.
End ItemStash.

(** Modelled from the spec: [osmium::relations::RelationsDatabase]
  (osmium/relations/relations_database.hpp) is missing.  It holds the
  kept relations: per relation the stash handle of its copy and the
  count of outstanding members.  A [RelationHandle] is the position of
  the entry. *)
Module RelationsDatabase.
Record element : Set := mk_element {
  handle : option ItemStash.handle_type;
  members : nat
}.

Abbreviation t := (list element).

Abbreviation RelationHandle := nat.

(** Modelled from the spec: [add(relation)] copies the relation into the
  stash, installs an outstanding-count of 0, returns the handle. *)
Definition add (s : ItemStash.t) (db : t) (r : Relation.t)
  : RelationHandle * ItemStash.t * t :=
  let '(h, s') := ItemStash.add_item s (ItemStash.item_relation r) in
  (length db, s', db ++ [mk_element (Some h) 0]).

(** Modelled from the spec: [*rel_handle], read access to the stored
  relation. *)
Definition get (s : ItemStash.t) (db : t) (pos : RelationHandle)
  : option Relation.t :=
  e ← db !! pos; h ← handle e; ItemStash.get_relation s h.

(** Modelled from the spec: write access to the stored relation through
  the handle. *)
Definition set (s : ItemStash.t) (db : t) (pos : RelationHandle)
    (r : Relation.t) : ItemStash.t :=
  match db !! pos ≫= handle with
  | Some h => <[h := Some (ItemStash.item_relation r)]> s
  | None => s
  end.

(** Modelled from the spec: [rel_handle.remove()] releases the relation
  from the stash. *)
Definition remove (s : ItemStash.t) (db : t) (pos : RelationHandle)
  : ItemStash.t * t :=
  match db !! pos with
  | Some e =>
      (match handle e with
       | Some h => ItemStash.remove_item s h
       | None => s
       end,
       <[pos := mk_element None (members e)]> db)
  | None => (s, db)
  end.

(** Modelled from the spec: the outstanding-member counter of a relation,
  incremented by [track]. *)
Definition increment_members (db : t) (pos : RelationHandle) : t :=
  match db !! pos with
  | Some e => <[pos := mk_element (handle e) (S (members e))]> db
  | None => db
  end.

(** Modelled from the spec: the counter is decremented when a member
  arrives. *)
Definition decrement_members (db : t) (pos : RelationHandle) : t :=
  match db !! pos with
  | Some e => <[pos := mk_element (handle e) (Nat.pred (members e))]> db
  | None => db
  end.

(** Modelled from the spec: the counter has reached zero. *)
Definition has_all_members (db : t) (pos : RelationHandle) : bool :=
  match db !! pos with
  | Some e => Nat.eqb (members e) 0
  | None => false
  end.
End RelationsDatabase.

(** Modelled from the spec: [osmium::relations::MembersDatabase]
  (osmium/relations/members_database.hpp) is missing.  It tracks every
  interest (way id, relation handle, member slot).  An interest that has
  been matched carries the stash handle of the way; an interest that has
  been removed stays in place, logically erased.  The operation [add],
  which runs the completion callback, is defined with the manager
  below. *)
Module MembersDatabase.
Record element : Set := mk_element {
  member_id : object_id_type;
  relation_pos : RelationsDatabase.RelationHandle;
  member_num : nat;
  object_handle : option ItemStash.handle_type;
  removed : bool
}.

Record t : Set := mk {
  m_elements : list element;
  m_init_phase : bool
}.

(** Modelled from the spec: no interests, collecting phase. *)
Definition empty : t := mk [] true.

(** Modelled from the spec: a live (not erased) interest in way [id]. *)
Definition is_live (id : object_id_type) (e : element) : bool :=
  (member_id e =? id) && negb (removed e).

(** Modelled from the spec: [track(relation_handle, way_id, slot)] appends
  an interest and increments the relation's outstanding-count. *)
Definition track (rdb : RelationsDatabase.t) (db : t)
    (rel_handle : RelationsDatabase.RelationHandle)
    (id : object_id_type) (position : nat) : RelationsDatabase.t * t :=
  (RelationsDatabase.increment_members rdb rel_handle,
   mk (m_elements db ++ [mk_element id rel_handle position None false])
      (m_init_phase db)).

(** Modelled from the spec: stable insertion by way id. *)
Fixpoint insert_sorted (e : element) (l : list element) : list element :=
  match l with
  | [] => [e]
  | x :: rest =>
      if member_id e <=? member_id x then e :: l
      else x :: insert_sorted e rest
  end.

(** Modelled from the spec: [prepare()] sorts the interests ascending by
  way id, stable, and ends the collecting phase. *)
Definition prepare (db : t) : t :=
  mk (foldr insert_sorted [] (m_elements db)) false.

(** Modelled from the spec: the positions of the live interests in way
  [id], the range the binary search of [add] yields on the sorted
  interests. *)
Definition find (db : t) (id : object_id_type) : list nat :=
  map fst (filter (fun p => is_live id (snd p) = true)
                  (imap (fun i e => (i, e)) (m_elements db))).

(** Modelled from the spec: [get(way_id)], read-only access to the payload
  of a matched way. *)
Definition get (s : ItemStash.t) (db : t) (id : object_id_type)
  : option Way.t :=
  match filter (fun e => is_live id e = true) (m_elements db) with
  | e :: _ => h ← object_handle e; ItemStash.get_way s h
  | [] => None
  end.

(** Modelled from the spec: is [e] a live interest in way [id] registered
  by a relation whose id is [relation_id]? *)
Definition registered_by (s : ItemStash.t) (rdb : RelationsDatabase.t)
    (id relation_id : object_id_type) (e : element) : bool :=
  is_live id e &&
  match RelationsDatabase.get s rdb (relation_pos e) with
  | Some r => Relation.id r =? relation_id
  | None => false
  end.

(** Modelled from the spec: logical erasure of an interest. *)
Definition mark_removed (e : element) : element :=
  mk_element (member_id e) (relation_pos e) (member_num e)
             (object_handle e) true.

(** Modelled from the spec: [remove(way_id, relation_id)] removes all
  interests matching both ids.  The payload of the way is released from
  the stash when the last interest referencing it goes. *)
Definition remove (s : ItemStash.t) (rdb : RelationsDatabase.t) (db : t)
    (id relation_id : object_id_type) : ItemStash.t * t :=
  let hit := registered_by s rdb id relation_id in
  let elements' :=
    map (fun e => if hit e then mark_removed e else e) (m_elements db) in
  let handles := omap object_handle (filter (fun e => hit e = true)
                                            (m_elements db)) in
  let s' :=
    if existsb (is_live id) elements' then s
    else foldr (fun h acc => ItemStash.remove_item acc h) s handles in
  (s', mk elements' (m_init_phase db)).
End MembersDatabase.

(** Modelled from the spec: [osmium::memory::CallbackBuffer]
  (osmium/memory/callback_buffer.hpp) is missing.  An output buffer with a
  size-threshold flush hook.  [handed_off] records, in order, the buffers
  the registered callback has taken ownership of.  The callback is code
  of the embedder and is taken to return; the origin of the exceptions
  that leave the manager is stated for pull mode, where none runs. *)
Module CallbackBuffer.
Record t : Set := mk {
  m_buffer : list Area.t;
  m_has_callback : bool;
  m_max_buffer_size : nat;
  handed_off : list (list Area.t)
}.

(** Modelled from the spec: an empty buffer in pull mode. *)
Definition empty (max_buffer_size : nat) : t :=
  mk [] false max_buffer_size [].

(** Modelled from the spec: the size of the buffer contents. *)
Definition committed (item_size : Area.t -> nat) (b : list Area.t) : nat :=
  foldr (fun a n => (item_size a + n)%nat) 0%nat b.

(** Modelled from the spec: [set_callback(cb)] installs the sink; null
  means pull mode. *)
Definition set_callback (cb : t) (has_callback : bool) : t :=
  mk (m_buffer cb) has_callback (m_max_buffer_size cb) (handed_off cb).

(** Modelled from the spec: the assembler appends the items it commits to
  [buffer()]. *)
Definition append (cb : t) (items : list Area.t) : t :=
  mk (m_buffer cb ++ items) (m_has_callback cb) (m_max_buffer_size cb)
     (handed_off cb).

(** Modelled from the spec: [flush()] forces a hand-off regardless of
  size. *)
Definition flush (cb : t) : t :=
  if m_has_callback cb then
    mk [] true (m_max_buffer_size cb) (handed_off cb ++ [m_buffer cb])
  else cb.

(** Modelled from the spec: [possibly_flush()], if the buffer has reached
  the threshold, swaps it with a fresh buffer and hands the full one to
  the registered callback. *)
Definition possibly_flush (item_size : Area.t -> nat) (cb : t) : t :=
  if (m_max_buffer_size cb <=? committed item_size (m_buffer cb))%nat
  then flush cb else cb.

(** Modelled from the spec: [read()] pulls the current buffer. *)
Definition read (cb : t) : list Area.t * t :=
  (m_buffer cb,
   mk [] (m_has_callback cb) (m_max_buffer_size cb) (handed_off cb)).

(** Modelled from the spec: everything written so far, in the order it
  was written, the buffers already handed off followed by the current
  buffer. *)
Definition output_stream (cb : t) : list Area.t :=
  concat (handed_off cb) ++ m_buffer cb.
End CallbackBuffer.

(** ** osmium/area/multipolygon_manager.hpp *)

(** The mutable members of [MultipolygonManager].  The constant members
  [m_assembler_config] and [m_filter] are parameters of the operations;
  [m_handler_pass2] checks the order of the second pass and forwards it
  to [member_way] and [flush_output], see [pass2]. *)
Record Manager : Set := mk_Manager {
  m_stash : ItemStash.t;
  m_relations_db : RelationsDatabase.t;
  m_members_db : MembersDatabase.t;
  m_output : CallbackBuffer.t;
  m_stats : area_stats.t
}.

(** The payload handles attached to interests never refer to a stored
  relation: they were handed out for ways. *)
Definition payloads_are_ways (m : Manager) : Prop :=
  forall (e : MembersDatabase.element) (oh : ItemStash.handle_type)
         (r : Relation.t),
    e ∈ MembersDatabase.m_elements (m_members_db m) ->
    MembersDatabase.object_handle e = Some oh ->
    m_stash m !! oh ≠ Some (Some (ItemStash.item_relation r)).

(** The output stream of the manager. *)
Definition output_stream (m : Manager) : list Area.t :=
  CallbackBuffer.output_stream (m_output m).

(** The state of a freshly constructed manager. *)
Definition Manager_new (max_buffer_size : nat) : Manager :=
  mk_Manager [] [] MembersDatabase.empty
             (CallbackBuffer.empty max_buffer_size) area_stats.zero.

(** The invocations of the assembler, as observed from outside. *)
Inductive assembler_call : Set :=
| call_way (w : Way.t)
| call_relation (r : Relation.t) (ways : list Way.t).

(** A member function of the manager: it runs on the manager's state and
  ends normally with a value or with an exception in flight; the state
  changes made before a throw persist; [trace] lists the assembler
  invocations it made, in order. *)
Record result (A : Type) : Type := mk_result {
  outcome : exception + A;
  final : Manager;
  trace : list assembler_call
}.

Arguments mk_result {A} _ _ _.
Arguments outcome {A} _.
Arguments final {A} _.
Arguments trace {A} _.

Definition M (A : Type) : Type := Manager -> result A.

Definition ret {A : Type} (a : A) : M A :=
  fun m => mk_result (inr a) m [].

Definition bind {A B : Type} (c : M A) (k : A -> M B) : M B :=
  fun m =>
    let r := c m in
    match outcome r with
    | inl e => mk_result (inl e) (final r) (trace r)
    | inr a =>
        let r' := k a (final r) in
        mk_result (outcome r') (final r') (trace r ++ trace r')
    end.

Definition throw {A : Type} (e : exception) : M A :=
  fun m => mk_result (inl e) m [].

(** [try { body } catch (const osmium::invalid_location&) { }] *)
Definition try_catch_invalid_location (body : M unit) : M unit :=
  fun m =>
    let r := body m in
    match outcome r with
    | inl (invalid_location _) => mk_result (inr tt) (final r) (trace r)
    | _ => r
    end.

Definition get_manager : M Manager :=
  fun m => mk_result (inr m) m [].

Definition modify (f : Manager -> Manager) : M unit :=
  fun m => mk_result (inr tt) (f m) [].

(** Modelled from the spec: a lookup that must succeed; an unknown or
  released handle is the fatal contract violation. *)
Definition expect {A : Type} (o : option A) : M A :=
  match o with
  | Some a => ret a
  | None => throw stash_corruption
  end.

Declare Scope manager_scope.
Delimit Scope manager_scope with manager.
Notation "'let*' x := c 'in' k" := (bind c (fun x => k))
  (at level 10, x name, c at level 100, k at level 200) : manager_scope.
Notation "c ;; k" := (bind c (fun _ => k))
  (at level 100, k at level 200, right associativity) : manager_scope.
#[local] Open Scope manager_scope.

Section MultipolygonManager.

Context (TA : TAssembler) (m_assembler_config : config_type TA).
Context (m_filter : TagsFilter) (item_size : Area.t -> nat).

(** *** Access to the members of the manager *)

Definition set_stash_members (m : Manager)
    (sd : ItemStash.t * MembersDatabase.t) : Manager :=
  mk_Manager (fst sd) (m_relations_db m) (snd sd) (m_output m) (m_stats m).

Definition set_output (m : Manager) (o : CallbackBuffer.t) : Manager :=
  mk_Manager (m_stash m) (m_relations_db m) (m_members_db m) o (m_stats m).

(** [*rel_handle] *)
Definition deref (rel_handle : RelationsDatabase.RelationHandle)
  : M Relation.t :=
  let* m := get_manager in
  expect (RelationsDatabase.get (m_stash m) (m_relations_db m) rel_handle).

(** [m_relations_db.add(relation)] *)
Definition relations_db_add (relation : Relation.t)
  : M RelationsDatabase.RelationHandle :=
  fun m =>
    let '(h, s, rdb) :=
      RelationsDatabase.add (m_stash m) (m_relations_db m) relation in
    mk_result (inr h)
      (mk_Manager s rdb (m_members_db m) (m_output m) (m_stats m)) [].

(** [rel_handle.remove()] *)
Definition rel_handle_remove (rel_handle : RelationsDatabase.RelationHandle)
  : M unit :=
  modify (fun m =>
    let '(s, rdb) :=
      RelationsDatabase.remove (m_stash m) (m_relations_db m) rel_handle in
    mk_Manager s rdb (m_members_db m) (m_output m) (m_stats m)).

(** [m_members_db.track(rel_handle, member_id, n)] *)
Definition members_db_track (rel_handle : RelationsDatabase.RelationHandle)
    (id : object_id_type) (n : nat) : M unit :=
  modify (fun m =>
    let '(rdb, db) :=
      MembersDatabase.track (m_relations_db m) (m_members_db m)
                            rel_handle id n in
    mk_Manager (m_stash m) rdb db (m_output m) (m_stats m)).

(** [m_members_db.remove(member_id, relation_id)] *)
Definition members_db_remove (id relation_id : object_id_type) : M unit :=
  modify (fun m =>
    set_stash_members m
      (MembersDatabase.remove (m_stash m) (m_relations_db m)
                              (m_members_db m) id relation_id)).

(** [m_members_db.get(member_id)] *)
Definition members_db_get (id : object_id_type) : M Way.t :=
  let* m := get_manager in
  expect (MembersDatabase.get (m_stash m) (m_members_db m) id).

(** [member.set_ref(new_ref)] on member [n] of the stored relation. *)
Definition member_set_ref (rel_handle : RelationsDatabase.RelationHandle)
    (n : nat) (new_ref : object_id_type) : M unit :=
  let* r := deref rel_handle in
  modify (fun m =>
    mk_Manager
      (RelationsDatabase.set (m_stash m) (m_relations_db m) rel_handle
         (Relation.set_members r
            (alter (fun member => RelationMember.set_ref member new_ref) n
                   (Relation.members r))))
      (m_relations_db m) (m_members_db m) (m_output m) (m_stats m)).

(** An assembler is constructed, called on the output buffer, and its
  statistics are read: [assembler(..., m_output.buffer())] followed by
  [assembler.stats()].  A throwing call leaves before the statistics are
  read. *)
Definition run_assembler (call : assembler_call) (res : assembler_result)
  : M area_stats.t :=
  fun m =>
    match res with
    | inl e => mk_result (inl e) m [call]
    | inr out =>
        mk_result (inr (out_stats out))
          (set_output m (CallbackBuffer.append (m_output m) (out_areas out)))
          [call]
    end.

(** [m_stats += stats] *)
Definition stats_add (stats : area_stats.t) : M unit :=
  modify (fun m =>
    mk_Manager (m_stash m) (m_relations_db m) (m_members_db m) (m_output m)
               (area_stats.add (m_stats m) stats)).

(** [m_output.possibly_flush()] *)
Definition output_possibly_flush : M unit :=
  modify (fun m =>
    set_output m (CallbackBuffer.possibly_flush item_size (m_output m))).

(** *** Private member functions *)

Fixpoint remove_members_loop (members : list RelationMember.t)
    (relation_id : object_id_type) : M unit :=
  match members with
  | [] => ret tt
  | member :: rest =>
      (if negb (RelationMember.ref member =? 0) then
         (* assert(member.type() == osmium::item_type::way) *)
         members_db_remove (RelationMember.ref member) relation_id
       else ret tt) ;;
      remove_members_loop rest relation_id
  end.

Definition remove_members (relation : Relation.t) : M unit :=
  remove_members_loop (Relation.members relation) (Relation.id relation).

(** We are interested in all relations tagged with type=multipolygon or
  type=boundary with at least one way member. *)
Definition keep_relation (relation : Relation.t) : bool :=
  match TagList_.get_value_by_key (Relation.tags relation) "type" with
  | None =>
      (* ignore relations without "type" tag *)
      false
  | Some type =>
      if (String.eqb type "multipolygon" || String.eqb type "boundary")
         && tags.match_any_of (Relation.tags relation) m_filter
      then
        existsb (fun member =>
                   item_type.eqb (RelationMember.type member) item_type.way)
                (Relation.members relation)
      else false
  end.

Definition assemble_way (way : Way.t) : M unit :=
  (* you need at least 4 nodes to make up a polygon *)
  if (length (Way.nodes way) <=? 3)%nat then ret tt
  else
    try_catch_invalid_location
      ((if negb (Location_.valid (NodeRef.location (Way.front way)))
           || negb (Location_.valid (NodeRef.location (Way.back way)))
        then throw (invalid_location "invalid location")
        else ret tt) ;;
       if Way.ends_have_same_location way then
         if TagList_.has_tag (Way.tags way) "area" "no" then ret tt
         else if tags.match_none_of (Way.tags way) m_filter then ret tt
         else
           let* stats :=
             run_assembler (call_way way)
               (assemble_closed_way TA m_assembler_config way) in
           stats_add stats ;;
           output_possibly_flush
       else ret tt).

Fixpoint gather_ways (members : list RelationMember.t) : M (list Way.t) :=
  match members with
  | [] => ret []
  | member :: rest =>
      if negb (RelationMember.ref member =? 0) then
        let* w := members_db_get (RelationMember.ref member) in
        let* ways := gather_ways rest in
        ret (w :: ways)
      else gather_ways rest
  end.

(** This is called when a relation is complete, ie. all members were found
  in the input.  It will build the area using the assembler. *)
Definition complete_relation (relation : Relation.t) : M unit :=
  let* ways := gather_ways (Relation.members relation) in
  try_catch_invalid_location
    (let* stats :=
       run_assembler (call_relation relation ways)
         (assemble_relation TA m_assembler_config relation ways) in
     stats_add stats ;;
     output_possibly_flush).

(** *** Public member functions *)

(** [stats()] *)
Definition stats (m : Manager) : area_stats.t := m_stats m.

(** [handler(callback)]: installs the callback of the output buffer. *)
Definition handler (has_callback : bool) : M unit :=
  modify (fun m =>
    set_output m (CallbackBuffer.set_callback (m_output m) has_callback)).

(** The loop of [relation] over the members of the stored relation, with
  the slot counter [n]. *)
Fixpoint walk_members (rel_handle : RelationsDatabase.RelationHandle)
    (n : nat) (members : list RelationMember.t) : M unit :=
  match members with
  | [] => ret tt
  | member :: rest =>
      (if item_type.eqb (RelationMember.type member) item_type.way then
         members_db_track rel_handle (RelationMember.ref member) n
       else
         (* set member id to zero to indicate we are not interested *)
         member_set_ref rel_handle n 0) ;;
      walk_members rel_handle (S n) rest
  end.

(** First pass: asks [keep_relation] whether to keep the relation; if so,
  remembers the relation and notes down interest in the members. *)
Definition relation (relation : Relation.t) : M unit :=
  if keep_relation relation then
    let* rel_handle := relations_db_add relation in
    let* stored := deref rel_handle in
    walk_members rel_handle 0 (Relation.members stored)
  else ret tt.

(** Sort the members database; called between the first and second
  pass. *)
Definition prepare : M unit :=
  modify (fun m =>
    mk_Manager (m_stash m) (m_relations_db m)
               (MembersDatabase.prepare (m_members_db m))
               (m_output m) (m_stats m)).

(** The closure [member_way] passes to [m_members_db.add]. *)
Definition on_complete (rel_handle : RelationsDatabase.RelationHandle)
  : M unit :=
  (let* r := deref rel_handle in complete_relation r) ;;
  (let* r := deref rel_handle in remove_members r) ;;
  rel_handle_remove rel_handle.

(** Modelled from the spec: the loop of [MembersDatabase::add] over the
  interests matching the way: decrement the outstanding-count of the
  interested relation and, if it reaches zero, invoke the callback
  synchronously. *)
Fixpoint members_db_notify (range : list nat)
    (func : RelationsDatabase.RelationHandle -> M unit) : M unit :=
  match range with
  | [] => ret tt
  | i :: rest =>
      let* m := get_manager in
      let* elem := expect (MembersDatabase.m_elements (m_members_db m) !! i) in
      let pos := MembersDatabase.relation_pos elem in
      modify (fun m =>
        mk_Manager (m_stash m)
          (RelationsDatabase.decrement_members (m_relations_db m) pos)
          (m_members_db m) (m_output m) (m_stats m)) ;;
      let* m := get_manager in
      (if RelationsDatabase.has_all_members (m_relations_db m) pos
       then func pos else ret tt) ;;
      members_db_notify rest func
  end.

(** Modelled from the spec: [MembersDatabase::add(way, on_complete)].
  Look up the interests in the way's id; if there are none, discard the
  way; otherwise store the way in the stash exactly once, attach its
  handle to each matching interest and notify the relations. *)
Definition members_db_add (way : Way.t)
    (func : RelationsDatabase.RelationHandle -> M unit) : M bool :=
  let* m := get_manager in
  let range := MembersDatabase.find (m_members_db m) (Way.id way) in
  match range with
  | [] => ret false
  | _ :: _ =>
      modify (fun m =>
        let '(h, s) :=
          ItemStash.add_item (m_stash m) (ItemStash.item_way way) in
        let attach e :=
          if MembersDatabase.is_live (Way.id way) e then
            MembersDatabase.mk_element
              (MembersDatabase.member_id e) (MembersDatabase.relation_pos e)
              (MembersDatabase.member_num e) (Some h)
              (MembersDatabase.removed e)
          else e in
        mk_Manager s (m_relations_db m)
          (MembersDatabase.mk
             (map attach (MembersDatabase.m_elements (m_members_db m)))
             (MembersDatabase.m_init_phase (m_members_db m)))
          (m_output m) (m_stats m)) ;;
      members_db_notify range func ;;
      ret true
  end.

(** Second pass: called for each way.  If the way is needed by some
  relation, it will be stored in the members database.  It will also
  build an area for the way if possible. *)
Definition member_way (way : Way.t) : M unit :=
  members_db_add way on_complete ;;
  assemble_way way.

(** Flush the output buffer; called after all members are read. *)
Definition flush_output : M unit :=
  modify (fun m => set_output m (CallbackBuffer.flush (m_output m))).

(** Return the contents of the output buffer. *)
Definition read : M (list Area.t) :=
  fun m =>
    let '(b, o) := CallbackBuffer.read (m_output m) in
    mk_result (inr b) (set_output m o) [].

(** Modelled from the spec: the driver of the first pass hands every
  relation to [relation]. *)
Fixpoint for_each {X : Type} (f : X -> M unit) (l : list X) : M unit :=
  match l with
  | [] => ret tt
  | x :: rest => f x ;; for_each f rest
  end.

Definition pass1 (relations : list Relation.t) : M unit :=
  for_each relation relations.

(** Modelled from the spec: the order check of the second pass
  ([osmium::handler::CheckOrder], osmium/handler/check_order.hpp, is
  missing), on the ways: within the type the ids are strictly
  ascending.  [max_way_id] is the id of the way before, if there was
  one.  A violation is fatal. *)
Definition check_order_way (max_way_id : option object_id_type)
    (way : Way.t) : M unit :=
  match max_way_id with
  | Some max_id =>
      if Way.id way <=? max_id
      then throw (out_of_order_error "Way IDs out of order.")
      else ret tt
  | None => ret tt
  end.

(** Modelled from the spec: [m_handler_pass2], the second pass handler
  with order check ([SecondPassHandlerWithCheckOrder],
  osmium/relations/manager_util.hpp, is missing).  For each way it
  checks the order and then calls [member_way]; at the end of the input
  it calls [flush_output]. *)
Fixpoint handler_pass2_ways (max_way_id : option object_id_type)
    (ways : list Way.t) : M unit :=
  match ways with
  | [] => ret tt
  | way :: rest =>
      check_order_way max_way_id way ;;
      member_way way ;;
      handler_pass2_ways (Some (Way.id way)) rest
  end.

Definition pass2 (ways : list Way.t) : M unit :=
  handler_pass2_ways None ways ;; flush_output.

(** *** Vocabulary of the properties *)

(** What the assembler answers to an invocation. *)
Definition call_result (call : assembler_call) : assembler_result :=
  match call with
  | call_way w => assemble_closed_way TA m_assembler_config w
  | call_relation r ways => assemble_relation TA m_assembler_config r ways
  end.

(** The areas the assembler commits during a sequence of invocations. *)
Definition emitted_by (call : assembler_call) : list Area.t :=
  match call_result call with
  | inl _ => []
  | inr out => out_areas out
  end.

Definition emitted (calls : list assembler_call) : list Area.t :=
  concat (map emitted_by calls).

(** The invocation ended with an exception that is not
  [invalid_location]. *)
Definition raises_other (call : assembler_call) (e : exception) : Prop :=
  call_result call = inl e /\ is_invalid_location e = false.

(** The conditions under which the specification lets the closed-way path
  call the assembler, as one boolean: at least 4 node refs, front and
  back locations present and equal, not tagged area=no, some tag
  accepted by the filter. *)
Definition way_qualifies (way : Way.t) : bool :=
  (4 <=? length (Way.nodes way))%nat
  && Location_.valid (NodeRef.location (Way.front way))
  && Location_.valid (NodeRef.location (Way.back way))
  && Location_.eqb (NodeRef.location (Way.front way))
                   (NodeRef.location (Way.back way))
  && negb (TagList_.has_tag (Way.tags way) "area" "no")
  && existsb m_filter (Way.tags way).

(** The conditions of the closed-way path as the specification words
  them, "not tagged area=no" read as: the tag area=no does not occur
  among the tags of the way.  They are compared with
  [way_qualifies]. *)
Definition spec_way_qualifies (way : Way.t) : bool :=
  (4 <=? length (Way.nodes way))%nat
  && Location_.valid (NodeRef.location (Way.front way))
  && Location_.valid (NodeRef.location (Way.back way))
  && Location_.eqb (NodeRef.location (Way.front way))
                   (NodeRef.location (Way.back way))
  && negb (existsb (fun tag => String.eqb (key tag) "area"
                               && String.eqb (value tag) "no")
                   (Way.tags way))
  && existsb m_filter (Way.tags way).

(** The keep decision as the specification words it: some type tag has the
  value multipolygon or boundary, and the tags other than the type tag
  satisfy the filter.  It is compared with [keep_relation]. *)
Definition spec_keep_relation (relation : Relation.t) : bool :=
  existsb (fun tag =>
             String.eqb (key tag) "type"
             && (String.eqb (value tag) "multipolygon"
                 || String.eqb (value tag) "boundary"))
          (Relation.tags relation)
  && tags.match_any_of
       (List.filter (fun tag => negb (String.eqb (key tag) "type"))
                    (Relation.tags relation))
       m_filter.

(** A member function writes to the output stream exactly what the
  assembler commits during the invocations it makes, in their order. *)
Definition emits_in_order {A : Type} (c : M A) : Prop :=
  forall m, output_stream (final (c m))
            = output_stream m ++ emitted (trace (c m)).

(** A member function lets through every exception of an assembler call
  that is not [invalid_location]. *)
Definition lets_through {A : Type} (c : M A) : Prop :=
  forall m call e,
    call ∈ trace (c m) -> raises_other call e -> outcome (c m) = inl e.

(** Both at once. *)
Definition orderly {A : Type} (c : M A) : Prop :=
  emits_in_order c /\ lets_through c.

(** Every assembler invocation of a member function satisfies [P]. *)
Definition calls_satisfy {A : Type} (P : assembler_call -> Prop) (c : M A)
  : Prop :=
  forall m call, call ∈ trace (c m) -> P call.

End MultipolygonManager.

Definition is_relation_call (call : assembler_call) : Prop :=
  exists r ways, call = call_relation r ways.

(** What pass 1 leaves of a member in the stored relation: a way member
  as it is, any other member with its id zeroed. *)
Definition zero_unless_way (member : RelationMember.t) : RelationMember.t :=
  if item_type.eqb (RelationMember.type member) item_type.way then member
  else RelationMember.set_ref member 0.

(** The interests pass 1 registers for the members from slot [n] on. *)
Fixpoint interests_of (rel_handle : RelationsDatabase.RelationHandle)
    (n : nat) (members : list RelationMember.t)
  : list MembersDatabase.element :=
  match members with
  | [] => []
  | member :: rest =>
      (if item_type.eqb (RelationMember.type member) item_type.way then
         [MembersDatabase.mk_element (RelationMember.ref member) rel_handle
                                     n None false]
       else []) ++ interests_of rel_handle (S n) rest
  end.

(** The payloads of the members with non-zero id, in slot order, as the
  members database holds them; [None] when one of them is missing. *)
Fixpoint resolved_ways (m : Manager) (members : list RelationMember.t)
  : option (list Way.t) :=
  match members with
  | [] => Some []
  | member :: rest =>
      if negb (RelationMember.ref member =? 0) then
        w ← MembersDatabase.get (m_stash m) (m_members_db m)
                                (RelationMember.ref member);
        ways ← resolved_ways m rest;
        Some (w :: ways)
      else resolved_ways m rest
  end.

(** The live interests registered against the relation at [rel_handle]. *)
Definition interests_against (m : Manager)
    (rel_handle : RelationsDatabase.RelationHandle)
  : list MembersDatabase.element :=
  List.filter (fun e => Nat.eqb (MembersDatabase.relation_pos e) rel_handle
                        && negb (MembersDatabase.removed e))
              (MembersDatabase.m_elements (m_members_db m)).

(** The live interests against the relation at [rel_handle] are interests
  in members of [r] with non-zero id, as pass 1 registers them. *)
Definition interests_match_members (m : Manager)
    (rel_handle : RelationsDatabase.RelationHandle) (r : Relation.t)
  : Prop :=
  forall e, e ∈ interests_against m rel_handle ->
    exists member, member ∈ Relation.members r
                   /\ RelationMember.ref member ≠ 0
                   /\ MembersDatabase.member_id e = RelationMember.ref member.

(** ** Consistency of the registry *)

(** The registry (stash, relations database, members database) as pass 1
  and pass 2 leave it: payload handles of interests are handles of the
  stash that were handed out for ways, the handles of the stored
  relations are handles of the stash, every interest refers to an entry
  of the relations database, and the live interests against a stored
  relation are interests in its members with non-zero id. *)
Record registry_ok (m : Manager) : Prop := mk_registry_ok {
  payload_bound :
    forall e oh,
      e ∈ MembersDatabase.m_elements (m_members_db m) ->
      MembersDatabase.object_handle e = Some oh ->
      (oh < length (m_stash m))%nat;
  payload_way : payloads_are_ways m;
  relation_slot_bound :
    forall h sh,
      (m_relations_db m !! h) ≫= RelationsDatabase.handle = Some sh ->
      (sh < length (m_stash m))%nat;
  interest_bound :
    forall e,
      e ∈ MembersDatabase.m_elements (m_members_db m) ->
      (MembersDatabase.relation_pos e < length (m_relations_db m))%nat;
  interests_ok :
    forall h r,
      RelationsDatabase.get (m_stash m) (m_relations_db m) h = Some r ->
      interests_match_members m h r
}.

(** A step of pass 2 on the registry: the stash grows by ways only and
  otherwise only frees slots, the relations database keeps its size and
  only releases handles, and every interest is an interest that was
  there, possibly with a freshly stored payload or logically erased. *)
Record registry_step (m m' : Manager) : Prop := mk_registry_step {
  stash_grows : (length (m_stash m) <= length (m_stash m'))%nat;
  stash_relations :
    forall k r,
      m_stash m' !! k = Some (Some (ItemStash.item_relation r)) ->
      m_stash m !! k = Some (Some (ItemStash.item_relation r));
  relations_size : length (m_relations_db m') = length (m_relations_db m);
  relations_handles :
    forall h sh,
      (m_relations_db m' !! h) ≫= RelationsDatabase.handle = Some sh ->
      (m_relations_db m !! h) ≫= RelationsDatabase.handle = Some sh;
  interests_from :
    forall e',
      e' ∈ MembersDatabase.m_elements (m_members_db m') ->
      exists e,
        e ∈ MembersDatabase.m_elements (m_members_db m)
        /\ MembersDatabase.member_id e' = MembersDatabase.member_id e
        /\ MembersDatabase.relation_pos e' = MembersDatabase.relation_pos e
        /\ (MembersDatabase.removed e' = false ->
            MembersDatabase.removed e = false)
        /\ forall oh,
             MembersDatabase.object_handle e' = Some oh ->
             MembersDatabase.object_handle e = Some oh
             \/ (length (m_stash m) <= oh < length (m_stash m'))%nat
}.

(** A member function keeps a property of the manager, however it ends. *)
Definition keeps {A : Type} (P : Manager -> Prop) (c : M A) : Prop :=
  forall m, P m -> P (final (c m)).

(** The way members of a relation have non-zero ids, as the ids of OSM
  objects do. *)
Definition way_members_nonzero (r : Relation.t) : Prop :=
  forall member,
    member ∈ Relation.members r ->
    RelationMember.type member = item_type.way ->
    RelationMember.ref member ≠ 0.

(** ** The registry during the second pass *)

(** The interest [e] is registered against the relation at [rel_handle],
  is not erased, and its way has not been attached. *)
Definition waits_for (rel_handle : RelationsDatabase.RelationHandle)
    (e : MembersDatabase.element) : bool :=
  Nat.eqb (MembersDatabase.relation_pos e) rel_handle
  && negb (MembersDatabase.removed e)
  && match MembersDatabase.object_handle e with
     | Some _ => false
     | None => true
     end.

(** The number of interests of the relation at [rel_handle] that still
  wait for their way. *)
Definition waiting (m : Manager)
    (rel_handle : RelationsDatabase.RelationHandle) : nat :=
  length (List.filter (waits_for rel_handle)
                      (MembersDatabase.m_elements (m_members_db m))).

(** Inside [MembersDatabase::add]: the number of interests among the
  positions [pending], still to be notified, that are registered
  against the relation at [rel_handle]. *)
Definition pending_for (m : Manager) (pending : list nat)
    (rel_handle : RelationsDatabase.RelationHandle) : nat :=
  length
    (List.filter
       (fun i =>
          match MembersDatabase.m_elements (m_members_db m) !! i with
          | Some e => Nat.eqb (MembersDatabase.relation_pos e) rel_handle
          | None => false
          end)
       pending).

(** The registry as the two passes keep it, [delivered] being the ways
  the second pass has handed over so far and [pending] the positions
  [MembersDatabase::add] has still to notify (none between two ways).
  Every relation that has not been released has its copy in the stash,
  and no two of them have the same id; the live interests against a
  stored relation are interests in its members with non-zero id, and
  each such member has a live interest; a live interest belongs to a
  relation that has not been released; a way attached to a live
  interest is a delivered way with the id of the interest, and every
  live interest in a delivered way has its way attached; the
  outstanding count of a relation is the number of its interests that
  wait for their way or for their notification. *)
Record tracking (delivered : list Way.t) (pending : list nat)
    (m : Manager) : Prop := mk_tracking {
  relation_stored :
    forall h sh,
      (m_relations_db m !! h) ≫= RelationsDatabase.handle = Some sh ->
      exists r, m_stash m !! sh = Some (Some (ItemStash.item_relation r));
  relation_ids :
    forall h1 h2 r1 r2,
      RelationsDatabase.get (m_stash m) (m_relations_db m) h1 = Some r1 ->
      RelationsDatabase.get (m_stash m) (m_relations_db m) h2 = Some r2 ->
      Relation.id r1 = Relation.id r2 ->
      h1 = h2;
  interest_member :
    forall h r e,
      RelationsDatabase.get (m_stash m) (m_relations_db m) h = Some r ->
      e ∈ MembersDatabase.m_elements (m_members_db m) ->
      MembersDatabase.relation_pos e = h ->
      MembersDatabase.removed e = false ->
      exists member,
        member ∈ Relation.members r
        /\ RelationMember.ref member ≠ 0
        /\ MembersDatabase.member_id e = RelationMember.ref member;
  member_interest :
    forall h r member,
      RelationsDatabase.get (m_stash m) (m_relations_db m) h = Some r ->
      member ∈ Relation.members r ->
      RelationMember.ref member ≠ 0 ->
      exists e,
        e ∈ MembersDatabase.m_elements (m_members_db m)
        /\ MembersDatabase.relation_pos e = h
        /\ MembersDatabase.member_id e = RelationMember.ref member
        /\ MembersDatabase.removed e = false;
  interest_owner :
    forall e,
      e ∈ MembersDatabase.m_elements (m_members_db m) ->
      MembersDatabase.removed e = false ->
      exists sh,
        (m_relations_db m !! MembersDatabase.relation_pos e)
          ≫= RelationsDatabase.handle = Some sh;
  payload_delivered :
    forall e oh,
      e ∈ MembersDatabase.m_elements (m_members_db m) ->
      MembersDatabase.removed e = false ->
      MembersDatabase.object_handle e = Some oh ->
      exists w,
        m_stash m !! oh = Some (Some (ItemStash.item_way w))
        /\ Way.id w = MembersDatabase.member_id e
        /\ w ∈ delivered;
  delivered_attached :
    forall e w,
      e ∈ MembersDatabase.m_elements (m_members_db m) ->
      MembersDatabase.removed e = false ->
      w ∈ delivered ->
      Way.id w = MembersDatabase.member_id e ->
      MembersDatabase.object_handle e ≠ None;
  outstanding :
    forall h entry sh,
      m_relations_db m !! h = Some entry ->
      RelationsDatabase.handle entry = Some sh ->
      RelationsDatabase.members entry
      = (waiting m h + pending_for m pending h)%nat;
  pending_live :
    forall i,
      i ∈ pending ->
      exists e,
        MembersDatabase.m_elements (m_members_db m) !! i = Some e
        /\ MembersDatabase.removed e = false
        /\ MembersDatabase.object_handle e ≠ None
}.

(** What [MembersDatabase::add] makes of an interest when it stores
  [way] at the stash handle [handle]: the live interests in the way get
  the handle attached. *)
Definition attach (way : Way.t) (handle : ItemStash.handle_type)
    (e : MembersDatabase.element) : MembersDatabase.element :=
  if MembersDatabase.is_live (Way.id way) e then
    MembersDatabase.mk_element
      (MembersDatabase.member_id e) (MembersDatabase.relation_pos e)
      (MembersDatabase.member_num e) (Some handle)
      (MembersDatabase.removed e)
  else e.

(** The manager after [MembersDatabase::add] has stored [way] and before
  it notifies the relations. *)
Definition store_way (way : Way.t) (m : Manager) : Manager :=
  mk_Manager (m_stash m ++ [Some (ItemStash.item_way way)])
    (m_relations_db m)
    (MembersDatabase.mk
       (map (attach way (length (m_stash m)))
            (MembersDatabase.m_elements (m_members_db m)))
       (MembersDatabase.m_init_phase (m_members_db m)))
    (m_output m) (m_stats m).

(** What [remove_members] makes of an interest: the interests registered
  against the relation at [rel_handle] in a member with non-zero id
  among [members] are erased. *)
Definition erase (rel_handle : RelationsDatabase.RelationHandle)
    (members : list RelationMember.t) (e : MembersDatabase.element)
  : MembersDatabase.element :=
  if Nat.eqb (MembersDatabase.relation_pos e) rel_handle
     && existsb (fun member =>
                   negb (RelationMember.ref member =? 0)
                   && (MembersDatabase.member_id e
                       =? RelationMember.ref member))
                members
  then MembersDatabase.mark_removed e else e.

(** The relation at [rel_handle] is finished: its handle is released and
  all the interests registered against it are erased. *)
Definition finished (m : Manager)
    (rel_handle : RelationsDatabase.RelationHandle) : Prop :=
  (m_relations_db m !! rel_handle) ≫= RelationsDatabase.handle = None
  /\ forall e,
       e ∈ MembersDatabase.m_elements (m_members_db m) ->
       MembersDatabase.relation_pos e = rel_handle ->
       MembersDatabase.removed e = true.

(** ** Concrete collaborators and inputs *)

Module Examples.

(** An assembler in the shape of the real one: it refuses node refs
  without location with [invalid_location] and otherwise commits one
  Area whose id is derived from the id of the source object. *)
Definition has_all_locations (w : Way.t) : bool :=
  forallb (fun n => Location_.valid (NodeRef.location n)) (Way.nodes w).

Definition ring_assembler : TAssembler :=
  mk_TAssembler unit
    (fun _ w =>
       if has_all_locations w then
         inr (mk_assembler_output
                [Area.mk (object_id_to_area_id (Way.id w) item_type.way)
                         (Way.tags w) [(Way.nodes w, [])]]
                (area_stats.mk 1 1 0 0))
       else inl (invalid_location "invalid location"))
    (fun _ r ways =>
       if forallb has_all_locations ways then
         inr (mk_assembler_output
                [Area.mk
                   (object_id_to_area_id (Relation.id r) item_type.relation)
                   (Relation.tags r)
                   (map (fun w => (Way.nodes w, [])) ways)]
                (area_stats.mk 1 (length ways) 0 0))
       else inl (invalid_location "invalid location")).

(** An assembler that fails with an exception that is not
  [invalid_location]. *)
Definition failing_assembler : TAssembler :=
  mk_TAssembler unit
    (fun _ _ => inl (other_exception "bad_alloc"))
    (fun _ _ _ => inl (other_exception "bad_alloc")).

Definition unit_size : Area.t -> nat := fun _ => 1%nat.

Definition node_at (id x y : Z) : NodeRef.t := NodeRef.mk id (Some (x, y)).

Definition square (first : Z) : NodeRefList :=
  [node_at first 0 0; node_at (first + 1) 1 0; node_at (first + 2) 1 1;
   node_at (first + 3) 0 1; node_at first 0 0].

(** Scenario "single closed way". *)
Definition way42 : Way.t :=
  Way.mk 42 [mkTag "building" "yes"] (square 1).

(** Scenario "area=no suppression". *)
Definition way_area_no : Way.t :=
  Way.mk 43 [mkTag "landuse" "forest"; mkTag "area" "no"] (square 1).

(** A closed way one of whose inner node refs has no location: the guard of
  the manager passes and the assembler raises [invalid_location]. *)
Definition way_hole : Way.t :=
  Way.mk 44 [mkTag "building" "yes"]
    [node_at 1 0 0; NodeRef.mk 2 None; node_at 3 1 1; node_at 4 0 1;
     node_at 1 0 0].

(** A closed way with two tags of the key area, the second of them
  area=no. *)
Definition way_area_twice : Way.t :=
  Way.mk 45 [mkTag "area" "yes"; mkTag "area" "no"; mkTag "building" "yes"]
    (square 1).

(** Scenario "simple multipolygon". *)
Definition way10 : Way.t := Way.mk 10 [] (square 100).
Definition way11 : Way.t := Way.mk 11 [] (square 200).

Definition relation7 : Relation.t :=
  Relation.mk 7 [mkTag "type" "multipolygon"; mkTag "landuse" "forest"]
    [RelationMember.mk item_type.way 10 "outer";
     RelationMember.mk item_type.node 5 "label";
     RelationMember.mk item_type.way 11 "inner"].

(** A multipolygon relation whose only way member is itself a closed,
  tagged way. *)
Definition way20 : Way.t := Way.mk 20 [mkTag "building" "yes"] (square 300).

Definition relation8 : Relation.t :=
  Relation.mk 8 [mkTag "type" "multipolygon"]
    [RelationMember.mk item_type.way 20 "outer"].

(** A multipolygon relation without way members. *)
Definition relation9 : Relation.t :=
  Relation.mk 9 [mkTag "type" "multipolygon"; mkTag "natural" "water"]
    [RelationMember.mk item_type.node 5 "label"].

(** A filter that accepts the key [type] only. *)
Definition type_filter : TagsFilter :=
  TagsFilter_of_matcher
    (TagMatcher.of_key (StringMatcher.matching (String.eqb "type"))).

(** The manager after pass 1 over [rels] and [prepare]. *)
Definition after_pass1 (rels : list Relation.t) : Manager :=
  final ((pass1 TagsFilter_default rels ;; prepare) (Manager_new 1000)).

(** The manager of the default configuration with the ring assembler. *)
Definition second_pass (w : Way.t) : M unit :=
  member_way ring_assembler tt TagsFilter_default unit_size w.

(** Both passes over the given relations and ways, with the default filter
  and the ring assembler, in pull mode. *)
Definition run (relations : list Relation.t) (ways : list Way.t)
  : result unit :=
  (pass1 TagsFilter_default relations ;; prepare ;;
   pass2 ring_assembler tt TagsFilter_default unit_size ways)
    (Manager_new 1000).

(** Scenario "shared way completing two relations": both relations cite
  the way 5 as their only way member. *)
Definition way5 : Way.t := Way.mk 5 [] (square 500).

Definition relation_A : Relation.t :=
  Relation.mk 1 [mkTag "type" "multipolygon"]
    [RelationMember.mk item_type.way 5 "outer"].

Definition relation_B : Relation.t :=
  Relation.mk 2 [mkTag "type" "boundary"]
    [RelationMember.mk item_type.way 5 "outer"].

(** The areas the ring assembler builds for [way20] and for [relation8]. *)
Definition area_of_way20 : Area.t :=
  Area.mk 40 [mkTag "building" "yes"] [(square 300, [])].

Definition area_of_relation8 : Area.t :=
  Area.mk 17 [mkTag "type" "multipolygon"] [(square 300, [])].

(** A multipolygon relation one of whose way members has the id 0, and
  a way of this id. *)
Definition way0 : Way.t := Way.mk 0 [] (square 600).

Definition relation61 : Relation.t :=
  Relation.mk 61 [mkTag "type" "multipolygon"]
    [RelationMember.mk item_type.way 0 "outer";
     RelationMember.mk item_type.way 20 "inner"].

(** [relation7] as pass 1 stores it. *)
Definition stored_relation7 : Relation.t :=
  Relation.mk 7 [mkTag "type" "multipolygon"; mkTag "landuse" "forest"]
    [RelationMember.mk item_type.way 10 "outer";
     RelationMember.mk item_type.node 0 "label";
     RelationMember.mk item_type.way 11 "inner"].

End Examples.

(** [a] comes before [b] in [l]. *)
Definition precedes {X : Type} (a b : X) (l : list X) : Prop :=
  exists i j : nat, (i < j)%nat /\ l !! i = Some a /\ l !! j = Some b.


(** ** osmium/osm/area.hpp, continued: the rings of an Area *)

(** [size_t] counters: [++] wraps modulo 2^64. *)
Definition size_t_incr (n : Z) : Z := (n + 1) mod 2 ^ 64.

(** Modelled from the spec: the child items of an Area in the buffer
  (osmium/memory/item.hpp and osmium/memory/collection.hpp are missing).
  An Area holds a sequence of child items, each with a type; a tag list
  carries tags, a ring carries node refs. *)
Module Item.
Record t : Set := mk {
  type : item_type.t;
  tags : TagList;
  nodes : NodeRefList
}.

Definition tag_list (tl : TagList) : t := mk item_type.tag_list tl [].
Definition outer_ring (ring : NodeRefList) : t :=
  mk item_type.outer_ring [] ring.
Definition inner_ring (ring : NodeRefList) : t :=
  mk item_type.inner_ring [] ring.
End Item.

(** Modelled from the spec: the child sequence of an Area, the tag set
  followed by each outer ring with its inner rings positioned after it,
  contiguously. *)
Definition ring_items (rings : list (NodeRefList * list NodeRefList))
  : list Item.t :=
  flat_map (fun ring =>
              Item.outer_ring (fst ring) :: map Item.inner_ring (snd ring))
           rings.

Definition Area_children (a : Area.t) : list Item.t :=
  Item.tag_list (Area.tags a) :: ring_items (Area.rings a).

(** The loop of [Area::num_rings] over the children, with the pair of
  counters.  A child that is neither a ring nor a tag list hits
  [assert(false)]: a build with assertions aborts the program there,
  which is the result [None]; under [NDEBUG] the assertion is compiled
  out and the loop goes on without counting the item. *)
Fixpoint num_rings_loop (ndebug : bool) (items : list Item.t)
    (counter : Z * Z) : option (Z * Z) :=
  match items with
  | [] => Some counter
  | item :: rest =>
      match Item.type item with
      | item_type.outer_ring =>
          num_rings_loop ndebug rest
            (size_t_incr (fst counter), snd counter)
      | item_type.inner_ring =>
          num_rings_loop ndebug rest
            (fst counter, size_t_incr (snd counter))
      | item_type.tag_list =>
          (* ignore tags *)
          num_rings_loop ndebug rest counter
      | item_type.undefined
      | item_type.node
      | item_type.way
      | item_type.relation
      | item_type.area
      | item_type.changeset
      | item_type.way_node_list
      | item_type.relation_member_list
      | item_type.relation_member_list_with_full_members
      | item_type.changeset_discussion =>
          (* assert(false), children of Area can only be outer/inner_ring
             and tag_list *)
          if ndebug then num_rings_loop ndebug rest counter else None
      end
  end.

(** Count the number of outer and inner rings of this area. *)
Definition Area_num_rings (ndebug : bool) (children : list Item.t)
  : option (Z * Z) :=
  num_rings_loop ndebug children (0, 0).

(** Check whether this area is a multipolygon, ie. whether it has more
  than one outer ring? *)
Definition Area_is_multipolygon (ndebug : bool) (children : list Item.t)
  : option bool :=
  counter ← Area_num_rings ndebug children;
  Some (1 <? fst counter).

(** The items an Area can have as children. *)
Definition area_child (item : Item.t) : bool :=
  match Item.type item with
  | item_type.outer_ring | item_type.inner_ring | item_type.tag_list => true
  | _ => false
  end.

(** Modelled from the spec: [osmium::memory::ItemIterator] and
  [ItemIteratorRange] (osmium/memory/item_iterator.hpp) are missing.  An
  iterator over the items of one type inside a range of the child
  sequence: a position and the end of the range, the position always
  being at an item of the type or at the end.  Positions are indices
  into the child sequence. *)
Module ItemIterator.
Record t : Set := mk { m_data : nat; m_end : nat }.

(** Modelled from the spec: skip the items of other types, up to the end
  of the range.  The fuel bounds the distance to the end. *)
Fixpoint advance_to_next_item_of_right_type (fuel : nat)
    (T : item_type.t) (items : list Item.t) (data end_ : nat) : nat :=
  match fuel with
  | O => data
  | S fuel' =>
      if (data =? end_)%nat then data
      else
        match items !! data with
        | Some item =>
            if item_type.eqb (Item.type item) T then data
            else advance_to_next_item_of_right_type fuel' T items
                   (S data) end_
        | None => data
        end
  end.

(** Modelled from the spec: the constructor positions the iterator at the
  first item of the type at or after [data]. *)
Definition make (T : item_type.t) (items : list Item.t) (data end_ : nat)
  : t :=
  mk (advance_to_next_item_of_right_type (end_ - data) T items data end_)
     end_.

(** Modelled from the spec: [operator++], to the next item of the type. *)
Definition next (T : item_type.t) (items : list Item.t) (it : t) : t :=
  make T items (S (m_data it)) (m_end it).

(** Modelled from the spec: [cast<T>()], an iterator over another type
  from the same position. *)
Definition cast (T : item_type.t) (items : list Item.t) (it : t) : t :=
  make T items (m_data it) (m_end it).

(** Modelled from the spec: the items an iteration visits from [it] until
  the position [stop] is reached (or the end of the range). *)
Fixpoint visit (fuel : nat) (T : item_type.t) (items : list Item.t)
    (it : t) (stop : nat) : list Item.t :=
  match fuel with
  | O => []
  | S fuel' =>
      if (m_data it =? stop)%nat || (m_data it =? m_end it)%nat then []
      else
        match items !! m_data it with
        | Some item => item :: visit fuel' T items (next T items it) stop
        | None => []
        end
  end.

(** Modelled from the spec: the items of [ItemIteratorRange<T>{first,
  last}], from [begin()] to [end()]. *)
Definition range (T : item_type.t) (items : list Item.t)
    (first last : nat) : list Item.t :=
  visit (S (last - first)) T items (make T items first last) last.
End ItemIterator.

(** Return an iterator range for all outer rings: [subitems<OuterRing>()]
  ranges over all children of the area. *)
Definition Area_outer_rings (children : list Item.t) : list Item.t :=
  ItemIterator.range item_type.outer_ring children 0 (length children).

(** Return an iterator range for all inner rings in the given outer ring,
  which is the child at position [outer]. *)
Definition Area_inner_rings (children : list Item.t) (outer : nat)
  : list Item.t :=
  let next_ := length children in
  let outer_range_cbegin :=
    ItemIterator.make item_type.outer_ring children outer next_ in
  ItemIterator.range item_type.inner_ring children
    (ItemIterator.m_data outer_range_cbegin)
    (ItemIterator.m_data
       (ItemIterator.next item_type.outer_ring children
                          outer_range_cbegin)).

(** The deprecated [inner_ring_cbegin(it)] and [inner_ring_cend(it)] for an
  iterator [it] over the outer rings. *)
Definition Area_inner_ring_cbegin (children : list Item.t)
    (it : ItemIterator.t) : ItemIterator.t :=
  ItemIterator.cast item_type.inner_ring children it.

Definition Area_inner_ring_cend (children : list Item.t)
    (it : ItemIterator.t) : ItemIterator.t :=
  ItemIterator.cast item_type.inner_ring children
    (ItemIterator.next item_type.outer_ring children it).

(** The inner rings a loop from [inner_ring_cbegin(it)] to
  [inner_ring_cend(it)] visits. *)
Definition Area_inner_rings_deprecated (children : list Item.t)
    (it : ItemIterator.t) : list Item.t :=
  ItemIterator.visit (S (length children)) item_type.inner_ring children
    (Area_inner_ring_cbegin children it)
    (ItemIterator.m_data (Area_inner_ring_cend children it)).

(** The children of one type, in order. *)
Definition items_of_type (T : item_type.t) (items : list Item.t)
  : list Item.t :=
  List.filter (fun item => item_type.eqb (Item.type item) T) items.

(** ** Accounting of a run of the manager *)

Section ManagerAccounting.

Context (TA : TAssembler) (m_assembler_config : config_type TA).

(** What [m_stats += assembler.stats()] adds for an invocation: the
  statistics of an invocation that returned; an invocation that raised
  leaves before the statistics are read. *)
Definition stats_of (call : assembler_call) : area_stats.t :=
  match call_result TA m_assembler_config call with
  | inl _ => area_stats.zero
  | inr out => out_stats out
  end.

Definition stats_total (calls : list assembler_call) : area_stats.t :=
  foldr (fun call total => area_stats.add (stats_of call) total)
        area_stats.zero calls.

(** A member function accounts for what it does: the aggregated statistics
  grow by the statistics of the assembler invocations it made that
  returned; an exception it ends with is the contract violation of the
  registry, an [invalid_location], one of the exceptions [extra] that
  the function raises itself, or the exception raised by one of its
  assembler invocations; it leaves the callback of the output buffer
  installed or not as it was; and without a callback it hands off
  nothing. *)
Record disciplined {A : Type} (extra : exception -> Prop) (c : M A)
  : Prop := mk_disciplined {
  stats_accounted :
    forall m,
      stats (final (c m))
      = area_stats.add (stats m) (stats_total (trace (c m)));
  exception_origin :
    forall m e,
      outcome (c m) = inl e ->
      e = stash_corruption
      \/ is_invalid_location e = true
      \/ extra e
      \/ exists call,
           call ∈ trace (c m)
           /\ call_result TA m_assembler_config call = inl e;
  callback_kept :
    forall m,
      CallbackBuffer.m_has_callback (m_output (final (c m)))
      = CallbackBuffer.m_has_callback (m_output m);
  pull_mode_kept :
    forall m,
      CallbackBuffer.m_has_callback (m_output m) = false ->
      CallbackBuffer.handed_off (m_output (final (c m)))
      = CallbackBuffer.handed_off (m_output m)
}.

(** The exception of the order check. *)
Definition way_ids_out_of_order (e : exception) : Prop :=
  e = out_of_order_error "Way IDs out of order.".

(** A member function never ends with an [invalid_location] in flight. *)
Definition contains_invalid_location {A : Type} (c : M A) : Prop :=
  forall m e, outcome (c m) = inl e -> is_invalid_location e = false.

(** The registry part of the manager: stash, relations database and
  members database. *)
Definition same_registry (m m' : Manager) : Prop :=
  m_stash m' = m_stash m
  /\ m_relations_db m' = m_relations_db m
  /\ m_members_db m' = m_members_db m.

End ManagerAccounting.

(** ** osmium/io/detail/write_thread.hpp *)

(** This code runs in its own thread, getting data from the given queue,
  (optionally) compressing it, and writing it to the output file. *)
Module WriteThread.

Section WriteThread.

(** The collaborators of the thread are parameters: the queue wrapper
  with [pop] and [drain], the predicate [at_end_of_data], the compressor
  with [write] and [close], and the exceptions they raise.  A call that
  raises still leaves its object in some state. *)
Context {Queue Compressor Exn : Type}.
Context (pop : Queue -> (Exn + string) * Queue).
Context (drain : Queue -> Queue).
Context (at_end_of_data : string -> bool).
Context (write : Compressor -> string -> option Exn * Compressor).
Context (close : Compressor -> option Exn * Compressor).

(** The shared state of a [std::promise<bool>]. *)
Inductive promise : Type :=
| promise_unsatisfied
| promise_value (b : bool)
| promise_exception (e : Exn).

Record t : Type := mk {
  m_queue : Queue;
  m_compressor : Compressor;
  m_promise : promise
}.

(** The loop [while (true)] of [operator()]: pop a block, leave the loop
  at the end of the data, write the block otherwise.  It ends by the
  [break] or with an exception in flight; [None] when it has not ended
  within [fuel] rounds. *)
Fixpoint write_loop (fuel : nat) (queue : Queue) (compressor : Compressor)
  : option (option Exn * Queue * Compressor) :=
  match fuel with
  | O => None
  | S fuel' =>
      let '(data, queue') := pop queue in
      match data with
      | inl e => Some (Some e, queue', compressor)
      | inr data =>
          if at_end_of_data data then Some (None, queue', compressor)
          else
            let '(raised, compressor') := write compressor data in
            match raised with
            | Some e => Some (Some e, queue', compressor')
            | None => write_loop fuel' queue' compressor'
            end
      end
  end.

(** The handler [catch (...)]: the exception goes into the promise and the
  queue is drained. *)
Definition catch_all (e : Exn) (queue : Queue) (compressor : Compressor)
  : t :=
  mk (drain queue) compressor (promise_exception e).

(** [operator()], started with the promise unsatisfied: the loop, then
  [m_compressor->close()] and [m_promise.set_value(true)], all in the
  try block. *)
Definition operator_call (fuel : nat) (queue : Queue)
    (compressor : Compressor) : option t :=
  match write_loop fuel queue compressor with
  | None => None
  | Some (Some e, queue', compressor') =>
      Some (catch_all e queue' compressor')
  | Some (None, queue', compressor') =>
      let '(raised, closed) := close compressor' in
      match raised with
      | Some e => Some (catch_all e queue' closed)
      | None => Some (mk queue' closed (promise_value true))
      end
  end.

(** The queue hands out the blocks [blocks], none of them the end of the
  data, one per [pop], and is left as the result. *)
Fixpoint delivers (queue : Queue) (blocks : list string) : option Queue :=
  match blocks with
  | [] => Some queue
  | block :: rest =>
      match pop queue with
      | (inr data, queue') =>
          if String.eqb data block && negb (at_end_of_data data)
          then delivers queue' rest
          else None
      | (inl _, _) => None
      end
  end.

(** [write] on block after block, up to the first one that raises. *)
Fixpoint write_all (compressor : Compressor) (blocks : list string)
  : option Exn * Compressor :=
  match blocks with
  | [] => (None, compressor)
  | block :: rest =>
      match write compressor block with
      | (None, compressor') => write_all compressor' rest
      | (Some e, compressor') => (Some e, compressor')
      end
  end.

End WriteThread.

(** A queue of futures, each holding a block or an exception, whose [pop]
  yields the end of the data once it is empty; a compressor that logs
  what it is given and refuses blocks longer than 8 bytes. *)
Module Examples.

Definition pop (queue : list (string + string))
  : (string + string) * list (string + string) :=
  match queue with
  | [] => (inr EmptyString, [])
  | data :: rest => (data, rest)
  end.

Definition drain (queue : list (string + string))
  : list (string + string) := [].

Definition at_end_of_data (data : string) : bool :=
  String.eqb data EmptyString.

Definition write (log : list string) (data : string)
  : option string * list string :=
  if (String.length data <=? 8)%nat then (None, log ++ [data])
  else (Some "write failed", log).

Definition close (log : list string) : option string * list string :=
  (None, log ++ ["<close>"]).

Definition run (fuel : nat) (queue : list (string + string))
  : option (@t (list (string + string)) (list string) string) :=
  operator_call pop drain at_end_of_data write close fuel queue [].

End Examples.

End WriteThread.
(** * Properties *)

(** ** Area ids *)

Lemma wrap64_small (z : Z) :
  int64_min <= z <= int64_max -> wrap64 z = z.
Proof.
  unfold wrap64, int64_min, int64_max. intros Hz.
  rewrite Z.mod_small; lia.
Qed.

Lemma abs64_in_range (id : object_id_type) :
  id_in_range id -> abs64 id = Z.abs id.
Proof.
  unfold id_in_range, abs64. intros Hr.
  apply wrap64_small. unfold int64_min, int64_max. lia.
Qed.

(** In range, the wrap-around never fires: the area id is the doubled
  absolute value, plus one for a relation, negated for a negative [id]. *)
Lemma object_id_to_area_id_closed_form (id : object_id_type)
    (t : item_type.t) :
  id_in_range id ->
  object_id_to_area_id id t =
  signed_like id
    (Z.abs id * 2 + (if item_type.eqb t item_type.relation then 1 else 0)).
Proof.
  intros Hr. unfold object_id_to_area_id, signed_like.
  rewrite (abs64_in_range id Hr).
  unfold id_in_range in Hr.
  assert (Hw : wrap64 (Z.abs id * 2) = Z.abs id * 2)
    by (apply wrap64_small; unfold int64_min, int64_max; lia).
  rewrite Hw.
  assert (Hw1 : wrap64 (Z.abs id * 2 + 1) = Z.abs id * 2 + 1)
    by (apply wrap64_small; unfold int64_min, int64_max; lia).
  rewrite Hw1.
  destruct (item_type.eqb t item_type.relation);
    destruct (Z.ltb_spec id 0); try lia;
    rewrite wrap64_small by (unfold int64_min, int64_max; lia); lia.
Qed.

Lemma quot2_signed (id a b : Z) :
  0 <= a -> 0 <= b < 2 ->
  Z.quot (signed_like id (a * 2 + b)) 2 = signed_like id a.
Proof.
  intros Ha Hb. unfold signed_like. destruct (id <? 0).
  - rewrite Z.quot_opp_l by lia. rewrite Z.quot_div_nonneg by lia.
    f_equal. symmetry. apply (Z.div_unique _ _ _ b); lia.
  - rewrite Z.quot_div_nonneg by lia.
    symmetry. apply (Z.div_unique _ _ _ b); lia.
Qed.

(** C3.  For every object id in the range where the area id fits the id
  type, and for the types way and relation, [object_id_to_area_id]
  computes (|id| * 2 + (1 for a relation, 0 for a way)) with the sign of
  [id], and [area_id_to_object_id], which divides by two truncating
  toward zero, gives back [id]. *)
Theorem area_id_roundtrip (id : object_id_type) (t : item_type.t) :
  id_in_range id ->
  t = item_type.way \/ t = item_type.relation ->
  object_id_to_area_id id t =
    signed_like id (Z.abs id * 2 + (if item_type.eqb t item_type.relation
                                    then 1 else 0))
  /\ area_id_to_object_id (object_id_to_area_id id t) = id.
Proof.
  intros Hr _. split; [by apply object_id_to_area_id_closed_form|].
  rewrite object_id_to_area_id_closed_form by done.
  unfold area_id_to_object_id.
  set (b := if item_type.eqb t item_type.relation then 1 else 0).
  assert (Hb : 0 <= b < 2) by (subst b; case_match; lia).
  rewrite quot2_signed by lia.
  unfold signed_like. destruct (Z.ltb_spec id 0); lia.
Qed.

Lemma area_id_roundtrip_witness :
  object_id_to_area_id (-7) item_type.relation = -15
  /\ area_id_to_object_id (object_id_to_area_id (-7) item_type.relation)
     = -7.
Proof.
  apply (area_id_roundtrip (-7) item_type.relation).
  - unfold id_in_range. lia.
  - right. reflexivity.
Defined.

Lemma positive_id_of_area_id (a : Area.t) (id : object_id_type)
    (t : item_type.t) :
  id_in_range id ->
  Area.id a = object_id_to_area_id id t ->
  Area.positive_id a =
  Z.abs id * 2 + (if item_type.eqb t item_type.relation then 1 else 0).
Proof.
  intros Hr Ha. unfold Area.positive_id. rewrite Ha.
  rewrite object_id_to_area_id_closed_form by done.
  set (b := if item_type.eqb t item_type.relation then 1 else 0).
  assert (Hb : 0 <= b < 2) by (subst b; case_match; lia).
  unfold id_in_range in Hr.
  assert (Habs : Z.abs (signed_like id (Z.abs id * 2 + b))
                 = Z.abs id * 2 + b)
    by (unfold signed_like; destruct (id <? 0); lia).
  unfold abs64, to_uint64. rewrite Habs.
  rewrite wrap64_small by (unfold int64_min, int64_max; lia).
  apply Z.mod_small. lia.
Qed.

Lemma land_1_mod (p : Z) : Z.land p 1 = p mod 2.
Proof. change 1 with (Z.ones 1) at 1. by rewrite Z.land_ones. Qed.

(** C8.  For every object id in range, an Area whose id is the area id of a
  way is [from_way], and an Area whose id is the area id of a relation is
  not; [from_way] tests the least significant bit of the absolute area
  id. *)
Theorem from_way_of_area_id (id : object_id_type) (a : Area.t) :
  id_in_range id ->
  (Area.id a = object_id_to_area_id id item_type.way ->
   Area.from_way a = true)
  /\ (Area.id a = object_id_to_area_id id item_type.relation ->
      Area.from_way a = false)
  /\ Area.from_way a = negb (Z.testbit (to_uint64 (abs64 (Area.id a))) 0).
Proof.
  intros Hr. unfold Area.from_way. split; [|split].
  - intros Ha. rewrite (positive_id_of_area_id a id item_type.way) by done.
    rewrite land_1_mod. apply Z.eqb_eq.
    change (if item_type.eqb item_type.way item_type.relation
            then 1 else 0) with 0.
    rewrite Z.add_0_r. apply Z.mod_mul. lia.
  - intros Ha.
    rewrite (positive_id_of_area_id a id item_type.relation) by done.
    rewrite land_1_mod. apply Z.eqb_neq.
    change (if item_type.eqb item_type.relation item_type.relation
            then 1 else 0) with 1.
    rewrite Z.add_comm, Z.mod_add by lia. done.
  - unfold Area.positive_id.
    generalize (to_uint64 (abs64 (Area.id a))). intros p.
    rewrite land_1_mod, Z.bit0_odd, Zodd_mod.
    destruct (Z.eqb_spec (p mod 2) 0) as [->|Hp]; [done|].
    assert (p mod 2 = 1) as -> by (pose proof (Z.mod_pos_bound p 2); lia).
    done.
Qed.

Lemma from_way_of_area_id_witness :
  Area.from_way (Area.mk (object_id_to_area_id 42 item_type.way) [] [])
  = true
  /\ Area.from_way (Area.mk (object_id_to_area_id 42 item_type.relation)
                            [] []) = false.
Proof.
  assert (Hr : id_in_range 42) by (unfold id_in_range; lia).
  split.
  - apply (proj1 (from_way_of_area_id 42
                    (Area.mk (object_id_to_area_id 42 item_type.way) [] [])
                    Hr)).
    reflexivity.
  - apply (proj1 (proj2 (from_way_of_area_id 42
                    (Area.mk (object_id_to_area_id 42 item_type.relation)
                             [] [])
                    Hr))).
    reflexivity.
Defined.

(** ** Tag lists *)

(** A tag list that is tagged [k=v] contains the tag [k=v]; with keys that
  are unique, as they conventionally are, the converse holds as well. *)
Lemma has_tag_elem_of (tags : TagList) (k v : string) :
  TagList_.has_tag tags k v = true -> mkTag k v ∈ tags.
Proof.
  unfold TagList_.has_tag. induction tags as [|[k' v'] rest IH]; [done|].
  simpl. destruct (String.eqb_spec k' k) as [->|Hne].
  - intros Hv. apply String.eqb_eq in Hv as ->. apply list_elem_of_here.
  - intros H. apply list_elem_of_further. by apply IH.
Qed.

Lemma has_tag_unique_keys (tags : TagList) (k v : string) :
  NoDup (map key tags) -> mkTag k v ∈ tags ->
  TagList_.has_tag tags k v = true.
Proof.
  unfold TagList_.has_tag. induction tags as [|[k' v'] rest IH]; intros Hnd Hin.
  { by apply elem_of_nil in Hin. }
  simpl in *. apply NoDup_cons in Hnd as [Hk' Hnd].
  apply elem_of_cons in Hin as [[= <- <-]|Hin].
  - rewrite String.eqb_refl. apply String.eqb_refl.
  - destruct (String.eqb_spec k' k) as [->|Hne]; [|by apply IH].
    exfalso. apply Hk'. apply list_elem_of_In, in_map_iff.
    exists (mkTag k v). split; [done | by apply list_elem_of_In].
Qed.

(** ** Tag matchers *)

Lemma match_tags_existsb (m : TagMatcher.t) (tags : TagList) :
  TagMatcher.match_tags m tags = existsb (TagMatcher.match_tag m) tags.
Proof.
  induction tags as [|tag rest IH]; simpl; [done|].
  by destruct (TagMatcher.match_tag m tag).
Qed.

Lemma match_tags_true (m : TagMatcher.t) (tags : TagList) :
  TagMatcher.match_tags m tags = true <->
  exists tag, tag ∈ tags /\ TagMatcher.match_tag m tag = true.
Proof.
  rewrite match_tags_existsb, existsb_exists.
  split; intros (tag & Hin & Hm); exists tag; split; try done;
    by apply list_elem_of_In.
Qed.

(** C9.  A keyed TagMatcher built from (key_matcher, value_matcher, invert)
  accepts a tag (key, value) exactly when key_matcher(key) holds and
  value_matcher(value) XOR invert holds; applied to a tag list it returns
  true exactly when some tag of the list is accepted. *)
Theorem keyed_matcher_accepts (key_matcher value_matcher : StringMatcher.t)
    (invert : bool) :
  let m := TagMatcher.of_key_value key_matcher value_matcher invert in
  (forall k v : string,
     TagMatcher.match_key_value m k v =
     StringMatcher.call key_matcher k
     && xorb (StringMatcher.call value_matcher v) invert)
  /\ (forall tag : Tag,
        TagMatcher.match_tag m tag = true <->
        StringMatcher.call key_matcher (key tag) = true
        /\ xorb (StringMatcher.call value_matcher (value tag)) invert = true)
  /\ (forall tags : TagList,
        TagMatcher.match_tags m tags = true <->
        exists tag, tag ∈ tags /\ TagMatcher.match_tag m tag = true).
Proof.
  intros m.
  assert (Hkv : forall k v : string,
     TagMatcher.match_key_value m k v =
     StringMatcher.call key_matcher k
     && xorb (StringMatcher.call value_matcher v) invert).
  { intros k v. unfold TagMatcher.match_key_value. subst m. simpl.
    f_equal. by destruct (StringMatcher.call value_matcher v), invert. }
  split; [exact Hkv|]. split.
  - intros tag. unfold TagMatcher.match_tag. rewrite Hkv.
    apply andb_true_iff.
  - intros tags. apply match_tags_true.
Qed.

(** C10.  A default-constructed TagMatcher has both its key matcher and its
  value matcher initialized to always_false and matches no tag at all:
  it returns false for every key and value, and for every tag list. *)
Theorem default_matcher_matches_nothing :
  TagMatcher.m_key_matcher TagMatcher.default = StringMatcher.always_false
  /\ TagMatcher.m_value_matcher TagMatcher.default
     = StringMatcher.always_false
  /\ (forall k v : string,
        TagMatcher.match_key_value TagMatcher.default k v = false)
  /\ (forall tag : Tag, TagMatcher.match_tag TagMatcher.default tag = false)
  /\ (forall tags : TagList,
        TagMatcher.match_tags TagMatcher.default tags = false).
Proof.
  split; [done|]. split; [done|]. split; [done|]. split; [done|].
  intros tags. rewrite match_tags_existsb.
  induction tags as [|tag rest IH]; [done|]. simpl. exact IH.
Qed.

(** ** The manager *)

Section ManagerProperties.

Context (TA : TAssembler) (m_assembler_config : config_type TA).
Context (m_filter : TagsFilter) (item_size : Area.t -> nat).

#[local] Abbreviation assemble_way_ :=
  (assemble_way TA m_assembler_config m_filter item_size).
#[local] Abbreviation complete_relation_ :=
  (complete_relation TA m_assembler_config item_size).
#[local] Abbreviation on_complete_ :=
  (on_complete TA m_assembler_config item_size).
#[local] Abbreviation member_way_ :=
  (member_way TA m_assembler_config m_filter item_size).
#[local] Abbreviation emits_in_order_ :=
  (emits_in_order TA m_assembler_config).
#[local] Abbreviation lets_through_ :=
  (lets_through TA m_assembler_config).
#[local] Abbreviation emitted_ := (emitted TA m_assembler_config).
#[local] Abbreviation orderly := (orderly TA m_assembler_config).

Lemma existsb_elem_of {X : Type} (f : X -> bool) (l : list X) :
  existsb f l = true <-> exists x, x ∈ l /\ f x = true.
Proof.
  rewrite existsb_exists.
  split; intros (x & Hin & Hf); exists x; split; try done;
    by apply list_elem_of_In.
Qed.

Lemma bind_inl {A B : Type} (c : M A) (k : A -> M B) (m : Manager)
    (e : exception) :
  outcome (c m) = inl e ->
  bind c k m = mk_result (inl e) (final (c m)) (trace (c m)).
Proof. unfold bind. by intros ->. Qed.

Lemma bind_inr {A B : Type} (c : M A) (k : A -> M B) (m : Manager) (a : A) :
  outcome (c m) = inr a ->
  bind c k m =
  mk_result (outcome (k a (final (c m)))) (final (k a (final (c m))))
            (trace (c m) ++ trace (k a (final (c m)))).
Proof. unfold bind. by intros ->. Qed.

Lemma bind_silent {A B : Type} (c : M A) (k : A -> M B) (m : Manager)
    (a : A) (m1 : Manager) :
  c m = mk_result (inr a) m1 [] -> bind c k m = k a m1.
Proof. unfold bind. intros ->. simpl. by destruct (k a m1). Qed.

Lemma bind_result {A B : Type} (c : M A) (k : A -> M B) (m : Manager)
    (a : A) (m1 : Manager) (t1 : list assembler_call) :
  c m = mk_result (inr a) m1 t1 ->
  bind c k m =
  mk_result (outcome (k a m1)) (final (k a m1)) (t1 ++ trace (k a m1)).
Proof. unfold bind. by intros ->. Qed.

(** *** Pass 1: the keep decision *)

(** C1, as amended.  [keep_relation] returns true exactly when the value the
  tag list yields for the key type is multipolygon or boundary, some tag
  of the relation (the type tag included) satisfies the filter, and the
  relation has at least one member of type way. *)
Theorem keep_relation_iff (r : Relation.t) :
  keep_relation m_filter r = true <->
  (exists type : string,
     TagList_.get_value_by_key (Relation.tags r) "type" = Some type
     /\ (type = "multipolygon" \/ type = "boundary"))
  /\ (exists tag, tag ∈ Relation.tags r /\ m_filter tag = true)
  /\ (exists member, member ∈ Relation.members r
                     /\ RelationMember.type member = item_type.way).
Proof.
  unfold keep_relation, tags.match_any_of.
  destruct (TagList_.get_value_by_key (Relation.tags r) "type")
    as [type|] eqn:Htype.
  - rewrite <- (existsb_elem_of m_filter).
    assert (Hways :
      existsb (fun member =>
                 item_type.eqb (RelationMember.type member) item_type.way)
              (Relation.members r) = true <->
      exists member, member ∈ Relation.members r
                     /\ RelationMember.type member = item_type.way).
    { rewrite existsb_elem_of. unfold item_type.eqb.
      split; intros (x & Hin & Hx); exists x; split; try done.
      - by apply bool_decide_eq_true in Hx.
      - by apply bool_decide_eq_true. }
    rewrite <- Hways.
    destruct (String.eqb_spec type "multipolygon") as [Hm|Hm];
      destruct (String.eqb_spec type "boundary") as [Hb|Hb];
      destruct (existsb m_filter (Relation.tags r)); simpl;
      try (split; [intros Hk; repeat split; eauto | intros (_ & _ & Hk); done]);
      split; try done.
    all: try (intros ((t & Ht & [Hc | Hc]) & _ & _); congruence).
    all: try (intros (_ & Hc & _); done).
  - split; [done|]. intros ((t & Ht & _) & _). done.
Qed.


(** *** Pass 2: the closed-way path *)

(** The assembler call of the closed-way path with what follows it inside
  the try block. *)
Lemma assemble_way_qualified (way : Way.t) (m : Manager) :
  way_qualifies m_filter way = true ->
  assemble_way_ way m =
  match assemble_closed_way TA m_assembler_config way with
  | inl (invalid_location _) => mk_result (inr tt) m [call_way way]
  | inl e => mk_result (inl e) m [call_way way]
  | inr out =>
      mk_result (inr tt)
        (final ((stats_add (out_stats out) ;;
                 output_possibly_flush item_size)
                  (set_output m (CallbackBuffer.append (m_output m)
                                                       (out_areas out)))))
        [call_way way]
  end.
Proof.
  unfold way_qualifies, assemble_way. intros Hq.
  repeat (apply andb_true_iff in Hq as [Hq ?]).
  destruct (Nat.leb_spec (length (Way.nodes way)) 3) as [Hle|_].
  { apply Nat.leb_le in Hq. lia. }
  unfold Way.ends_have_same_location, tags.match_none_of.
  unfold try_catch_invalid_location, bind, throw, ret, run_assembler.
  repeat match goal with
         | H : ?b = true |- context [?b] => rewrite H
         | H : negb ?b = true |- context [?b] =>
             apply negb_true_iff in H; rewrite H
         end.
  simpl.
  destruct (assemble_closed_way TA m_assembler_config way) as [[| | |]|out];
    reflexivity.
Qed.

Lemma assemble_way_not_qualified (way : Way.t) (m : Manager) :
  way_qualifies m_filter way = false ->
  assemble_way_ way m = mk_result (inr tt) m [].
Proof.
  unfold way_qualifies, assemble_way. intros Hq.
  destruct (Nat.leb_spec (length (Way.nodes way)) 3) as [Hle|Hgt];
    [done|].
  assert (H4 : (4 <=? length (Way.nodes way))%nat = true)
    by (apply Nat.leb_le; lia).
  rewrite H4 in Hq. simpl in Hq.
  unfold Way.ends_have_same_location, tags.match_none_of.
  unfold try_catch_invalid_location, bind, throw, ret.
  destruct (Location_.valid (NodeRef.location (Way.front way)));
    [|reflexivity].
  destruct (Location_.valid (NodeRef.location (Way.back way)));
    [|reflexivity].
  simpl in *.
  destruct (Location_.eqb _ _); [|reflexivity].
  destruct (TagList_.has_tag (Way.tags way) "area" "no"); [reflexivity|].
  simpl in *. rewrite Hq. reflexivity.
Qed.

Lemma way_qualifies_true (way : Way.t) :
  way_qualifies m_filter way = true <->
  (4 <= length (Way.nodes way))%nat
  /\ Location_.valid (NodeRef.location (Way.front way)) = true
  /\ Location_.valid (NodeRef.location (Way.back way)) = true
  /\ NodeRef.location (Way.front way) = NodeRef.location (Way.back way)
  /\ TagList_.has_tag (Way.tags way) "area" "no" = false
  /\ exists tag, tag ∈ Way.tags way /\ m_filter tag = true.
Proof.
  unfold way_qualifies, Location_.eqb.
  rewrite !andb_true_iff, Nat.leb_le, negb_true_iff, bool_decide_eq_true,
    existsb_elem_of.
  tauto.
Qed.

Lemma assemble_way_trace (way : Way.t) (m : Manager) :
  trace (assemble_way_ way m) =
  if way_qualifies m_filter way then [call_way way] else [].
Proof.
  destruct (way_qualifies m_filter way) eqn:Hq.
  - rewrite assemble_way_qualified by done.
    by destruct (assemble_closed_way TA m_assembler_config way)
      as [[| | |]|out].
  - by rewrite assemble_way_not_qualified.
Qed.

Lemma possibly_flush_stream (cb : CallbackBuffer.t) :
  CallbackBuffer.output_stream (CallbackBuffer.possibly_flush item_size cb)
  = CallbackBuffer.output_stream cb.
Proof.
  unfold CallbackBuffer.possibly_flush, CallbackBuffer.flush,
    CallbackBuffer.output_stream.
  destruct (_ <=? _)%nat; [|done].
  destruct (CallbackBuffer.m_has_callback cb); [|done]. simpl.
  by rewrite concat_app, app_nil_r; simpl; rewrite app_nil_r.
Qed.

(** C2, as amended.  [assemble_way] invokes the single-way assembler, once,
  exactly when the way has at least 4 node refs, the front and back
  locations are both present and equal, the value the tag list yields
  for the key area is not no, and at least one tag satisfies the filter;
  otherwise it does nothing.  When the assembler returns, the Areas it
  committed are appended to the output, its statistics are added and
  the output is possibly flushed, nothing else changes; when it raises
  [invalid_location] nothing is emitted and the manager is as before;
  any other exception leaves the call.  A way for which the tag list
  yields area=no never reaches the assembler: the call returns with the
  manager, and so the output, unchanged. *)
Theorem assemble_way_invokes_assembler_iff (way : Way.t) (m : Manager) :
  (call_way way ∈ trace (assemble_way_ way m) <->
   (4 <= length (Way.nodes way))%nat
   /\ Location_.valid (NodeRef.location (Way.front way)) = true
   /\ Location_.valid (NodeRef.location (Way.back way)) = true
   /\ NodeRef.location (Way.front way) = NodeRef.location (Way.back way)
   /\ TagList_.has_tag (Way.tags way) "area" "no" = false
   /\ exists tag, tag ∈ Way.tags way /\ m_filter tag = true)
  /\ assemble_way_ way m =
     (if way_qualifies m_filter way then
        match assemble_closed_way TA m_assembler_config way with
        | inr out =>
            mk_result (inr tt)
              (mk_Manager (m_stash m) (m_relations_db m) (m_members_db m)
                 (CallbackBuffer.possibly_flush item_size
                    (CallbackBuffer.append (m_output m) (out_areas out)))
                 (area_stats.add (m_stats m) (out_stats out)))
              [call_way way]
        | inl e =>
            mk_result (if is_invalid_location e then inr tt else inl e)
                      m [call_way way]
        end
      else mk_result (inr tt) m [])
  /\ (forall out : assembler_output,
        way_qualifies m_filter way = true ->
        assemble_closed_way TA m_assembler_config way = inr out ->
        output_stream (final (assemble_way_ way m))
        = output_stream m ++ out_areas out)
  /\ (TagList_.has_tag (Way.tags way) "area" "no" = true ->
      assemble_way_ way m = mk_result (inr tt) m []).
Proof.
  pose proof (assemble_way_trace way m) as Htrace.
  assert (Hrun : assemble_way_ way m =
     (if way_qualifies m_filter way then
        match assemble_closed_way TA m_assembler_config way with
        | inr out =>
            mk_result (inr tt)
              (mk_Manager (m_stash m) (m_relations_db m) (m_members_db m)
                 (CallbackBuffer.possibly_flush item_size
                    (CallbackBuffer.append (m_output m) (out_areas out)))
                 (area_stats.add (m_stats m) (out_stats out)))
              [call_way way]
        | inl e =>
            mk_result (if is_invalid_location e then inr tt else inl e)
                      m [call_way way]
        end
      else mk_result (inr tt) m [])).
  { destruct (way_qualifies m_filter way) eqn:Hq.
    - rewrite assemble_way_qualified by done.
      by destruct (assemble_closed_way TA m_assembler_config way)
        as [[| | |]|out].
    - by apply assemble_way_not_qualified. }
  split; [|split; [exact Hrun|split]].
  - rewrite Htrace, <- way_qualifies_true.
    destruct (way_qualifies m_filter way).
    + split; [done|]. intros _. apply list_elem_of_singleton. done.
    + split; [|done]. intros H. by apply elem_of_nil in H.
  - intros out Hq Hout. rewrite Hrun, Hq, Hout.
    unfold output_stream. cbn [final m_output].
    rewrite possibly_flush_stream.
    unfold CallbackBuffer.output_stream, CallbackBuffer.append.
    cbn [CallbackBuffer.handed_off CallbackBuffer.m_buffer].
    by rewrite app_assoc.
  - intros Hno. apply assemble_way_not_qualified.
    unfold way_qualifies. rewrite Hno. simpl.
    by rewrite !andb_false_r.
Qed.

(** *** Output order and exceptions, by the structure of the code *)

Lemma emitted_app (t1 t2 : list assembler_call) :
  emitted_ (t1 ++ t2) = emitted_ t1 ++ emitted_ t2.
Proof. unfold emitted. by rewrite map_app, concat_app. Qed.

Lemma orderly_silent {A : Type} (c : M A) :
  (forall m, trace (c m) = []
             /\ output_stream (final (c m)) = output_stream m) ->
  orderly c.
Proof.
  intros H. split.
  - intros m. destruct (H m) as [-> ->]. unfold emitted. simpl.
    by rewrite app_nil_r.
  - intros m call e Hin. destruct (H m) as [Ht _]. rewrite Ht in Hin.
    by apply elem_of_nil in Hin.
Qed.

Lemma orderly_ret {A : Type} (a : A) : orderly (ret a).
Proof. by apply orderly_silent. Qed.

Lemma orderly_throw {A : Type} (e : exception) : orderly (@throw A e).
Proof. by apply orderly_silent. Qed.

Lemma orderly_get_manager : orderly get_manager.
Proof. by apply orderly_silent. Qed.

Lemma orderly_expect {A : Type} (o : option A) : orderly (expect o).
Proof. destruct o; [apply orderly_ret | apply orderly_throw]. Qed.

Lemma orderly_modify (f : Manager -> Manager) :
  (forall m, output_stream (f m) = output_stream m) -> orderly (modify f).
Proof. intros H. apply orderly_silent. intros m. split; [done | apply H]. Qed.

Lemma orderly_bind {A B : Type} (c : M A) (k : A -> M B) :
  orderly c -> (forall a, orderly (k a)) -> orderly (bind c k).
Proof.
  intros [Hec Hlc] Hk. split.
  - intros m. unfold bind. specialize (Hec m).
    destruct (outcome (c m)) as [e|a] eqn:Ho; simpl; [done|].
    destruct (Hk a) as [Hek _]. rewrite (Hek (final (c m))), Hec.
    by rewrite emitted_app, app_assoc.
  - intros m call e. unfold bind. specialize (Hlc m call e).
    destruct (outcome (c m)) as [e'|a] eqn:Ho; simpl.
    { intros Hin Hr. specialize (Hlc Hin Hr). congruence. }
    intros Hin Hr. apply elem_of_app in Hin as [Hin|Hin].
    + by specialize (Hlc Hin Hr).
    + destruct (Hk a) as [_ Hlk]. by apply (Hlk (final (c m)) call e).
Qed.

Lemma orderly_try_catch (body : M unit) :
  orderly body -> orderly (try_catch_invalid_location body).
Proof.
  intros [He Hl]. split.
  - intros m. unfold try_catch_invalid_location. specialize (He m).
    by destruct (outcome (body m)) as [[| | |]|[]].
  - intros m call e. unfold try_catch_invalid_location.
    specialize (Hl m call e).
    destruct (outcome (body m)) as [[w| |w|w]|[]] eqn:Ho; simpl;
      intros Hin Hr; specialize (Hl Hin Hr); try congruence.
    destruct Hr as [_ Hr]. injection Hl as <-. done.
Qed.

Lemma orderly_run_assembler (call : assembler_call) :
  orderly (run_assembler call (call_result TA m_assembler_config call)).
Proof.
  split.
  - intros m. unfold run_assembler, emitted, emitted_by.
    destruct (call_result TA m_assembler_config call) as [e|out] eqn:Hc;
      simpl; rewrite Hc; simpl.
    + by rewrite app_nil_r.
    + unfold output_stream, CallbackBuffer.output_stream. simpl.
      by rewrite app_nil_r, app_assoc.
  - intros m c e. unfold run_assembler.
    destruct (call_result TA m_assembler_config call) as [e'|out] eqn:Hc;
      simpl; intros Hin [Hr _].
    + apply list_elem_of_singleton in Hin as ->. congruence.
    + apply list_elem_of_singleton in Hin as ->. congruence.
Qed.

Lemma orderly_after_assembler (call : assembler_call) :
  orderly
    (try_catch_invalid_location
       (let* stats :=
          run_assembler call (call_result TA m_assembler_config call) in
        stats_add stats ;; output_possibly_flush item_size)).
Proof.
  apply orderly_try_catch, orderly_bind; [apply orderly_run_assembler|].
  intros stats. apply orderly_bind; [by apply orderly_modify|].
  intros _. apply orderly_modify. intros m. apply possibly_flush_stream.
Qed.

Lemma orderly_assemble_way (way : Way.t) : orderly (assemble_way_ way).
Proof.
  unfold assemble_way. destruct (_ <=? 3)%nat; [apply orderly_ret|].
  destruct (Way.ends_have_same_location way).
  2: { apply orderly_try_catch, orderly_bind.
       - destruct (_ || _); [apply orderly_throw | apply orderly_ret].
       - intros _. apply orderly_ret. }
  destruct (TagList_.has_tag (Way.tags way) "area" "no").
  { apply orderly_try_catch, orderly_bind.
    - destruct (_ || _); [apply orderly_throw | apply orderly_ret].
    - intros _. apply orderly_ret. }
  destruct (tags.match_none_of (Way.tags way) m_filter).
  { apply orderly_try_catch, orderly_bind.
    - destruct (_ || _); [apply orderly_throw | apply orderly_ret].
    - intros _. apply orderly_ret. }
  apply orderly_try_catch, orderly_bind.
  - destruct (_ || _); [apply orderly_throw | apply orderly_ret].
  - intros _. apply orderly_bind.
    + apply (orderly_run_assembler (call_way way)).
    + intros stats. apply orderly_bind; [by apply orderly_modify|].
      intros _. apply orderly_modify. intros m. apply possibly_flush_stream.
Qed.

Lemma orderly_deref (h : RelationsDatabase.RelationHandle) :
  orderly (deref h).
Proof.
  apply orderly_bind; [apply orderly_get_manager|].
  intros m. apply orderly_expect.
Qed.

Lemma orderly_gather_ways (members : list RelationMember.t) :
  orderly (gather_ways members).
Proof.
  induction members as [|member rest IH]; simpl; [apply orderly_ret|].
  destruct (negb _); [|exact IH].
  apply orderly_bind.
  - apply orderly_bind; [apply orderly_get_manager|].
    intros m. apply orderly_expect.
  - intros w. apply orderly_bind; [exact IH|]. intros ways. apply orderly_ret.
Qed.

Lemma orderly_complete_relation (r : Relation.t) :
  orderly (complete_relation_ r).
Proof.
  apply orderly_bind; [apply orderly_gather_ways|].
  intros ways. apply (orderly_after_assembler (call_relation r ways)).
Qed.

Lemma orderly_remove_members (r : Relation.t) : orderly (remove_members r).
Proof.
  unfold remove_members. generalize (Relation.id r). intros rid.
  induction (Relation.members r) as [|member rest IH]; simpl;
    [apply orderly_ret|].
  apply orderly_bind; [|intros _; exact IH].
  destruct (negb _); [|apply orderly_ret].
  by apply orderly_modify.
Qed.

Lemma orderly_rel_handle_remove (h : RelationsDatabase.RelationHandle) :
  orderly (rel_handle_remove h).
Proof.
  apply orderly_modify. intros m.
  by destruct (RelationsDatabase.remove _ _ _).
Qed.

Lemma orderly_on_complete (h : RelationsDatabase.RelationHandle) :
  orderly (on_complete_ h).
Proof.
  apply orderly_bind.
  { apply orderly_bind; [apply orderly_deref|].
    intros r. apply orderly_complete_relation. }
  intros _. apply orderly_bind.
  { apply orderly_bind; [apply orderly_deref|].
    intros r. apply orderly_remove_members. }
  intros _. apply orderly_rel_handle_remove.
Qed.

Lemma orderly_members_db_notify (range : list nat)
    (func : RelationsDatabase.RelationHandle -> M unit) :
  (forall h, orderly (func h)) -> orderly (members_db_notify range func).
Proof.
  intros Hf. induction range as [|i rest IH]; simpl; [apply orderly_ret|].
  apply orderly_bind; [apply orderly_get_manager|]. intros m.
  apply orderly_bind; [apply orderly_expect|]. intros elem.
  apply orderly_bind; [by apply orderly_modify|]. intros _.
  apply orderly_bind; [apply orderly_get_manager|]. intros m'.
  apply orderly_bind; [|intros _; exact IH].
  destruct (RelationsDatabase.has_all_members _ _);
    [apply Hf | apply orderly_ret].
Qed.

Lemma orderly_members_db_add (way : Way.t)
    (func : RelationsDatabase.RelationHandle -> M unit) :
  (forall h, orderly (func h)) -> orderly (members_db_add way func).
Proof.
  intros Hf. apply orderly_bind; [apply orderly_get_manager|]. intros m.
  destruct (MembersDatabase.find _ _) as [|i range]; [apply orderly_ret|].
  apply orderly_bind; [by apply orderly_modify|]. intros _.
  apply orderly_bind; [by apply orderly_members_db_notify|].
  intros _. apply orderly_ret.
Qed.

Lemma orderly_member_way (way : Way.t) : orderly (member_way_ way).
Proof.
  apply orderly_bind.
  - apply orderly_members_db_add, orderly_on_complete.
  - intros _. apply orderly_assemble_way.
Qed.

(** The assembler invocations of the relation path are relation
  invocations. *)
Lemma calls_silent {A : Type} (P : assembler_call -> Prop) (c : M A) :
  (forall m, trace (c m) = []) -> calls_satisfy P c.
Proof.
  intros H m call Hin. rewrite H in Hin. by apply elem_of_nil in Hin.
Qed.

Lemma calls_bind {A B : Type} (P : assembler_call -> Prop)
    (c : M A) (k : A -> M B) :
  calls_satisfy P c -> (forall a, calls_satisfy P (k a)) ->
  calls_satisfy P (bind c k).
Proof.
  intros Hc Hk m call. unfold bind. specialize (Hc m call).
  destruct (outcome (c m)) as [e|a]; simpl; [exact Hc|].
  intros Hin. apply elem_of_app in Hin as [Hin|Hin]; [by apply Hc|].
  by apply (Hk a (final (c m))).
Qed.

Lemma calls_expect {A : Type} (P : assembler_call -> Prop) (o : option A) :
  calls_satisfy P (expect o).
Proof. apply calls_silent. intros m. by destruct o. Qed.

Lemma calls_try_catch (P : assembler_call -> Prop) (body : M unit) :
  calls_satisfy P body -> calls_satisfy P (try_catch_invalid_location body).
Proof.
  intros Hb m call. unfold try_catch_invalid_location.
  specialize (Hb m call).
  by destruct (outcome (body m)) as [[| | |]|[]].
Qed.

Lemma calls_gather_ways (P : assembler_call -> Prop)
    (members : list RelationMember.t) :
  calls_satisfy P (gather_ways members).
Proof.
  induction members as [|member rest IH]; simpl; [by apply calls_silent|].
  destruct (negb _); [|exact IH].
  apply calls_bind.
  - apply calls_bind; [by apply calls_silent|]. intros m. apply calls_expect.
  - intros w. apply calls_bind; [exact IH|]. intros ways.
    by apply calls_silent.
Qed.

Lemma calls_remove_members (P : assembler_call -> Prop) (r : Relation.t) :
  calls_satisfy P (remove_members r).
Proof.
  unfold remove_members. generalize (Relation.id r). intros rid.
  induction (Relation.members r) as [|member rest IH]; simpl;
    [by apply calls_silent|].
  apply calls_bind; [|intros _; exact IH].
  by destruct (negb _); apply calls_silent.
Qed.

Lemma calls_complete_relation (r : Relation.t) :
  calls_satisfy is_relation_call (complete_relation_ r).
Proof.
  apply calls_bind; [apply calls_gather_ways|]. intros ways.
  apply calls_try_catch, calls_bind.
  - intros m call. unfold run_assembler.
    destruct (assemble_relation _ _ _ _); simpl; intros Hin;
      apply list_elem_of_singleton in Hin as ->; by exists r, ways.
  - intros stats. by apply calls_bind; [|intros _]; apply calls_silent.
Qed.

Lemma calls_on_complete (h : RelationsDatabase.RelationHandle) :
  calls_satisfy is_relation_call (on_complete_ h).
Proof.
  apply calls_bind.
  { apply calls_bind.
    - apply calls_bind; [by apply calls_silent|]. intros m.
      apply calls_expect.
    - intros r. apply calls_complete_relation. }
  intros _. apply calls_bind.
  { apply calls_bind.
    - apply calls_bind; [by apply calls_silent|]. intros m.
      apply calls_expect.
    - intros r. apply calls_remove_members. }
  intros _. by apply calls_silent.
Qed.

Lemma calls_members_db_add (P : assembler_call -> Prop) (way : Way.t)
    (func : RelationsDatabase.RelationHandle -> M unit) :
  (forall h, calls_satisfy P (func h)) ->
  calls_satisfy P (members_db_add way func).
Proof.
  intros Hf. apply calls_bind; [by apply calls_silent|]. intros m.
  destruct (MembersDatabase.find _ _) as [|i range];
    [by apply calls_silent|].
  apply calls_bind; [by apply calls_silent|]. intros _.
  apply calls_bind; [|intros _; by apply calls_silent].
  generalize (i :: range). intros l.
  induction l as [|j rest IH]; simpl; [by apply calls_silent|].
  apply calls_bind; [by apply calls_silent|]. intros m1.
  apply calls_bind; [apply calls_expect|]. intros elem.
  apply calls_bind; [by apply calls_silent|]. intros _.
  apply calls_bind; [by apply calls_silent|]. intros m2.
  apply calls_bind; [|intros _; exact IH].
  destruct (RelationsDatabase.has_all_members _ _);
    [apply Hf | by apply calls_silent].
Qed.

(** *** Pass 2: order of emission *)

(** C4, as amended.  In one [member_way] step the assembler invocations for
  the relations completed by the way come first and the invocation for
  the way itself, if any, comes last; the output stream grows by the
  areas of these invocations in this order, so the areas of the
  relations completed by a way precede the closed-way area of that
  way. *)
Theorem member_way_output_order (way : Way.t) (m : Manager) :
  exists rel_calls way_calls : list assembler_call,
    trace (member_way_ way m) = rel_calls ++ way_calls
    /\ (forall call, call ∈ rel_calls -> is_relation_call call)
    /\ (way_calls = []
        \/ way_calls = [call_way way] /\ way_qualifies m_filter way = true)
    /\ output_stream (final (member_way_ way m))
       = output_stream m ++ emitted_ rel_calls ++ emitted_ way_calls.
Proof.
  pose proof (orderly_member_way way) as [Hemit _]. specialize (Hemit m).
  pose proof (calls_members_db_add is_relation_call way on_complete_
                calls_on_complete m) as Hrel.
  revert Hemit. unfold member_way.
  remember (members_db_add way on_complete_) as add eqn:Hadd.
  destruct (outcome (add m)) as [e|b] eqn:Ho.
  - rewrite (bind_inl _ _ m e Ho). cbn [final trace]. intros Hemit.
    exists (trace (add m)), [].
    rewrite app_nil_r. split; [done|]. split; [exact Hrel|].
    split; [by left|]. rewrite Hemit.
    change (emitted_ []) with (@nil Area.t). by rewrite app_nil_r.
  - rewrite (bind_inr _ _ m b Ho). cbn [final trace]. intros Hemit.
    exists (trace (add m)), (trace (assemble_way_ way (final (add m)))).
    split; [done|]. split; [exact Hrel|]. split.
    + rewrite assemble_way_trace.
      destruct (way_qualifies m_filter way); [by right | by left].
    + by rewrite Hemit, emitted_app.
Qed.

(** *** Pass 2: exceptions *)

Lemma gather_ways_resolved (members : list RelationMember.t) (m : Manager) :
  gather_ways members m =
  match resolved_ways m members with
  | Some ways => mk_result (inr ways) m []
  | None => mk_result (inl stash_corruption) m []
  end.
Proof.
  induction members as [|member rest IH]; simpl; [done|].
  destruct (negb _); [|exact IH].
  unfold bind at 1. unfold members_db_get. unfold bind at 1. simpl.
  destruct (MembersDatabase.get _ _ _) as [w|]; simpl; [|done].
  unfold bind. rewrite IH.
  by destruct (resolved_ways m rest) as [ways|].
Qed.

Lemma complete_relation_resolved (r : Relation.t) (m : Manager)
    (ways : list Way.t) :
  resolved_ways m (Relation.members r) = Some ways ->
  complete_relation_ r m =
  match assemble_relation TA m_assembler_config r ways with
  | inl (invalid_location _) => mk_result (inr tt) m [call_relation r ways]
  | inl e => mk_result (inl e) m [call_relation r ways]
  | inr out =>
      mk_result (inr tt)
        (final ((stats_add (out_stats out) ;;
                 output_possibly_flush item_size)
                  (set_output m (CallbackBuffer.append (m_output m)
                                                       (out_areas out)))))
        [call_relation r ways]
  end.
Proof.
  intros Hres. unfold complete_relation. unfold bind at 1.
  rewrite gather_ways_resolved, Hres. cbn [outcome final trace].
  unfold try_catch_invalid_location, bind, run_assembler.
  by destruct (assemble_relation TA m_assembler_config r ways)
    as [[| | |]|out].
Qed.

Lemma orderly_for_each {X : Type} (f : X -> M unit) (l : list X) :
  (forall x, orderly (f x)) -> orderly (for_each f l).
Proof.
  intros Hf. induction l as [|x rest IH]; simpl; [apply orderly_ret|].
  apply orderly_bind; [apply Hf | intros _; exact IH].
Qed.

Lemma orderly_handler_pass2_ways (ways : list Way.t) :
  forall max_way_id : option object_id_type,
    orderly (handler_pass2_ways TA m_assembler_config m_filter item_size
                                max_way_id ways).
Proof.
  induction ways as [|way rest IH]; intros max_way_id; simpl;
    [apply orderly_ret|].
  apply orderly_bind.
  { unfold check_order_way. destruct max_way_id as [max_id|];
      [|apply orderly_ret].
    destruct (_ <=? _); [apply orderly_throw | apply orderly_ret]. }
  intros _. apply orderly_bind; [apply orderly_member_way|].
  intros _. apply IH.
Qed.

Lemma orderly_pass2 (ways : list Way.t) :
  orderly (pass2 TA m_assembler_config m_filter item_size ways).
Proof.
  apply orderly_bind.
  - apply orderly_handler_pass2_ways.
  - intros _. apply orderly_modify. intros m.
    unfold output_stream, set_output, CallbackBuffer.flush,
      CallbackBuffer.output_stream. simpl.
    destruct (CallbackBuffer.m_has_callback (m_output m)); [|done]. simpl.
    by rewrite concat_app, app_nil_r; simpl; rewrite app_nil_r.
Qed.

(** C5, as amended.  An [invalid_location] raised inside the closed-way
  assembler call or the relation assembler call is caught: the call
  returns normally with the manager exactly as it was before — no Area
  is emitted and the statistics are unchanged; the assembler's
  statistics are not added and no failure counter is incremented — so
  the pass goes on with the next object.  An exception of any other kind
  raised by an assembler call propagates out of [member_way] and out of
  pass 2. *)
Theorem invalid_location_is_swallowed :
  (forall (way : Way.t) (m : Manager) (what : string),
     way_qualifies m_filter way = true ->
     assemble_closed_way TA m_assembler_config way
       = inl (invalid_location what) ->
     assemble_way_ way m = mk_result (inr tt) m [call_way way])
  /\ (forall (r : Relation.t) (m : Manager) (ways : list Way.t)
             (what : string),
        resolved_ways m (Relation.members r) = Some ways ->
        assemble_relation TA m_assembler_config r ways
          = inl (invalid_location what) ->
        complete_relation_ r m
          = mk_result (inr tt) m [call_relation r ways])
  /\ (forall (way : Way.t) (m : Manager) (call : assembler_call)
             (e : exception),
        call ∈ trace (member_way_ way m) ->
        raises_other TA m_assembler_config call e ->
        outcome (member_way_ way m) = inl e)
  /\ (forall (ways : list Way.t) (m : Manager) (call : assembler_call)
             (e : exception),
        call ∈ trace (pass2 TA m_assembler_config m_filter item_size ways m)
        -> raises_other TA m_assembler_config call e ->
        outcome (pass2 TA m_assembler_config m_filter item_size ways m)
          = inl e).
Proof.
  split; [|split; [|split]].
  - intros way m what Hq Hthrow.
    by rewrite assemble_way_qualified, Hthrow.
  - intros r m ways what Hres Hthrow.
    by rewrite (complete_relation_resolved r m ways Hres), Hthrow.
  - intros way m. apply (orderly_member_way way).
  - intros ways m. apply (orderly_pass2 ways).
Qed.

(** *** Pass 1: registering the members *)

Lemma increment_members_handle (rdb : RelationsDatabase.t) (h h' : nat) :
  (RelationsDatabase.increment_members rdb h !! h')
    ≫= RelationsDatabase.handle
  = (rdb !! h') ≫= RelationsDatabase.handle.
Proof.
  unfold RelationsDatabase.increment_members.
  destruct (rdb !! h) as [e|] eqn:He; [|done].
  destruct (decide (h = h')) as [<-|Hne].
  - rewrite list_lookup_insert_eq by (by eapply lookup_lt_Some).
    by rewrite He.
  - by rewrite list_lookup_insert_ne.
Qed.

Lemma relations_db_get_stored (s : ItemStash.t) (rdb : RelationsDatabase.t)
    (h : RelationsDatabase.RelationHandle) (sh : ItemStash.handle_type)
    (r : Relation.t) :
  (rdb !! h) ≫= RelationsDatabase.handle = Some sh ->
  s !! sh = Some (Some (ItemStash.item_relation r)) ->
  RelationsDatabase.get s rdb h = Some r.
Proof.
  intros Hh Hs. unfold RelationsDatabase.get.
  destruct (rdb !! h) as [e|]; [|done]. simpl in *.
  rewrite Hh. simpl.
  unfold ItemStash.get_relation, ItemStash.get_item. by rewrite Hs.
Qed.

Lemma member_set_ref_stored (h : RelationsDatabase.RelationHandle)
    (sh : ItemStash.handle_type) (n : nat) (new_ref : object_id_type)
    (r : Relation.t) (m : Manager) :
  (m_relations_db m !! h) ≫= RelationsDatabase.handle = Some sh ->
  m_stash m !! sh = Some (Some (ItemStash.item_relation r)) ->
  member_set_ref h n new_ref m =
  mk_result (inr tt)
    (mk_Manager
       (<[sh := Some (ItemStash.item_relation
                        (Relation.set_members r
                           (alter (fun member =>
                                     RelationMember.set_ref member new_ref)
                                  n (Relation.members r))))]> (m_stash m))
       (m_relations_db m) (m_members_db m) (m_output m) (m_stats m))
    [].
Proof.
  intros Hh Hs.
  pose proof (relations_db_get_stored _ _ h sh r Hh Hs) as Hget.
  unfold member_set_ref, deref, bind, get_manager, expect, modify. simpl.
  rewrite Hget. simpl. unfold RelationsDatabase.set. by rewrite Hh.
Qed.

Lemma walk_members_spec (h : RelationsDatabase.RelationHandle)
    (sh : ItemStash.handle_type) (rid : object_id_type) (rtags : TagList) :
  forall (rest done : list RelationMember.t) (m : Manager),
    (m_relations_db m !! h) ≫= RelationsDatabase.handle = Some sh ->
    m_stash m !! sh
      = Some (Some (ItemStash.item_relation
                      (Relation.mk rid rtags (done ++ rest)))) ->
    let res := walk_members h (length done) rest m in
    outcome res = inr tt
    /\ trace res = []
    /\ (m_relations_db (final res) !! h) ≫= RelationsDatabase.handle
       = Some sh
    /\ m_stash (final res) !! sh
       = Some (Some (ItemStash.item_relation
                       (Relation.mk rid rtags
                          (done ++ map zero_unless_way rest))))
    /\ MembersDatabase.m_elements (m_members_db (final res))
       = MembersDatabase.m_elements (m_members_db m)
         ++ interests_of h (length done) rest
    /\ output_stream (final res) = output_stream m.
Proof.
  induction rest as [|member rest IH]; intros done m Hh Hs.
  { simpl. rewrite !app_nil_r in *. done. }
  assert (Hlen : S (length done)
                 = length (done ++ [zero_unless_way member]))
    by (rewrite length_app; simpl; lia).
  cbn [walk_members interests_of map].
  destruct (item_type.eqb (RelationMember.type member) item_type.way)
    eqn:Hway.
  - (* a way member: track it *)
    assert (Hz : zero_unless_way member = member)
      by (unfold zero_unless_way; by rewrite Hway).
    rewrite Hz in *.
    set (m1 := final (members_db_track h (RelationMember.ref member)
                                       (length done) m)).
    assert (Hstep : members_db_track h (RelationMember.ref member)
                      (length done) m = mk_result (inr tt) m1 [])
      by reflexivity.
    rewrite (bind_inr _ _ m tt) by (by rewrite Hstep).
    rewrite Hstep. cbn [final trace outcome]. rewrite Hlen.
    destruct (IH (done ++ [member]) m1) as (Ho & Ht & Hh' & Hs' & He & Hos).
    { subst m1. simpl. by rewrite increment_members_handle. }
    { subst m1. simpl. by rewrite <- app_assoc. }
    rewrite Ho, Ht.
    split; [done|]. split; [done|]. split; [exact Hh'|].
    split; [by rewrite Hs', <- app_assoc|].
    split; [|exact Hos].
    rewrite He. subst m1. simpl. by rewrite <- !app_assoc, <- Hlen.
  - (* any other member: zero its id *)
    assert (Hz : zero_unless_way member = RelationMember.set_ref member 0)
      by (unfold zero_unless_way; by rewrite Hway).
    rewrite Hz in *.
    pose proof (member_set_ref_stored h sh (length done) 0 _ m Hh Hs)
      as Hstep.
    rewrite (bind_inr _ _ m tt) by (by rewrite Hstep).
    rewrite Hstep. cbn [final trace outcome]. rewrite Hlen.
    match goal with
    | |- context [walk_members _ _ _ ?m1'] => set (m1 := m1')
    end.
    destruct (IH (done ++ [RelationMember.set_ref member 0]) m1)
      as (Ho & Ht & Hh' & Hs' & He & Hos).
    { done. }
    { subst m1. cbn [m_stash].
      rewrite list_lookup_insert_eq by (by eapply lookup_lt_Some).
      do 3 f_equal. unfold Relation.set_members. cbn [Relation.members
        Relation.id Relation.tags]. f_equal.
      replace (length done) with (length done + 0)%nat by lia.
      rewrite alter_app_r. simpl. by rewrite <- app_assoc. }
    rewrite Ho, Ht.
    split; [done|]. split; [done|]. split; [exact Hh'|].
    split; [by rewrite Hs', <- app_assoc|].
    split; [|exact Hos].
    rewrite He. by rewrite <- Hlen.
Qed.

Lemma interests_of_lookup (h : RelationsDatabase.RelationHandle) :
  forall (members : list RelationMember.t) (n k : nat)
         (member : RelationMember.t),
    members !! k = Some member ->
    RelationMember.type member = item_type.way ->
    MembersDatabase.mk_element (RelationMember.ref member) h (n + k) None
                               false
    ∈ interests_of h n members.
Proof.
  induction members as [|x rest IH]; intros n k member Hk Hway; [done|].
  simpl. apply elem_of_app. destruct k as [|k]; simpl in Hk.
  - injection Hk as ->. left. unfold item_type.eqb.
    rewrite bool_decide_eq_true_2 by done. rewrite Nat.add_0_r.
    by apply list_elem_of_singleton.
  - right. replace (n + S k)%nat with (S n + k)%nat by lia.
    by apply IH.
Qed.

(** C6.  For a relation that is kept, pass 1 stores a copy of the relation
  and walks its members with the slot index n = 0, 1, ...: it registers,
  in slot order, an interest (handle, member id, n) for each member of
  type way, and in the stored relation each member of another type has
  its id set to 0 while every member keeps its slot, type and role. *)
Theorem relation_registers_interests (r : Relation.t) (m : Manager) :
  keep_relation m_filter r = true ->
  let h := length (m_relations_db m) in
  let res := relation m_filter r m in
  outcome res = inr tt
  /\ RelationsDatabase.get (m_stash (final res)) (m_relations_db (final res))
                           h
     = Some (Relation.mk (Relation.id r) (Relation.tags r)
                         (map zero_unless_way (Relation.members r)))
  /\ MembersDatabase.m_elements (m_members_db (final res))
     = MembersDatabase.m_elements (m_members_db m)
       ++ interests_of h 0 (Relation.members r)
  /\ (forall (n : nat) (member : RelationMember.t),
        Relation.members r !! n = Some member ->
        if item_type.eqb (RelationMember.type member) item_type.way
        then
          MembersDatabase.mk_element (RelationMember.ref member) h n None
                                     false
          ∈ MembersDatabase.m_elements (m_members_db (final res))
          /\ map zero_unless_way (Relation.members r) !! n = Some member
        else
          map zero_unless_way (Relation.members r) !! n
          = Some (RelationMember.mk (RelationMember.type member) 0
                                    (RelationMember.role member))).
Proof.
  intros Hkeep h res. subst res. unfold relation. rewrite Hkeep.
  set (sh := length (m_stash m)).
  set (m1 := mk_Manager
               (m_stash m ++ [Some (ItemStash.item_relation r)])
               (m_relations_db m
                ++ [RelationsDatabase.mk_element (Some sh) 0])
               (m_members_db m) (m_output m) (m_stats m)).
  assert (Hadd : relations_db_add r m = mk_result (inr h) m1 [])
    by reflexivity.
  assert (Hh : (m_relations_db m1 !! h) ≫= RelationsDatabase.handle
               = Some sh).
  { subst m1 h. simpl. by rewrite list_lookup_middle. }
  assert (Hs : m_stash m1 !! sh
               = Some (Some (ItemStash.item_relation r))).
  { subst m1 sh. simpl. by rewrite list_lookup_middle. }
  assert (Hderef : deref h m1 = mk_result (inr r) m1 []).
  { unfold deref, bind, get_manager, expect. cbn [outcome final trace].
    by rewrite (relations_db_get_stored _ _ h sh r Hh Hs). }
  rewrite (bind_inr _ _ m h) by (by rewrite Hadd).
  rewrite Hadd. cbn [outcome final trace].
  rewrite (bind_inr _ _ m1 r) by (by rewrite Hderef).
  rewrite Hderef. cbn [outcome final trace].
  destruct r as [rid rtags members]. cbn [Relation.members Relation.id
    Relation.tags] in *.
  destruct (walk_members_spec h sh rid rtags members [] m1 Hh Hs)
    as (Ho & Ht & Hh' & Hs' & He & _).
  change (length []) with 0%nat in *. simpl in Hs', He.
  rewrite Ho. split; [done|]. split.
  { by apply (relations_db_get_stored _ _ h sh). }
  split; [exact He|].
  intros n member Hn.
  destruct (item_type.eqb (RelationMember.type member) item_type.way)
    eqn:Hway.
  - split.
    + rewrite He. apply elem_of_app. right.
      apply (interests_of_lookup h members 0 n member Hn).
      by apply bool_decide_eq_true in Hway.
    + rewrite list_lookup_fmap, Hn. simpl. unfold zero_unless_way.
      by rewrite Hway.
  - rewrite list_lookup_fmap, Hn. simpl. unfold zero_unless_way.
    by rewrite Hway.
Qed.

(** *** Pass 2: completion of a relation *)

Lemma relations_db_get_inv (s : ItemStash.t) (rdb : RelationsDatabase.t)
    (h : RelationsDatabase.RelationHandle) (r : Relation.t) :
  RelationsDatabase.get s rdb h = Some r ->
  exists sh, (rdb !! h) ≫= RelationsDatabase.handle = Some sh
             /\ s !! sh = Some (Some (ItemStash.item_relation r)).
Proof.
  unfold RelationsDatabase.get. intros Hget.
  destruct (rdb !! h) as [e|]; [|done]. simpl in *.
  destruct (RelationsDatabase.handle e) as [sh|]; [|done]. simpl in *.
  exists sh. split; [done|].
  unfold ItemStash.get_relation, ItemStash.get_item in Hget.
  destruct (s !! sh) as [[[w|r']|]|]; simpl in Hget; try done.
  by injection Hget as ->.
Qed.

Lemma remove_items_lookup (handles : list ItemStash.handle_type)
    (s : ItemStash.t) (k : nat) :
  k ∉ handles ->
  foldr (fun h acc => ItemStash.remove_item acc h) s handles !! k = s !! k.
Proof.
  induction handles as [|h rest IH]; [done|]. simpl. intros Hk.
  apply not_elem_of_cons in Hk as [Hne Hk].
  unfold ItemStash.remove_item at 1.
  rewrite list_lookup_insert_ne by done. by apply IH.
Qed.

Lemma remove_items_some (handles : list ItemStash.handle_type)
    (s : ItemStash.t) (k : nat) (it : ItemStash.item) :
  foldr (fun h acc => ItemStash.remove_item acc h) s handles !! k
    = Some (Some it) ->
  s !! k = Some (Some it).
Proof.
  induction handles as [|h rest IH]; [done|]. simpl.
  unfold ItemStash.remove_item at 1. intros Hk.
  destruct (decide (h = k)) as [<-|Hne].
  - destruct (decide (h < length
        (foldr (fun h acc => ItemStash.remove_item acc h) s rest))%nat).
    + by rewrite list_lookup_insert_eq in Hk.
    + rewrite list_insert_ge in Hk by lia. by apply IH.
  - rewrite list_lookup_insert_ne in Hk by done. by apply IH.
Qed.

Lemma filter_none {X : Type} (f : X -> bool) (l : list X) :
  (forall x, x ∈ l -> f x = false) -> List.filter f l = [].
Proof.
  induction l as [|x rest IH]; intros H; [done|]. simpl.
  rewrite (H x) by apply list_elem_of_here.
  apply IH. intros y Hy. apply H. by apply list_elem_of_further.
Qed.

Lemma deref_stored (h : RelationsDatabase.RelationHandle) (r : Relation.t)
    (m : Manager) :
  RelationsDatabase.get (m_stash m) (m_relations_db m) h = Some r ->
  deref h m = mk_result (inr r) m [].
Proof.
  intros Hget. unfold deref, bind, get_manager, expect.
  cbn [outcome final trace]. by rewrite Hget.
Qed.

(** *** Pass 2: the registry between two ways and inside [add] *)

Lemma filter_length_map {X Y : Type} (f : Y -> bool) (g : X -> bool)
    (F : X -> Y) (l : list X) :
  (forall x, x ∈ l -> f (F x) = g x) ->
  length (List.filter f (map F l)) = length (List.filter g l).
Proof.
  induction l as [|x rest IH]; intros H; [done|]. simpl.
  rewrite (H x) by apply list_elem_of_here.
  assert (Hrest : length (List.filter f (map F rest))
                  = length (List.filter g rest)).
  { apply IH. intros y Hy. apply H. by apply list_elem_of_further. }
  destruct (g x); simpl; by rewrite Hrest.
Qed.

Lemma filter_length_ext {X : Type} (f g : X -> bool) (l : list X) :
  (forall x, x ∈ l -> f x = g x) ->
  length (List.filter f l) = length (List.filter g l).
Proof.
  intros H. rewrite <- (map_id l) at 1. by apply filter_length_map.
Qed.

Lemma relations_db_get_mono (s s' : ItemStash.t) (rdb : RelationsDatabase.t)
    (h : RelationsDatabase.RelationHandle) (r : Relation.t) :
  (forall k it, s' !! k = Some (Some it) -> s !! k = Some (Some it)) ->
  RelationsDatabase.get s' rdb h = Some r ->
  RelationsDatabase.get s rdb h = Some r.
Proof.
  intros Hmono Hget.
  destruct (relations_db_get_inv _ _ _ _ Hget) as (sh & Hh & Hs).
  apply (relations_db_get_stored _ _ h sh); [done|]. by apply Hmono.
Qed.

(** With distinct ids of the stored relations, the interests
  [MembersDatabase::remove] erases for the relation stored at [h] are
  the live interests in the way registered against [h]. *)
Lemma registered_by_stored (s : ItemStash.t) (rdb : RelationsDatabase.t)
    (h : RelationsDatabase.RelationHandle) (r : Relation.t)
    (id : object_id_type) (e : MembersDatabase.element) :
  RelationsDatabase.get s rdb h = Some r ->
  (forall h' r', RelationsDatabase.get s rdb h' = Some r' ->
                 Relation.id r' = Relation.id r -> h' = h) ->
  MembersDatabase.registered_by s rdb id (Relation.id r) e
  = Nat.eqb (MembersDatabase.relation_pos e) h
    && MembersDatabase.is_live id e.
Proof.
  intros Hget Hids. unfold MembersDatabase.registered_by.
  destruct (MembersDatabase.is_live id e); [|by rewrite andb_false_r].
  rewrite andb_true_r. simpl.
  destruct (Nat.eqb_spec (MembersDatabase.relation_pos e) h) as [->|Hne].
  - rewrite Hget. apply Z.eqb_refl.
  - destruct (RelationsDatabase.get s rdb (MembersDatabase.relation_pos e))
      as [r'|] eqn:Hget'; [|done].
    destruct (Z.eqb_spec (Relation.id r') (Relation.id r)) as [Heq|]; [|done].
    by specialize (Hids _ _ Hget' Heq).
Qed.

Lemma remove_items_length (handles : list ItemStash.handle_type)
    (s : ItemStash.t) :
  length (foldr (fun h acc => ItemStash.remove_item acc h) s handles)
  = length s.
Proof.
  induction handles as [|h rest IH]; [done|]. simpl.
  unfold ItemStash.remove_item at 1. by rewrite length_insert.
Qed.

Lemma remove_items_removed (handles : list ItemStash.handle_type)
    (s : ItemStash.t) (k : nat) :
  k ∈ handles -> (k < length s)%nat ->
  foldr (fun h acc => ItemStash.remove_item acc h) s handles !! k
  = Some None.
Proof.
  induction handles as [|h rest IH]; intros Hk Hlt.
  { by apply elem_of_nil in Hk. }
  simpl. unfold ItemStash.remove_item at 1.
  destruct (decide (h = k)) as [->|Hne].
  - apply list_lookup_insert_eq. by rewrite remove_items_length.
  - rewrite list_lookup_insert_ne by done. apply IH; [|done].
    apply elem_of_cons in Hk as [->|Hk]; done.
Qed.

#[local] Abbreviation only_stored_at r h m :=
  (forall h' r',
     RelationsDatabase.get (m_stash m) (m_relations_db m) h' = Some r' ->
     Relation.id r' = Relation.id r -> h' = h).

#[local] Abbreviation payloads_delivered delivered m :=
  (forall e oh,
     e ∈ MembersDatabase.m_elements (m_members_db m) ->
     MembersDatabase.removed e = false ->
     MembersDatabase.object_handle e = Some oh ->
     exists w : Way.t,
       m_stash m !! oh = Some (Some (ItemStash.item_way w))
       /\ Way.id w = MembersDatabase.member_id e
       /\ w ∈ delivered).

(** From [m] to [m'] the stash only releases ways in which no live
  interest is left. *)
#[local] Abbreviation stash_released m m' :=
  (forall k,
     m_stash m' !! k = m_stash m !! k
     \/ (m_stash m' !! k = Some None
         /\ exists w : Way.t,
              m_stash m !! k = Some (Some (ItemStash.item_way w))
              /\ forall e,
                   e ∈ MembersDatabase.m_elements (m_members_db m') ->
                   MembersDatabase.removed e = false ->
                   MembersDatabase.member_id e ≠ Way.id w)).

Lemma members_db_remove_effect (delivered : list Way.t)
    (h : RelationsDatabase.RelationHandle) (r : Relation.t)
    (id : object_id_type) (m : Manager) :
  RelationsDatabase.get (m_stash m) (m_relations_db m) h = Some r ->
  only_stored_at r h m ->
  payloads_delivered delivered m ->
  let m' := final (members_db_remove id (Relation.id r) m) in
  m_relations_db m' = m_relations_db m
  /\ MembersDatabase.m_elements (m_members_db m')
     = map (fun e => if Nat.eqb (MembersDatabase.relation_pos e) h
                        && MembersDatabase.is_live id e
                     then MembersDatabase.mark_removed e else e)
           (MembersDatabase.m_elements (m_members_db m))
  /\ length (m_stash m') = length (m_stash m)
  /\ stash_released m m'
  /\ RelationsDatabase.get (m_stash m') (m_relations_db m') h = Some r
  /\ only_stored_at r h m'
  /\ payloads_delivered delivered m'.
Proof.
  intros Hget Hids Hpay.
  destruct (relations_db_get_inv _ _ _ _ Hget) as (sh & Hh & Hs).
  unfold members_db_remove, modify, set_stash_members,
    MembersDatabase.remove.
  cbn [final m_relations_db m_stash m_members_db fst snd
       MembersDatabase.m_elements].
  set (E := MembersDatabase.m_elements (m_members_db m)).
  set (hit := MembersDatabase.registered_by (m_stash m) (m_relations_db m)
                id (Relation.id r)).
  assert (Hhit : forall e, hit e
                 = Nat.eqb (MembersDatabase.relation_pos e) h
                   && MembersDatabase.is_live id e).
  { intros e. by apply registered_by_stored. }
  set (F := fun e => if Nat.eqb (MembersDatabase.relation_pos e) h
                        && MembersDatabase.is_live id e
                     then MembersDatabase.mark_removed e else e).
  assert (HE : map (fun e => if hit e then MembersDatabase.mark_removed e
                             else e) E = map F E).
  { apply map_ext. intros e. by rewrite Hhit. }
  rewrite HE.
  set (handles := omap MembersDatabase.object_handle
                    (filter (fun e => hit e = true) E)).
  assert (Hhandles : forall k, k ∈ handles ->
            exists w : Way.t,
              m_stash m !! k = Some (Some (ItemStash.item_way w))
              /\ Way.id w = id).
  { intros k Hk. subst handles. apply list_elem_of_omap in Hk
      as (e & He & Hoh). apply list_elem_of_filter in He as [Hhe He].
    rewrite Hhit in Hhe. apply andb_true_iff in Hhe as [_ Hlive].
    unfold MembersDatabase.is_live in Hlive.
    apply andb_true_iff in Hlive as [Hid Hrem].
    apply Z.eqb_eq in Hid. apply negb_true_iff in Hrem.
    destruct (Hpay e k He Hrem Hoh) as (w & Hw & Hwid & _).
    exists w. split; [done|]. congruence. }
  set (s' := if existsb (MembersDatabase.is_live id) (map F E)
             then m_stash m
             else foldr (fun h acc => ItemStash.remove_item acc h)
                        (m_stash m) handles).
  assert (Hlen : length s' = length (m_stash m)).
  { subst s'. destruct (existsb _ _); [done|]. apply remove_items_length. }
  assert (Hrel : forall k,
    s' !! k = m_stash m !! k
    \/ (s' !! k = Some None
        /\ exists w : Way.t,
             m_stash m !! k = Some (Some (ItemStash.item_way w))
             /\ forall e, e ∈ map F E ->
                  MembersDatabase.removed e = false ->
                  MembersDatabase.member_id e ≠ Way.id w)).
  { intros k. subst s'.
    destruct (existsb (MembersDatabase.is_live id) (map F E)) eqn:Hex;
      [by left|].
    destruct (decide (k ∈ handles)) as [Hk|Hk].
    - right. destruct (Hhandles k Hk) as (w & Hw & Hwid).
      split; [apply remove_items_removed;
              [done | by eapply lookup_lt_Some]|].
      exists w. split; [done|]. intros e He Hrem Hid.
      assert (Habs : existsb (MembersDatabase.is_live id) (map F E) = true).
      { apply existsb_exists. exists e. split; [by apply list_elem_of_In|].
        unfold MembersDatabase.is_live. rewrite Hrem, Hid, Hwid.
        by rewrite Z.eqb_refl. }
      congruence.
    - left. by apply remove_items_lookup. }
  assert (Hmono : forall k it, s' !! k = Some (Some it) ->
                               m_stash m !! k = Some (Some it)).
  { intros k it Hk. destruct (Hrel k) as [Heq|[Hnone _]]; congruence. }
  assert (Hsh : s' !! sh = Some (Some (ItemStash.item_relation r))).
  { destruct (Hrel sh) as [Heq|(_ & w & Hw & _)]; congruence. }
  split; [done|]. split; [done|]. split; [exact Hlen|].
  split; [exact Hrel|]. split; [by apply (relations_db_get_stored _ _ h sh)|].
  split.
  - intros h' r' Hget' Hid. apply (Hids h' r'); [|done].
    by apply (relations_db_get_mono _ s').
  - intros e' oh He' Hrem Hoh.
    apply list_elem_of_In, in_map_iff in He' as (e & <- & He).
    apply list_elem_of_In in He.
    assert (HFe : F e = e).
    { subst F. simpl in *. destruct (_ && _); [|done].
      by destruct e. }
    rewrite HFe in Hrem, Hoh.
    destruct (Hpay e oh He Hrem Hoh) as (w & Hw & Hwid & HwD).
    exists w. rewrite HFe. split; [|done].
    destruct (Hrel oh) as [Heq|(_ & w' & Hw' & Hnone)]; [congruence|].
    exfalso. apply (Hnone (F e)).
    + apply list_elem_of_In, in_map_iff. exists e.
      split; [done | by apply list_elem_of_In].
    + by rewrite HFe.
    + rewrite HFe. congruence.
Qed.

Lemma erase_step (h : RelationsDatabase.RelationHandle)
    (member : RelationMember.t) (rest : list RelationMember.t)
    (e : MembersDatabase.element) :
  erase h rest
    (if negb (RelationMember.ref member =? 0)
        && (Nat.eqb (MembersDatabase.relation_pos e) h
            && MembersDatabase.is_live (RelationMember.ref member) e)
     then MembersDatabase.mark_removed e else e)
  = erase h (member :: rest) e.
Proof.
  unfold erase, MembersDatabase.is_live, MembersDatabase.mark_removed.
  cbn [existsb].
  destruct e as [id pos num oh rem].
  cbn [MembersDatabase.member_id MembersDatabase.relation_pos
       MembersDatabase.member_num MembersDatabase.object_handle
       MembersDatabase.removed].
  destruct (RelationMember.ref member =? 0),
           (id =? RelationMember.ref member), rem;
    cbn [negb andb orb MembersDatabase.member_id
         MembersDatabase.relation_pos MembersDatabase.member_num
         MembersDatabase.object_handle MembersDatabase.removed];
    destruct (Nat.eqb pos h) eqn:Hpos;
    cbn [negb andb orb MembersDatabase.member_id
         MembersDatabase.relation_pos MembersDatabase.member_num
         MembersDatabase.object_handle MembersDatabase.removed];
    rewrite ?Hpos;
    cbn [negb andb orb];
    try reflexivity;
    destruct (existsb _ rest); reflexivity.
Qed.

Lemma remove_members_effect (delivered : list Way.t)
    (h : RelationsDatabase.RelationHandle) (r : Relation.t) :
  forall (members : list RelationMember.t) (m : Manager),
    RelationsDatabase.get (m_stash m) (m_relations_db m) h = Some r ->
    only_stored_at r h m ->
    payloads_delivered delivered m ->
    let res := remove_members_loop members (Relation.id r) m in
    outcome res = inr tt
    /\ trace res = []
    /\ m_relations_db (final res) = m_relations_db m
    /\ MembersDatabase.m_elements (m_members_db (final res))
       = map (erase h members) (MembersDatabase.m_elements (m_members_db m))
    /\ length (m_stash (final res)) = length (m_stash m)
    /\ stash_released m (final res)
    /\ RelationsDatabase.get (m_stash (final res))
                             (m_relations_db (final res)) h = Some r
    /\ only_stored_at r h (final res)
    /\ payloads_delivered delivered (final res).
Proof.
  induction members as [|member rest IH]; intros m Hget Hids Hpay.
  { simpl. repeat split; try done.
    - rewrite <- (map_id (MembersDatabase.m_elements (m_members_db m)))
        at 1. apply map_ext. intros e. unfold erase.
      by rewrite andb_false_r.
    - intros k. by left. }
  cbn [remove_members_loop].
  set (step := if negb (RelationMember.ref member =? 0)
               then members_db_remove (RelationMember.ref member)
                                      (Relation.id r)
               else ret tt).
  assert (Hstep : outcome (step m) = inr tt /\ trace (step m) = []
    /\ m_relations_db (final (step m)) = m_relations_db m
    /\ MembersDatabase.m_elements (m_members_db (final (step m)))
       = map (fun e =>
                if negb (RelationMember.ref member =? 0)
                   && (Nat.eqb (MembersDatabase.relation_pos e) h
                       && MembersDatabase.is_live
                            (RelationMember.ref member) e)
                then MembersDatabase.mark_removed e else e)
             (MembersDatabase.m_elements (m_members_db m))
    /\ length (m_stash (final (step m))) = length (m_stash m)
    /\ stash_released m (final (step m))
    /\ RelationsDatabase.get (m_stash (final (step m)))
         (m_relations_db (final (step m))) h = Some r
    /\ only_stored_at r h (final (step m))
    /\ payloads_delivered delivered (final (step m))).
  { subst step. destruct (negb (RelationMember.ref member =? 0)).
    - destruct (members_db_remove_effect delivered h r
                  (RelationMember.ref member) m Hget Hids Hpay)
        as (H1 & H2 & H3 & H4 & H5 & H6 & H7).
      repeat split; try done.
    - simpl. repeat split; try done.
      + by rewrite map_id.
      + intros k. by left. }
  destruct Hstep as (Ho & Ht & Hrdb & HE & Hlen & Hrel & Hget1 & Hids1
                     & Hpay1).
  rewrite (bind_inr _ _ m tt Ho). cbn [outcome final trace].
  destruct (IH (final (step m)) Hget1 Hids1 Hpay1)
    as (Ho2 & Ht2 & Hrdb2 & HE2 & Hlen2 & Hrel2 & Hget2 & Hids2 & Hpay2).
  rewrite Ho2, Ht2, Ht. split; [done|]. split; [done|].
  split; [congruence|]. split.
  { rewrite HE2, HE, map_map. apply map_ext. intros e. apply erase_step. }
  split; [congruence|]. split; [|done].
  intros k. destruct (Hrel k) as [Heq|(Hnone & w & Hw & Hno)].
  - destruct (Hrel2 k) as [Heq2|(Hnone2 & w & Hw & Hno)].
    + left. congruence.
    + right. split; [done|]. exists w. split; [congruence | done].
  - right. destruct (Hrel2 k) as [Heq2|(_ & w' & Hw' & _)]; [|congruence].
    split; [congruence|]. exists w. split; [done|].
    intros e He Hrem. rewrite HE2 in He.
    apply list_elem_of_In, in_map_iff in He as (e1 & <- & He1).
    apply list_elem_of_In in He1.
    assert (Hsame : erase h rest e1 = e1).
    { unfold erase in *. destruct (_ && _); [|done]. by destruct e1. }
    rewrite Hsame in Hrem |- *. by apply Hno.
Qed.

#[local] Abbreviation nonzero_members r :=
  (List.filter (fun member => negb (RelationMember.ref member =? 0))
               (Relation.members r)).

(** When no interest of the stored relation waits for its way, every
  member with non-zero id is resolved, by a delivered way of this id. *)
Lemma resolved_at_completion (delivered : list Way.t) (pending : list nat)
    (m : Manager) (h : RelationsDatabase.RelationHandle) (r : Relation.t) :
  tracking delivered pending m ->
  RelationsDatabase.get (m_stash m) (m_relations_db m) h = Some r ->
  waiting m h = 0%nat ->
  exists ways : list Way.t,
    resolved_ways m (Relation.members r) = Some ways
    /\ Forall2 (fun member w =>
                  Way.id w = RelationMember.ref member /\ w ∈ delivered)
               (nonzero_members r) ways.
Proof.
  intros Htr Hget Hwait.
  assert (Hall : forall members,
    (forall member, member ∈ members -> member ∈ Relation.members r) ->
    exists ways : list Way.t,
      resolved_ways m members = Some ways
      /\ Forall2 (fun member w =>
                    Way.id w = RelationMember.ref member /\ w ∈ delivered)
                 (List.filter
                    (fun member => negb (RelationMember.ref member =? 0))
                    members)
                 ways).
  { induction members as [|member rest IH]; intros Hsub.
    { exists []. split; [done | constructor]. }
    destruct IH as (ways & Hres & Hways).
    { intros mb Hmb. apply Hsub. by apply list_elem_of_further. }
    cbn [resolved_ways List.filter].
    destruct (Z.eqb_spec (RelationMember.ref member) 0) as [Hz|Hnz];
      cbn [negb]; [by exists ways|].
    destruct (member_interest _ _ _ Htr h r member Hget
                (Hsub member (list_elem_of_here _ _)) Hnz)
      as (e & He & Hpos & Hid & Hrem).
    assert (Hoh : MembersDatabase.object_handle e ≠ None).
    { intros Hnone. unfold waiting in Hwait.
      assert (Hin : In e (List.filter (waits_for h)
                (MembersDatabase.m_elements (m_members_db m)))).
      { apply List.filter_In. split; [by apply list_elem_of_In|].
        unfold waits_for. by rewrite Hpos, Nat.eqb_refl, Hrem, Hnone. }
      destruct (List.filter _ _); [done | discriminate Hwait]. }
    destruct (MembersDatabase.object_handle e) as [oh|] eqn:Hohe; [|done].
    destruct (payload_delivered _ _ _ Htr e oh He Hrem Hohe)
      as (w & Hw & Hwid & HwD).
    assert (Hget_way : exists w0,
      MembersDatabase.get (m_stash m) (m_members_db m)
                          (RelationMember.ref member) = Some w0
      /\ Way.id w0 = RelationMember.ref member /\ w0 ∈ delivered).
    { unfold MembersDatabase.get.
      destruct (filter _ _) as [|e0 others] eqn:Hf.
      { assert (Hin : e ∈ filter
          (fun e => MembersDatabase.is_live (RelationMember.ref member) e
                    = true)
          (MembersDatabase.m_elements (m_members_db m))).
        { apply list_elem_of_filter. split; [|done].
          unfold MembersDatabase.is_live.
          by rewrite Hid, Z.eqb_refl, Hrem. }
        rewrite Hf in Hin. by apply elem_of_nil in Hin. }
      assert (Hin0 : e0 ∈ filter
          (fun e => MembersDatabase.is_live (RelationMember.ref member) e
                    = true)
          (MembersDatabase.m_elements (m_members_db m)))
        by (rewrite Hf; apply list_elem_of_here).
      apply list_elem_of_filter in Hin0 as [Hlive0 He0].
      unfold MembersDatabase.is_live in Hlive0.
      apply andb_true_iff in Hlive0 as [Hid0 Hrem0].
      apply Z.eqb_eq in Hid0. apply negb_true_iff in Hrem0.
      assert (Hoh0 : MembersDatabase.object_handle e0 ≠ None).
      { apply (delivered_attached _ _ _ Htr e0 w He0 Hrem0 HwD).
        congruence. }
      destruct (MembersDatabase.object_handle e0) as [oh0|] eqn:Hohe0;
        [|done].
      destruct (payload_delivered _ _ _ Htr e0 oh0 He0 Hrem0 Hohe0)
        as (w0 & Hw0 & Hwid0 & HwD0).
      exists w0. cbn [mbind option_bind].
      unfold ItemStash.get_way, ItemStash.get_item. rewrite Hw0.
      split; [done|]. split; [congruence | done]. }
    destruct Hget_way as (w0 & Hgw & Hwid0 & HwD0).
    exists (w0 :: ways). rewrite Hgw, Hres. split; [done|].
    by constructor. }
  by apply Hall.
Qed.

(** What the completion closure does to the registry, when it ends
  normally. *)
Lemma on_complete_effect (delivered : list Way.t)
    (h : RelationsDatabase.RelationHandle) (r : Relation.t)
    (ways : list Way.t) (m : Manager) :
  RelationsDatabase.get (m_stash m) (m_relations_db m) h = Some r ->
  resolved_ways m (Relation.members r) = Some ways ->
  only_stored_at r h m ->
  payloads_delivered delivered m ->
  outcome (on_complete_ h m) = inr tt ->
  let m' := final (on_complete_ h m) in
  trace (on_complete_ h m) = [call_relation r ways]
  /\ MembersDatabase.m_elements (m_members_db m')
     = map (erase h (Relation.members r))
           (MembersDatabase.m_elements (m_members_db m))
  /\ length (m_stash m') = length (m_stash m)
  /\ exists (entry : RelationsDatabase.element)
            (sh : ItemStash.handle_type),
       m_relations_db m !! h = Some entry
       /\ RelationsDatabase.handle entry = Some sh
       /\ m_stash m !! sh = Some (Some (ItemStash.item_relation r))
       /\ m_relations_db m'
          = <[h := RelationsDatabase.mk_element
                     None (RelationsDatabase.members entry)]>
              (m_relations_db m)
       /\ m_stash m' !! sh = Some None
       /\ forall k, k ≠ sh ->
            m_stash m' !! k = m_stash m !! k
            \/ (m_stash m' !! k = Some None
                /\ exists w : Way.t,
                     m_stash m !! k = Some (Some (ItemStash.item_way w))
                     /\ forall e,
                          e ∈ MembersDatabase.m_elements (m_members_db m')
                          -> MembersDatabase.removed e = false ->
                          MembersDatabase.member_id e ≠ Way.id w).
Proof.
  intros Hget Hres Hids Hpay Hout.
  destruct (relations_db_get_inv _ _ _ _ Hget) as (sh & Hh & Hs).
  destruct (m_relations_db m !! h) as [entry|] eqn:Hentry; [|done].
  simpl in Hh.
  (* the assembler call *)
  assert (Hcomplete :
    (exists m2,
       complete_relation_ r m
       = mk_result (inr tt) m2 [call_relation r ways]
       /\ m_stash m2 = m_stash m /\ m_relations_db m2 = m_relations_db m
       /\ m_members_db m2 = m_members_db m)
    \/ exists e, complete_relation_ r m
                 = mk_result (inl e) m [call_relation r ways]).
  { rewrite (complete_relation_resolved r m ways Hres).
    destruct (assemble_relation TA m_assembler_config r ways)
      as [[what| |what|what]|out] eqn:Hcall.
    - left. by exists m.
    - right. by eexists.
    - right. by eexists.
    - right. by eexists.
    - left. eexists. split; [reflexivity|]. done. }
  destruct Hcomplete as [(m2 & Hc & Hs2 & Hrdb2 & Hmdb2)|(e & Hc)].
  2: { exfalso. revert Hout. unfold on_complete.
       rewrite (bind_inl _ _ m e); [done|].
       rewrite (bind_result _ _ m r m []) by (by apply deref_stored).
       by rewrite Hc. }
  assert (Hget2 : RelationsDatabase.get (m_stash m2) (m_relations_db m2) h
                  = Some r) by (by rewrite Hs2, Hrdb2).
  assert (Hids2 : only_stored_at r h m2) by (by rewrite Hs2, Hrdb2).
  assert (Hpay2 : payloads_delivered delivered m2)
    by (by rewrite Hs2, Hmdb2).
  destruct (remove_members_effect delivered h r (Relation.members r) m2
              Hget2 Hids2 Hpay2)
    as (Ho3 & Ht3 & Hrdb3 & HE3 & Hlen3 & Hrel3 & Hget3 & _ & _).
  fold (remove_members r) in Ho3, Ht3, Hrdb3, HE3, Hlen3, Hrel3, Hget3.
  set (m3 := final (remove_members r m2)) in *.
  assert (H1 : (let* r0 := deref h in complete_relation_ r0) m
               = mk_result (inr tt) m2 [call_relation r ways]).
  { rewrite (bind_result _ _ m r m []) by (by apply deref_stored).
    by rewrite Hc. }
  assert (H2 : (let* r0 := deref h in remove_members r0) m2
               = mk_result (inr tt) m3 []).
  { rewrite (bind_result _ _ m2 r m2 []) by (by apply deref_stored).
    by rewrite Ho3, Ht3. }
  cbv zeta. unfold on_complete.
  rewrite (bind_result _ _ m tt m2 [call_relation r ways] H1).
  rewrite (bind_result _ _ m2 tt m3 [] H2).
  cbn [outcome final trace app].
  unfold rel_handle_remove, modify, RelationsDatabase.remove.
  cbn [final trace]. rewrite Hrdb3, Hrdb2, Hentry, Hh.
  cbn [m_stash m_relations_db m_members_db].
  split; [done|]. split; [by rewrite HE3, Hmdb2|].
  split; [unfold ItemStash.remove_item; by rewrite length_insert, Hlen3, Hs2|].
  exists entry, sh. split; [done|]. split; [done|]. split; [done|].
  split; [done|]. split.
  { unfold ItemStash.remove_item. apply list_lookup_insert_eq.
    rewrite Hlen3, Hs2. by eapply lookup_lt_Some. }
  intros k Hk. unfold ItemStash.remove_item.
  rewrite list_lookup_insert_ne by done.
  destruct (Hrel3 k) as [Heq|(Hnone & w & Hw & Hno)].
  - left. by rewrite Heq, Hs2.
  - right. split; [done|]. exists w. split; [by rewrite <- Hs2|]. done.
Qed.

Lemma erase_fields (h : RelationsDatabase.RelationHandle)
    (members : list RelationMember.t) (e : MembersDatabase.element) :
  MembersDatabase.member_id (erase h members e)
  = MembersDatabase.member_id e
  /\ MembersDatabase.relation_pos (erase h members e)
     = MembersDatabase.relation_pos e
  /\ MembersDatabase.object_handle (erase h members e)
     = MembersDatabase.object_handle e
  /\ (MembersDatabase.removed e = true ->
      MembersDatabase.removed (erase h members e) = true)
  /\ (MembersDatabase.removed (erase h members e) = false ->
      erase h members e = e)
  /\ (MembersDatabase.relation_pos e ≠ h -> erase h members e = e).
Proof.
  unfold erase.
  destruct (Nat.eqb_spec (MembersDatabase.relation_pos e) h);
    destruct (existsb _ members); simpl; repeat split; try done.
Qed.

Lemma pending_for_ext (m m' : Manager) (pending : list nat)
    (h : RelationsDatabase.RelationHandle) :
  (forall i, i ∈ pending ->
     (MembersDatabase.relation_pos
        <$> MembersDatabase.m_elements (m_members_db m') !! i)
     = (MembersDatabase.relation_pos
          <$> MembersDatabase.m_elements (m_members_db m) !! i)) ->
  pending_for m' pending h = pending_for m pending h.
Proof.
  intros H. unfold pending_for. apply filter_length_ext. intros i Hi.
  specialize (H i Hi).
  destruct (MembersDatabase.m_elements (m_members_db m') !! i),
           (MembersDatabase.m_elements (m_members_db m) !! i);
    simpl in H; try done. by injection H as ->.
Qed.

Lemma pending_for_none (m : Manager) (pending : list nat)
    (h : RelationsDatabase.RelationHandle) (i : nat)
    (e : MembersDatabase.element) :
  pending_for m pending h = 0%nat ->
  i ∈ pending ->
  MembersDatabase.m_elements (m_members_db m) !! i = Some e ->
  MembersDatabase.relation_pos e ≠ h.
Proof.
  unfold pending_for. intros Hnone Hi He Hpos.
  assert (Hin : In i (List.filter
    (fun i => match MembersDatabase.m_elements (m_members_db m) !! i with
              | Some e => Nat.eqb (MembersDatabase.relation_pos e) h
              | None => false
              end) pending)).
  { apply List.filter_In. split; [by apply list_elem_of_In|].
    by rewrite He, Hpos, Nat.eqb_refl. }
  destruct (List.filter _ pending); [done | discriminate Hnone].
Qed.

(** The completion of the relation at [h], none of whose interests waits
  for its way or its notification, keeps the registry as it should be,
  finishes the relation and leaves the other relations alone. *)
Lemma tracking_on_complete (delivered : list Way.t) (pending : list nat)
    (m : Manager) (h : RelationsDatabase.RelationHandle) (r : Relation.t) :
  tracking delivered pending m ->
  RelationsDatabase.get (m_stash m) (m_relations_db m) h = Some r ->
  waiting m h = 0%nat ->
  pending_for m pending h = 0%nat ->
  outcome (on_complete_ h m) = inr tt ->
  let m' := final (on_complete_ h m) in
  tracking delivered pending m'
  /\ finished m' h
  /\ (forall h', finished m h' -> finished m' h')
  /\ (forall h' r',
        h' ≠ h ->
        RelationsDatabase.get (m_stash m) (m_relations_db m) h' = Some r' ->
        RelationsDatabase.get (m_stash m') (m_relations_db m') h' = Some r'
        /\ waiting m' h' = waiting m h')
  /\ (forall h', pending_for m' pending h' = pending_for m pending h')
  /\ (forall k, m_stash m !! k = Some None -> m_stash m' !! k = Some None)
  /\ (forall sh,
        (m_relations_db m !! h) ≫= RelationsDatabase.handle = Some sh ->
        m_stash m' !! sh = Some None)
  /\ (forall h', h' ≠ h -> m_relations_db m' !! h' = m_relations_db m !! h')
  /\ exists ways : list Way.t,
       trace (on_complete_ h m) = [call_relation r ways]
       /\ Forall2 (fun member w =>
                     Way.id w = RelationMember.ref member /\ w ∈ delivered)
                  (nonzero_members r) ways.
Proof.
  intros Htr Hget Hwait Hpend Hout. cbv zeta.
  destruct (resolved_at_completion _ _ _ _ _ Htr Hget Hwait)
    as (ways & Hres & Hways).
  assert (Hids : only_stored_at r h m).
  { intros h' r' Hget' Hid. by apply (relation_ids _ _ _ Htr h' h r' r). }
  destruct (on_complete_effect delivered h r ways m Hget Hres Hids
              (payload_delivered _ _ _ Htr) Hout)
    as (Htrace & HE & Hlen & entry & sh & Hentry & Hsh & Hs & HR & Hnone
        & Hstash).
  set (m' := final (on_complete_ h m)) in *.
  set (G := erase h (Relation.members r)) in *.
  set (E := MembersDatabase.m_elements (m_members_db m)) in *.
  assert (Hh_lt : (h < length (m_relations_db m))%nat)
    by (by eapply lookup_lt_Some).
  (* the erased interests *)
  assert (HG2 : forall e, e ∈ E -> MembersDatabase.relation_pos e = h ->
                          MembersDatabase.removed (G e) = true).
  { intros e He Hpos.
    destruct (MembersDatabase.removed e) eqn:Hrem.
    { by apply (erase_fields h (Relation.members r) e). }
    destruct (interest_member _ _ _ Htr h r e Hget He Hpos Hrem)
      as (member & Hin & Hnz & Hid).
    subst G. unfold erase. rewrite Hpos, Nat.eqb_refl. simpl.
    assert (Hex : existsb
      (fun member => negb (RelationMember.ref member =? 0)
                     && (MembersDatabase.member_id e
                         =? RelationMember.ref member))
      (Relation.members r) = true).
    { apply existsb_exists. exists member.
      split; [by apply list_elem_of_In|].
      rewrite Hid, Z.eqb_refl, andb_true_r. apply negb_true_iff.
      by apply Z.eqb_neq. }
    by rewrite Hex. }
  assert (Hin' : forall e', e' ∈ MembersDatabase.m_elements (m_members_db m')
                 -> exists e, e ∈ E /\ e' = G e).
  { intros e' He'. rewrite HE in He'.
    apply list_elem_of_In, in_map_iff in He' as (e & <- & He).
    exists e. split; [by apply list_elem_of_In | done]. }
  assert (Hlive' : forall e',
    e' ∈ MembersDatabase.m_elements (m_members_db m') ->
    MembersDatabase.removed e' = false ->
    e' ∈ E /\ MembersDatabase.relation_pos e' ≠ h).
  { intros e' He' Hrem. destruct (Hin' e' He') as (e & He & ->).
    destruct (erase_fields h (Relation.members r) e)
      as (_ & _ & _ & _ & Hsame & _). fold G in Hsame.
    specialize (Hsame Hrem). split; [by rewrite Hsame|].
    intros Hpos. rewrite Hsame in Hpos. specialize (HG2 e He Hpos).
    congruence. }
  assert (Hkeep : forall e, e ∈ E -> MembersDatabase.relation_pos e ≠ h ->
                  e ∈ MembersDatabase.m_elements (m_members_db m')).
  { intros e He Hpos. rewrite HE. apply list_elem_of_In, in_map_iff.
    exists e. split; [|by apply list_elem_of_In].
    by apply (erase_fields h (Relation.members r) e). }
  (* the stash *)
  assert (Hmono : forall k it, m_stash m' !! k = Some (Some it) ->
                               m_stash m !! k = Some (Some it)).
  { intros k it Hk. destruct (decide (k = sh)) as [->|Hne]; [congruence|].
    destruct (Hstash k Hne) as [Heq|[Hn _]]; congruence. }
  assert (Hrdb_ne : forall h', h' ≠ h ->
            m_relations_db m' !! h' = m_relations_db m !! h').
  { intros h' Hne. rewrite HR. by apply list_lookup_insert_ne. }
  assert (Hrdb_eq : m_relations_db m' !! h
                    = Some (RelationsDatabase.mk_element
                              None (RelationsDatabase.members entry))).
  { rewrite HR. by apply list_lookup_insert_eq. }
  assert (Hget_old : forall h' r',
    RelationsDatabase.get (m_stash m') (m_relations_db m') h' = Some r' ->
    h' ≠ h
    /\ RelationsDatabase.get (m_stash m) (m_relations_db m) h' = Some r').
  { intros h' r' Hget'.
    destruct (relations_db_get_inv _ _ _ _ Hget') as (sh' & Hh' & Hs').
    assert (Hne : h' ≠ h).
    { intros ->. by rewrite Hrdb_eq in Hh'. }
    split; [done|]. rewrite (Hrdb_ne h' Hne) in Hh'.
    apply (relations_db_get_stored _ _ h' sh'); [done|]. by apply Hmono. }
  assert (Hslot : forall h' sh',
    h' ≠ h ->
    (m_relations_db m !! h') ≫= RelationsDatabase.handle = Some sh' ->
    m_stash m' !! sh' = m_stash m !! sh').
  { intros h' sh' Hne Hh'.
    destruct (relation_stored _ _ _ Htr h' sh' Hh') as (r' & Hs').
    assert (Hsh_ne : sh' ≠ sh).
    { intros ->. apply Hne.
      apply (relation_ids _ _ _ Htr h' h r' r); [|done|congruence].
      by apply (relations_db_get_stored _ _ h' sh). }
    destruct (Hstash sh' Hsh_ne) as [Heq|(_ & w & Hw & _)]; congruence. }
  assert (Hget_new : forall h' r',
    h' ≠ h ->
    RelationsDatabase.get (m_stash m) (m_relations_db m) h' = Some r' ->
    RelationsDatabase.get (m_stash m') (m_relations_db m') h' = Some r').
  { intros h' r' Hne Hget'.
    destruct (relations_db_get_inv _ _ _ _ Hget') as (sh' & Hh' & Hs').
    apply (relations_db_get_stored _ _ h' sh').
    - by rewrite (Hrdb_ne h' Hne).
    - by rewrite (Hslot h' sh' Hne Hh'). }
  assert (Hwaiting : forall h', h' ≠ h -> waiting m' h' = waiting m h').
  { intros h' Hne. unfold waiting. rewrite HE. fold E.
    apply filter_length_map. intros e He.
    destruct (erase_fields h (Relation.members r) e)
      as (_ & Hpos & _ & _ & _ & Hsame). fold G in Hpos, Hsame.
    destruct (decide (MembersDatabase.relation_pos e = h)) as [Heq|Hneq].
    - unfold waits_for. rewrite Hpos, Heq.
      by destruct (Nat.eqb_spec h h').
    - by rewrite (Hsame Hneq). }
  assert (Hpending : forall h',
            pending_for m' pending h' = pending_for m pending h').
  { intros h'. apply pending_for_ext. intros i _. rewrite HE. fold E.
    change (map G E) with (G <$> E). rewrite list_lookup_fmap.
    destruct (E !! i) as [e|]; [|done]. simpl. f_equal.
    by apply (erase_fields h (Relation.members r) e). }
  split; [|split; [|split; [|split; [|split; [|split; [|split; [|split]]]]]]].
  - split.
    + intros h' sh' Hh'.
      assert (Hne : h' ≠ h) by (intros ->; by rewrite Hrdb_eq in Hh').
      rewrite (Hrdb_ne h' Hne) in Hh'.
      destruct (relation_stored _ _ _ Htr h' sh' Hh') as (r' & Hs').
      exists r'. by rewrite (Hslot h' sh' Hne Hh').
    + intros h1 h2 r1 r2 H1 H2 Hid.
      destruct (Hget_old _ _ H1) as [_ H1'].
      destruct (Hget_old _ _ H2) as [_ H2'].
      by apply (relation_ids _ _ _ Htr h1 h2 r1 r2).
    + intros h' r' e' Hget' He' Hpos Hrem.
      destruct (Hget_old _ _ Hget') as [_ Hget0].
      destruct (Hlive' e' He' Hrem) as [He _].
      by apply (interest_member _ _ _ Htr h' r' e').
    + intros h' r' member Hget' Hin Hnz.
      destruct (Hget_old _ _ Hget') as [Hne Hget0].
      destruct (member_interest _ _ _ Htr h' r' member Hget0 Hin Hnz)
        as (e & He & Hpos & Hid & Hrem).
      exists e. split; [|done]. apply Hkeep; [done | congruence].
    + intros e' He' Hrem. destruct (Hlive' e' He' Hrem) as [He Hpos].
      destruct (interest_owner _ _ _ Htr e' He Hrem) as (sh' & Hh').
      exists sh'. by rewrite (Hrdb_ne _ Hpos).
    + intros e' oh He' Hrem Hoh. destruct (Hlive' e' He' Hrem) as [He Hpos].
      destruct (payload_delivered _ _ _ Htr e' oh He Hrem Hoh)
        as (w & Hw & Hwid & HwD).
      exists w. split; [|done].
      assert (Hne : oh ≠ sh) by (intros ->; congruence).
      destruct (Hstash oh Hne) as [Heq|(_ & w' & Hw' & Hno)]; [congruence|].
      exfalso. apply (Hno e' He' Hrem). congruence.
    + intros e' w He' Hrem HwD Hwid.
      destruct (Hlive' e' He' Hrem) as [He _].
      by apply (delivered_attached _ _ _ Htr e' w).
    + intros h' entry' sh' Hentry' Hsh'.
      assert (Hne : h' ≠ h).
      { intros ->. rewrite Hrdb_eq in Hentry'. injection Hentry' as <-.
        done. }
      rewrite (Hrdb_ne h' Hne) in Hentry'.
      rewrite (Hwaiting h' Hne), Hpending.
      by apply (outstanding _ _ _ Htr h' entry' sh').
    + intros i Hi.
      destruct (pending_live _ _ _ Htr i Hi) as (e & He & Hrem & Hoh).
      exists e. split; [|done]. rewrite HE. fold E. fold E in He.
      change (map G E) with (G <$> E). rewrite list_lookup_fmap, He.
      simpl. f_equal.
      apply (erase_fields h (Relation.members r) e).
      by apply (pending_for_none m pending h i e).
  - split; [by rewrite Hrdb_eq|].
    intros e' He' Hpos. destruct (Hin' e' He') as (e & He & ->).
    apply HG2; [done|].
    by rewrite <- (proj1 (proj2 (erase_fields h (Relation.members r) e))).
  - intros h' [Hrel Hels]. split.
    + destruct (decide (h' = h)) as [->|Hne]; [by rewrite Hrdb_eq|].
      by rewrite (Hrdb_ne h' Hne).
    + intros e' He' Hpos. destruct (Hin' e' He') as (e & He & ->).
      destruct (erase_fields h (Relation.members r) e)
        as (_ & Hpos' & _ & Hmono' & _). fold G in Hpos', Hmono'.
      apply Hmono'. apply Hels; [done | congruence].
  - intros h' r' Hne Hget'. split; [by apply Hget_new | by apply Hwaiting].
  - exact Hpending.
  - intros k Hk. destruct (decide (k = sh)) as [->|Hne]; [done|].
    destruct (Hstash k Hne) as [Heq|[Hn _]]; congruence.
  - intros sh' Hsh'. rewrite Hentry in Hsh'. simpl in Hsh'. congruence.
  - exact Hrdb_ne.
  - by exists ways.
Qed.

Lemma pending_for_cons (m : Manager) (i : nat) (rest : list nat)
    (h : RelationsDatabase.RelationHandle) (e : MembersDatabase.element) :
  MembersDatabase.m_elements (m_members_db m) !! i = Some e ->
  pending_for m (i :: rest) h
  = ((if Nat.eqb (MembersDatabase.relation_pos e) h then 1 else 0)
     + pending_for m rest h)%nat.
Proof.
  intros He. unfold pending_for. cbn [List.filter]. rewrite He.
  by destruct (Nat.eqb _ h).
Qed.

(** One notification inside [MembersDatabase::add]: the outstanding count
  of the relation of the interest is decremented.  The count is then
  zero exactly when no interest of the relation waits for its way or
  its notification. *)
Lemma tracking_decrement (delivered : list Way.t) (i : nat)
    (rest : list nat) (m : Manager) (elem : MembersDatabase.element) :
  tracking delivered (i :: rest) m ->
  MembersDatabase.m_elements (m_members_db m) !! i = Some elem ->
  let pos := MembersDatabase.relation_pos elem in
  let m2 :=
    mk_Manager (m_stash m)
      (RelationsDatabase.decrement_members (m_relations_db m) pos)
      (m_members_db m) (m_output m) (m_stats m) in
  tracking delivered rest m2
  /\ (forall h, RelationsDatabase.get (m_stash m2) (m_relations_db m2) h
                = RelationsDatabase.get (m_stash m) (m_relations_db m) h)
  /\ (forall h, finished m h -> finished m2 h)
  /\ (exists r, RelationsDatabase.get (m_stash m) (m_relations_db m) pos
                = Some r)
  /\ (RelationsDatabase.has_all_members (m_relations_db m2) pos = true <->
      waiting m pos = 0%nat /\ pending_for m rest pos = 0%nat).
Proof.
  intros Htr Helem pos m2.
  destruct (pending_live _ _ _ Htr i (list_elem_of_here _ _))
    as (e & He & Hrem & Hoh).
  rewrite Helem in He. injection He as <-.
  assert (Hin : elem ∈ MembersDatabase.m_elements (m_members_db m))
    by (by eapply list_elem_of_lookup_2).
  destruct (interest_owner _ _ _ Htr elem Hin Hrem) as (sh & Hsh).
  fold pos in Hsh.
  destruct (m_relations_db m !! pos) as [entry|] eqn:Hentry; [|done].
  simpl in Hsh.
  pose proof (outstanding _ _ _ Htr pos entry sh Hentry Hsh) as Hcount.
  rewrite (pending_for_cons m i rest pos elem Helem) in Hcount.
  fold pos in Hcount. rewrite Nat.eqb_refl in Hcount.
  assert (Hlt : (pos < length (m_relations_db m))%nat)
    by (by eapply lookup_lt_Some).
  assert (HR : m_relations_db m2
               = <[pos := RelationsDatabase.mk_element
                            (Some sh)
                            (Nat.pred (RelationsDatabase.members entry))]>
                   (m_relations_db m)).
  { subst m2. cbn [m_relations_db].
    unfold RelationsDatabase.decrement_members. by rewrite Hentry, Hsh. }
  assert (Hhandle : forall h,
    (m_relations_db m2 !! h) ≫= RelationsDatabase.handle
    = (m_relations_db m !! h) ≫= RelationsDatabase.handle).
  { intros h. rewrite HR. destruct (decide (h = pos)) as [->|Hne].
    - rewrite list_lookup_insert_eq by done. by rewrite Hentry.
    - by rewrite list_lookup_insert_ne. }
  assert (Hget : forall h,
    RelationsDatabase.get (m_stash m2) (m_relations_db m2) h
    = RelationsDatabase.get (m_stash m) (m_relations_db m) h).
  { intros h. unfold RelationsDatabase.get.
    specialize (Hhandle h).
    destruct (m_relations_db m2 !! h) as [e2|],
             (m_relations_db m !! h) as [e1|]; simpl in *; try done;
      try (by rewrite Hhandle); try (by rewrite <- Hhandle). }
  split; [|split; [|split; [|split]]].
  - split.
    + intros h sh' Hh. rewrite Hhandle in Hh.
      by apply (relation_stored _ _ _ Htr h sh').
    + intros h1 h2 r1 r2. rewrite !Hget.
      apply (relation_ids _ _ _ Htr).
    + intros h r e. rewrite Hget. apply (interest_member _ _ _ Htr).
    + intros h r member. rewrite Hget.
      apply (member_interest _ _ _ Htr).
    + intros e He Hr. rewrite Hhandle.
      by apply (interest_owner _ _ _ Htr).
    + apply (payload_delivered _ _ _ Htr).
    + apply (delivered_attached _ _ _ Htr).
    + intros h entry' sh' Hentry' Hsh'.
      change (waiting m2 h) with (waiting m h).
      change (pending_for m2 rest h) with (pending_for m rest h).
      rewrite HR in Hentry'. destruct (decide (h = pos)) as [->|Hne].
      * rewrite list_lookup_insert_eq in Hentry' by done.
        injection Hentry' as <-. simpl. lia.
      * rewrite list_lookup_insert_ne in Hentry' by done.
        pose proof (outstanding _ _ _ Htr h entry' sh' Hentry' Hsh') as Hc.
        rewrite (pending_for_cons m i rest h elem Helem) in Hc.
        fold pos in Hc.
        destruct (Nat.eqb_spec pos h) as [Heq|_]; [congruence|].
        by rewrite Hc.
    + intros j Hj. apply (pending_live _ _ _ Htr j).
      by apply list_elem_of_further.
  - exact Hget.
  - intros h [Hrel Hels]. split; [by rewrite Hhandle | exact Hels].
  - destruct (relation_stored _ _ _ Htr pos sh) as (r & Hs).
    { by rewrite Hentry. }
    exists r. apply (relations_db_get_stored _ _ pos sh); [|done].
    by rewrite Hentry.
  - unfold RelationsDatabase.has_all_members. rewrite HR.
    rewrite list_lookup_insert_eq by done. simpl.
    rewrite Nat.eqb_eq. lia.
Qed.

Lemma decrement_members_handle (rdb : RelationsDatabase.t) (h h' : nat) :
  (RelationsDatabase.decrement_members rdb h !! h')
    ≫= RelationsDatabase.handle
  = (rdb !! h') ≫= RelationsDatabase.handle.
Proof.
  unfold RelationsDatabase.decrement_members.
  destruct (rdb !! h) as [e|] eqn:He; [|done].
  destruct (decide (h = h')) as [<-|Hne].
  - rewrite list_lookup_insert_eq by (by eapply lookup_lt_Some).
    by rewrite He.
  - by rewrite list_lookup_insert_ne.
Qed.

Lemma bind_outcome_inr {A B : Type} (c : M A) (k : A -> M B) (m : Manager)
    (b : B) :
  outcome (bind c k m) = inr b ->
  exists a, outcome (c m) = inr a /\ outcome (k a (final (c m))) = inr b.
Proof.
  unfold bind. destruct (outcome (c m)) as [e|a]; simpl; [done|].
  intros Hk. by exists a.
Qed.

Lemma members_db_notify_cons (i : nat) (rest : list nat)
    (func : RelationsDatabase.RelationHandle -> M unit) (m : Manager)
    (elem : MembersDatabase.element) :
  MembersDatabase.m_elements (m_members_db m) !! i = Some elem ->
  let pos := MembersDatabase.relation_pos elem in
  let m2 :=
    mk_Manager (m_stash m)
      (RelationsDatabase.decrement_members (m_relations_db m) pos)
      (m_members_db m) (m_output m) (m_stats m) in
  members_db_notify (i :: rest) func m
  = ((if RelationsDatabase.has_all_members (m_relations_db m2) pos
      then func pos else ret tt) ;;
     members_db_notify rest func) m2.
Proof.
  intros Helem pos m2. cbn [members_db_notify].
  rewrite (bind_silent get_manager _ m m m eq_refl). rewrite Helem.
  rewrite (bind_silent (expect (Some elem)) _ m elem m eq_refl).
  rewrite (bind_silent
             (modify (fun m0 =>
                mk_Manager (m_stash m0)
                  (RelationsDatabase.decrement_members
                     (m_relations_db m0) (MembersDatabase.relation_pos elem))
                  (m_members_db m0) (m_output m0) (m_stats m0)))
             _ m tt m2 eq_refl).
  by rewrite (bind_silent get_manager _ m2 m2 m2 eq_refl).
Qed.

(** The notifications of [MembersDatabase::add], when they end normally:
  the registry is kept, finished relations stay finished, and every
  stored relation none of whose interests waits for its way, and some
  of whose interests wait for their notification, is completed — the
  assembler is invoked on it with a delivered way for each member with
  non-zero id, in slot order — and finished. *)
Lemma notify_completes (delivered : list Way.t) :
  forall (pending : list nat) (m : Manager),
    tracking delivered pending m ->
    outcome (members_db_notify pending on_complete_ m) = inr tt ->
    let res := members_db_notify pending on_complete_ m in
    tracking delivered [] (final res)
    /\ (forall h, finished m h -> finished (final res) h)
    /\ (forall k, m_stash m !! k = Some None ->
                  m_stash (final res) !! k = Some None)
    /\ (forall h r,
          RelationsDatabase.get (m_stash m) (m_relations_db m) h = Some r ->
          waiting m h = 0%nat ->
          (0 < pending_for m pending h)%nat ->
          finished (final res) h
          /\ (forall sh,
                (m_relations_db m !! h) ≫= RelationsDatabase.handle
                = Some sh ->
                m_stash (final res) !! sh = Some None)
          /\ exists (ways : list Way.t)
                    (before after : list assembler_call),
               trace res = before ++ [call_relation r ways] ++ after
               /\ Forall2 (fun member w =>
                             Way.id w = RelationMember.ref member
                             /\ w ∈ delivered)
                          (nonzero_members r) ways).
Proof.
  induction pending as [|i rest IH]; intros m Htr Hout.
  { cbv zeta. cbn [members_db_notify ret final trace].
    split; [done|]. split; [done|]. split; [done|].
    intros h r _ _ Hpos. unfold pending_for in Hpos. simpl in Hpos. lia. }
  destruct (pending_live _ _ _ Htr i (list_elem_of_here _ _))
    as (elem & Helem & Hrem & Hoh).
  destruct (tracking_decrement delivered i rest m elem Htr Helem)
    as (Htr2 & Hget2 & Hfin2 & (rp & Hgetp) & Hall).
  pose proof (members_db_notify_cons i rest on_complete_ m elem Helem)
    as Hrun.
  cbv zeta in Hrun, Htr2, Hget2, Hfin2, Hall.
  set (pos := MembersDatabase.relation_pos elem) in *.
  set (m2 := mk_Manager (m_stash m)
               (RelationsDatabase.decrement_members (m_relations_db m) pos)
               (m_members_db m) (m_output m) (m_stats m)) in *.
  cbv zeta. rewrite Hrun in Hout |- *.
  destruct (bind_outcome_inr _ _ _ _ Hout) as ([] & Hout1 & Hout2).
  rewrite (bind_inr _ _ m2 tt Hout1). cbn [final trace].
  assert (Hpend2 : forall h, pending_for m2 rest h = pending_for m rest h)
    by done.
  assert (Hwait2 : forall h, waiting m2 h = waiting m h) by done.
  destruct (RelationsDatabase.has_all_members (m_relations_db m2) pos)
    eqn:Hhas.
  - (* the relation of the interest is complete *)
    destruct (proj1 Hall eq_refl) as [Hw0 Hp0].
    assert (Hgetp2 : RelationsDatabase.get (m_stash m2) (m_relations_db m2)
                       pos = Some rp) by (by rewrite Hget2).
    destruct (tracking_on_complete delivered rest m2 pos rp Htr2 Hgetp2
                Hw0 Hp0 Hout1)
      as (Htr3 & Hfin3 & Hmono3 & Hother3 & Hpend3 & Hkeep3 & Hrel3 & Hrdb3
          & ways & Htrace3 & Hways3).
    set (m3 := final (on_complete_ pos m2)) in *.
    destruct (IH m3 Htr3 Hout2) as (Htr4 & Hmono4 & Hkeep4 & Hdone4).
    split; [exact Htr4|]. split.
    { intros h Hf. by apply Hmono4, Hmono3, Hfin2. }
    split.
    { intros k Hk. by apply Hkeep4, Hkeep3. }
    intros h r Hget Hw Hp.
    destruct (decide (pos = h)) as [Heq|Hne].
    + subst h. assert (rp = r) by congruence. subst rp.
      split; [by apply Hmono4|]. split.
      { intros sh Hsh. apply Hkeep4, Hrel3. subst m2. cbn [m_relations_db].
        by rewrite decrement_members_handle. }
      exists ways, [], (trace (members_db_notify rest on_complete_ m3)).
      split; [by rewrite Htrace3 | done].
    + rewrite (pending_for_cons m i rest h elem Helem) in Hp.
      fold pos in Hp. destruct (Nat.eqb_spec pos h) as [|_]; [done|].
      simpl in Hp.
      destruct (Hother3 h r (not_eq_sym Hne)) as [Hget3 Hwait3].
      { by rewrite Hget2. }
      destruct (Hdone4 h r Hget3)
        as (Hf & Hrel4 & ways' & before & after & Ht & Hw').
      { by rewrite Hwait3, Hwait2. }
      { by rewrite Hpend3, Hpend2. }
      split; [exact Hf|]. split.
      { intros sh Hsh. apply Hrel4. fold m3.
        rewrite (Hrdb3 h (not_eq_sym Hne)). subst m2. cbn [m_relations_db].
        by rewrite decrement_members_handle. }
      exists ways', (trace (on_complete_ pos m2) ++ before), after.
      split; [|done]. by rewrite Ht, <- app_assoc.
  - (* the relation of the interest waits for other interests *)
    cbn [ret final trace app] in *.
    destruct (IH m2 Htr2 Hout2) as (Htr4 & Hmono4 & Hkeep4 & Hdone4).
    split; [exact Htr4|]. split.
    { intros h Hf. by apply Hmono4, Hfin2. }
    split; [exact Hkeep4|].
    intros h r Hget Hw Hp.
    assert (Hp2 : (0 < pending_for m2 rest h)%nat).
    { rewrite Hpend2.
      rewrite (pending_for_cons m i rest h elem Helem) in Hp. fold pos in Hp.
      destruct (Nat.eqb_spec pos h) as [Heq|_]; [|done].
      subst h. destruct (pending_for m rest pos) eqn:Hz; [|lia].
      exfalso. by pose proof (proj2 Hall (conj Hw eq_refl)). }
    destruct (Hdone4 h r) as (Hf & Hrel4 & Hcall);
      [by rewrite Hget2 | by rewrite Hwait2 | done |].
    split; [exact Hf|]. split; [|exact Hcall].
    intros sh Hsh. apply Hrel4. subst m2. cbn [m_relations_db].
    by rewrite decrement_members_handle.
Qed.

(** *** Pass 2: a way is stored *)

Lemma find_elem (db : MembersDatabase.t) (id : object_id_type) (i : nat) :
  i ∈ MembersDatabase.find db id <->
  exists e, MembersDatabase.m_elements db !! i = Some e
            /\ MembersDatabase.is_live id e = true.
Proof.
  unfold MembersDatabase.find. rewrite list_elem_of_In, in_map_iff. split.
  - intros ([j e] & <- & Hin). apply list_elem_of_In in Hin.
    apply list_elem_of_filter in Hin as [Hlive Hin].
    apply elem_of_lookup_imap in Hin as (j' & e' & [= -> ->] & Hl).
    by exists e'.
  - intros (e & He & Hlive). exists (i, e). split; [done|].
    apply list_elem_of_In, list_elem_of_filter. split; [done|].
    by apply (elem_of_lookup_imap_2 (fun i e => (i, e))).
Qed.

Lemma find_count (id : object_id_type)
    (g : MembersDatabase.element -> bool) :
  forall (E : list MembersDatabase.element) (n : nat)
         (L : nat -> option MembersDatabase.element),
    (forall k, L (n + k)%nat = E !! k) ->
    length
      (List.filter
         (fun i => match L i with Some e => g e | None => false end)
         (map fst
            (filter (fun p : nat * MembersDatabase.element =>
                       MembersDatabase.is_live id (snd p) = true)
                    (imap (fun i e => ((n + i)%nat, e)) E))))
    = length (List.filter (fun e => MembersDatabase.is_live id e && g e) E).
Proof.
  induction E as [|x rest IH]; intros n L HL; [done|].
  rewrite imap_cons, filter_cons. cbn [snd List.filter].
  assert (Himap : imap ((fun i e => ((n + i)%nat, e)) ∘ S) rest
                  = imap (fun i e => ((S n + i)%nat, e)) rest).
  { apply imap_ext. intros i e _. simpl. f_equal. lia. }
  rewrite Himap.
  assert (Hrest : forall k, L (S n + k)%nat = rest !! k).
  { intros k. replace (S n + k)%nat with (n + S k)%nat by lia.
    by rewrite HL. }
  specialize (IH (S n) L Hrest).
  destruct (decide (MembersDatabase.is_live id x = true)) as [Hlive|Hdead].
  - rewrite Hlive. cbn [map fst List.filter andb].
    rewrite (HL 0%nat). cbn [lookup list_lookup].
    destruct (g x); cbn [length]; by rewrite IH.
  - apply not_true_is_false in Hdead. rewrite Hdead. cbn [andb]. exact IH.
Qed.

Lemma filter_length_split {X : Type} (f g k : X -> bool) (l : list X) :
  (forall x, x ∈ l -> k x = f x || g x /\ f x && g x = false) ->
  length (List.filter k l)
  = (length (List.filter f l) + length (List.filter g l))%nat.
Proof.
  induction l as [|x rest IH]; intros H; [done|]. simpl.
  destruct (H x (list_elem_of_here _ _)) as [Hk Hfg].
  assert (Hrest : length (List.filter k rest)
                  = (length (List.filter f rest)
                     + length (List.filter g rest))%nat).
  { apply IH. intros y Hy. apply H. by apply list_elem_of_further. }
  rewrite Hk. destruct (f x), (g x); simpl in *; try done; lia.
Qed.

(** *** Pass 2: no failure but that of the assembler *)

(** The completion closure on a stored relation whose members with
  non-zero id are resolved ends normally unless the relation assembler
  raises an exception other than [invalid_location], which leaves it. *)
Lemma on_complete_outcome (delivered : list Way.t)
    (h : RelationsDatabase.RelationHandle) (r : Relation.t)
    (ways : list Way.t) (m : Manager) :
  RelationsDatabase.get (m_stash m) (m_relations_db m) h = Some r ->
  resolved_ways m (Relation.members r) = Some ways ->
  only_stored_at r h m ->
  payloads_delivered delivered m ->
  outcome (on_complete_ h m) = inr tt
  \/ exists e,
       raises_other TA m_assembler_config (call_relation r ways) e
       /\ outcome (on_complete_ h m) = inl e
       /\ trace (on_complete_ h m) = [call_relation r ways].
Proof.
  intros Hget Hres Hids Hpay.
  assert (Hcomplete :
    (exists m2,
       complete_relation_ r m
       = mk_result (inr tt) m2 [call_relation r ways]
       /\ m_stash m2 = m_stash m /\ m_relations_db m2 = m_relations_db m
       /\ m_members_db m2 = m_members_db m)
    \/ exists e, complete_relation_ r m
                 = mk_result (inl e) m [call_relation r ways]
                 /\ raises_other TA m_assembler_config
                                 (call_relation r ways) e).
  { rewrite (complete_relation_resolved r m ways Hres).
    unfold raises_other. cbn [call_result].
    destruct (assemble_relation TA m_assembler_config r ways)
      as [[what| |what|what]|out] eqn:Hcall.
    - left. by exists m.
    - right. by eexists.
    - right. by eexists.
    - right. by eexists.
    - left. eexists. split; [reflexivity|]. done. }
  destruct Hcomplete as [(m2 & Hc & Hs2 & Hrdb2 & Hmdb2)|(e & Hc & Hraise)].
  2: { right. exists e. split; [done|]. unfold on_complete.
       rewrite (bind_inl _ _ m e).
       - cbn [outcome trace]. split; [done|].
         rewrite (bind_result _ _ m r m []) by (by apply deref_stored).
         by rewrite Hc.
       - rewrite (bind_result _ _ m r m []) by (by apply deref_stored).
         by rewrite Hc. }
  left.
  assert (Hget2 : RelationsDatabase.get (m_stash m2) (m_relations_db m2) h
                  = Some r) by (by rewrite Hs2, Hrdb2).
  assert (Hids2 : only_stored_at r h m2) by (by rewrite Hs2, Hrdb2).
  assert (Hpay2 : payloads_delivered delivered m2)
    by (by rewrite Hs2, Hmdb2).
  destruct (remove_members_effect delivered h r (Relation.members r) m2
              Hget2 Hids2 Hpay2)
    as (Ho3 & Ht3 & _).
  fold (remove_members r) in Ho3, Ht3.
  set (m3 := final (remove_members r m2)) in *.
  assert (H1 : (let* r0 := deref h in complete_relation_ r0) m
               = mk_result (inr tt) m2 [call_relation r ways]).
  { rewrite (bind_result _ _ m r m []) by (by apply deref_stored).
    by rewrite Hc. }
  assert (H2 : (let* r0 := deref h in remove_members r0) m2
               = mk_result (inr tt) m3 []).
  { rewrite (bind_result _ _ m2 r m2 []) by (by apply deref_stored).
    by rewrite Ho3, Ht3. }
  unfold on_complete.
  rewrite (bind_result _ _ m tt m2 [call_relation r ways] H1).
  by rewrite (bind_result _ _ m2 tt m3 [] H2).
Qed.

(** The notifications of [MembersDatabase::add] end normally unless an
  assembler invocation raises an exception other than
  [invalid_location]. *)
Lemma notify_outcome (delivered : list Way.t) :
  forall (pending : list nat) (m : Manager),
    tracking delivered pending m ->
    let res := members_db_notify pending on_complete_ m in
    outcome res = inr tt
    \/ exists call e,
         call ∈ trace res
         /\ raises_other TA m_assembler_config call e
         /\ outcome res = inl e.
Proof.
  induction pending as [|i rest IH]; intros m Htr; [by left|].
  destruct (pending_live _ _ _ Htr i (list_elem_of_here _ _))
    as (elem & Helem & Hrem & Hoh).
  destruct (tracking_decrement delivered i rest m elem Htr Helem)
    as (Htr2 & Hget2 & Hfin2 & (rp & Hgetp) & Hall).
  pose proof (members_db_notify_cons i rest on_complete_ m elem Helem)
    as Hrun.
  cbv zeta in Hrun, Htr2, Hget2, Hfin2, Hall.
  set (pos := MembersDatabase.relation_pos elem) in *.
  set (m2 := mk_Manager (m_stash m)
               (RelationsDatabase.decrement_members (m_relations_db m) pos)
               (m_members_db m) (m_output m) (m_stats m)) in *.
  cbv zeta. rewrite Hrun.
  destruct (RelationsDatabase.has_all_members (m_relations_db m2) pos)
    eqn:Hhas.
  - destruct (proj1 Hall eq_refl) as [Hw0 Hp0].
    assert (Hgetp2 : RelationsDatabase.get (m_stash m2) (m_relations_db m2)
                       pos = Some rp) by (by rewrite Hget2).
    destruct (resolved_at_completion _ _ _ _ _ Htr2 Hgetp2 Hw0)
      as (ways & Hres & _).
    destruct (on_complete_outcome delivered pos rp ways m2 Hgetp2 Hres)
      as [Hout1|(e & Hraise & Hout1 & Htrace1)].
    { intros h' r' Hget' Hid'.
      by apply (relation_ids _ _ _ Htr2 h' pos r' rp). }
    { by apply (payload_delivered _ _ _ Htr2). }
    + destruct (tracking_on_complete delivered rest m2 pos rp Htr2 Hgetp2
                  Hw0 Hp0 Hout1) as (Htr3 & _).
      rewrite (bind_inr _ _ m2 tt Hout1). cbn [outcome trace].
      destruct (IH _ Htr3) as [Hok|(call & e & Hin & Hraise & Hfail)].
      * by left.
      * right. exists call, e. split; [|done].
        apply elem_of_app. by right.
    + right. exists (call_relation rp ways), e.
      rewrite (bind_inl _ _ m2 e Hout1). cbn [outcome trace].
      rewrite Htrace1. split; [apply list_elem_of_here | done].
  - rewrite (bind_silent (ret tt) _ m2 tt m2 eq_refl).
    by apply IH.
Qed.

Lemma members_db_add_stored (way : Way.t)
    (func : RelationsDatabase.RelationHandle -> M unit) (m : Manager) :
  members_db_add way func m
  = match MembersDatabase.find (m_members_db m) (Way.id way) with
    | [] => mk_result (inr false) m []
    | _ :: _ =>
        (members_db_notify
           (MembersDatabase.find (m_members_db m) (Way.id way)) func ;;
         ret true) (store_way way m)
    end.
Proof.
  unfold members_db_add.
  rewrite (bind_silent get_manager _ m m m eq_refl).
  destruct (MembersDatabase.find _ _) as [|i range]; [done|].
  by rewrite (bind_silent (modify _) _ m tt (store_way way m) eq_refl).
Qed.

Lemma attach_fields (way : Way.t) (oh : ItemStash.handle_type)
    (e : MembersDatabase.element) :
  MembersDatabase.member_id (attach way oh e) = MembersDatabase.member_id e
  /\ MembersDatabase.relation_pos (attach way oh e)
     = MembersDatabase.relation_pos e
  /\ MembersDatabase.removed (attach way oh e) = MembersDatabase.removed e
  /\ MembersDatabase.is_live (Way.id way) (attach way oh e)
     = MembersDatabase.is_live (Way.id way) e
  /\ MembersDatabase.object_handle (attach way oh e)
     = if MembersDatabase.is_live (Way.id way) e then Some oh
       else MembersDatabase.object_handle e.
Proof.
  unfold attach.
  destruct (MembersDatabase.is_live (Way.id way) e) eqn:Hlive; [|done].
  by unfold MembersDatabase.is_live in *.
Qed.

Lemma is_live_true (id : object_id_type) (e : MembersDatabase.element) :
  MembersDatabase.is_live id e = true <->
  MembersDatabase.member_id e = id /\ MembersDatabase.removed e = false.
Proof.
  unfold MembersDatabase.is_live.
  rewrite andb_true_iff, Z.eqb_eq, negb_true_iff. tauto.
Qed.

Lemma store_way_get (delivered : list Way.t) (pending : list nat)
    (way : Way.t) (m : Manager) (h : RelationsDatabase.RelationHandle) :
  tracking delivered pending m ->
  RelationsDatabase.get (m_stash (store_way way m))
                        (m_relations_db (store_way way m)) h
  = RelationsDatabase.get (m_stash m) (m_relations_db m) h.
Proof.
  intros Htr. unfold store_way. cbn [m_stash m_relations_db].
  unfold RelationsDatabase.get.
  destruct (m_relations_db m !! h) as [entry|] eqn:He; [|done].
  cbn [mbind option_bind].
  destruct (RelationsDatabase.handle entry) as [sh|] eqn:Hsh; [|done].
  cbn [mbind option_bind].
  destruct (relation_stored _ _ _ Htr h sh) as (r & Hr).
  { by rewrite He. }
  unfold ItemStash.get_relation, ItemStash.get_item.
  by rewrite lookup_app_l by (by eapply lookup_lt_Some).
Qed.

(** [MembersDatabase::add] stores a way whose id no way delivered before
  has: the live interests in the way, which all waited for it, now wait
  for their notification. *)
Lemma tracking_store_way (delivered : list Way.t) (way : Way.t)
    (m : Manager) :
  tracking delivered [] m ->
  (forall w, w ∈ delivered -> Way.id w ≠ Way.id way) ->
  let m1 := store_way way m in
  let range := MembersDatabase.find (m_members_db m) (Way.id way) in
  tracking (delivered ++ [way]) range m1
  /\ (forall h, finished m h -> finished m1 h)
  /\ (forall h e1,
        e1 ∈ MembersDatabase.m_elements (m_members_db m1) ->
        MembersDatabase.relation_pos e1 = h ->
        MembersDatabase.is_live (Way.id way) e1 = true ->
        (0 < pending_for m1 range h)%nat).
Proof.
  intros Htr Hfresh m1 range.
  set (E := MembersDatabase.m_elements (m_members_db m)).
  set (oh1 := length (m_stash m)).
  assert (HE1 : MembersDatabase.m_elements (m_members_db m1)
                = attach way oh1 <$> E) by done.
  assert (Hget : forall h,
    RelationsDatabase.get (m_stash m1) (m_relations_db m1) h
    = RelationsDatabase.get (m_stash m) (m_relations_db m) h).
  { intros h. by apply (store_way_get delivered []). }
  assert (Hin1 : forall e1,
    e1 ∈ MembersDatabase.m_elements (m_members_db m1) ->
    exists e, e ∈ E /\ e1 = attach way oh1 e).
  { rewrite HE1. intros e1 H.
    apply list_elem_of_fmap in H as (e & -> & H). by exists e. }
  assert (Hnone : forall e,
    e ∈ E -> MembersDatabase.is_live (Way.id way) e = true ->
    MembersDatabase.object_handle e = None).
  { intros e He Hlive. apply is_live_true in Hlive as [Hid Hrem].
    destruct (MembersDatabase.object_handle e) as [oh|] eqn:Hoh; [|done].
    destruct (payload_delivered _ _ _ Htr e oh He Hrem Hoh)
      as (w & _ & Hwid & HwD).
    exfalso. apply (Hfresh w HwD). congruence. }
  assert (Hstash : forall k x,
    m_stash m !! k = Some x -> m_stash m1 !! k = Some x).
  { intros k x Hk. subst m1. unfold store_way. cbn [m_stash].
    by apply lookup_app_l_Some. }
  split; [split|split].
  - intros h sh Hh. destruct (relation_stored _ _ _ Htr h sh Hh) as (r & Hr).
    exists r. by apply Hstash.
  - intros h1 h2 r1 r2. rewrite !Hget. apply (relation_ids _ _ _ Htr).
  - intros h r e1 Hg He1 Hpos Hrem. rewrite Hget in Hg.
    destruct (Hin1 _ He1) as (e & He & ->).
    destruct (attach_fields way oh1 e) as (Hid & Hp & Hr & _).
    rewrite Hid. rewrite Hp in Hpos. rewrite Hr in Hrem.
    by apply (interest_member _ _ _ Htr h r e).
  - intros h r member Hg Hmem Hnz. rewrite Hget in Hg.
    destruct (member_interest _ _ _ Htr h r member Hg Hmem Hnz)
      as (e & He & Hpos & Hid & Hrem).
    exists (attach way oh1 e).
    destruct (attach_fields way oh1 e) as (Hid1 & Hp1 & Hr1 & _).
    split; [rewrite HE1; by apply list_elem_of_fmap_2|].
    by rewrite Hid1, Hp1, Hr1.
  - intros e1 He1 Hrem.
    destruct (Hin1 _ He1) as (e & He & ->).
    destruct (attach_fields way oh1 e) as (_ & Hp1 & Hr1 & _).
    rewrite Hp1. rewrite Hr1 in Hrem.
    by apply (interest_owner _ _ _ Htr e).
  - intros e1 oh He1 Hrem Hoh.
    destruct (Hin1 _ He1) as (e & He & ->).
    destruct (attach_fields way oh1 e) as (Hid1 & _ & Hr1 & _ & Hh1).
    rewrite Hid1. rewrite Hr1 in Hrem. rewrite Hh1 in Hoh.
    destruct (MembersDatabase.is_live (Way.id way) e) eqn:Hlive.
    + injection Hoh as <-. exists way.
      apply is_live_true in Hlive as [Hid _].
      split; [|split; [done|]].
      * subst m1 oh1. unfold store_way. cbn [m_stash].
        by apply list_lookup_middle.
      * apply elem_of_app. right. by apply list_elem_of_singleton.
    + destruct (payload_delivered _ _ _ Htr e oh He Hrem Hoh)
        as (w & Hw & Hwid & HwD).
      exists w. split; [by apply Hstash|]. split; [done|].
      apply elem_of_app. by left.
  - intros e1 w He1 Hrem Hw Hwid.
    destruct (Hin1 _ He1) as (e & He & ->).
    destruct (attach_fields way oh1 e) as (Hid1 & _ & Hr1 & _ & Hh1).
    rewrite Hid1 in Hwid. rewrite Hr1 in Hrem. rewrite Hh1.
    destruct (MembersDatabase.is_live (Way.id way) e) eqn:Hlive; [done|].
    apply elem_of_app in Hw as [Hw|Hw].
    + by apply (delivered_attached _ _ _ Htr e w).
    + apply list_elem_of_singleton in Hw as ->. exfalso.
      assert (MembersDatabase.is_live (Way.id way) e = true)
        by (by apply is_live_true).
      congruence.
  - intros h entry sh Hentry Hsh.
    rewrite (outstanding _ _ _ Htr h entry sh Hentry Hsh).
    change (pending_for m [] h) with 0%nat. rewrite Nat.add_0_r.
    assert (Hw1 : waiting m1 h
      = length (List.filter
                  (fun e => waits_for h e
                            && negb (MembersDatabase.is_live (Way.id way) e))
                  E)).
    { unfold waiting. rewrite HE1. apply filter_length_map.
      intros e He. unfold waits_for.
      destruct (attach_fields way oh1 e) as (_ & Hp1 & Hr1 & _ & Hh1).
      rewrite Hp1, Hr1, Hh1.
      destruct (MembersDatabase.is_live (Way.id way) e);
        by rewrite ?andb_false_r, ?andb_true_r. }
    assert (Hp1 : pending_for m1 range h
      = length (List.filter
                  (fun e => MembersDatabase.is_live (Way.id way) e
                            && Nat.eqb (MembersDatabase.relation_pos e) h)
                  E)).
    { rewrite (pending_for_ext m m1 range h).
      - exact (find_count (Way.id way)
                 (fun e => Nat.eqb (MembersDatabase.relation_pos e) h)
                 E 0 (fun i => E !! i) (fun k => eq_refl)).
      - intros i _. fold E. rewrite HE1, list_lookup_fmap.
        destruct (E !! i) as [e|]; simpl; [|done].
        by destruct (attach_fields way oh1 e) as (_ & -> & _). }
    rewrite Hw1, Hp1. unfold waiting. fold E.
    apply filter_length_split. intros e He.
    destruct (MembersDatabase.is_live (Way.id way) e) eqn:Hlive.
    + rewrite andb_false_r. cbn [orb andb]. split; [|done].
      unfold waits_for. rewrite (Hnone e He Hlive).
      apply is_live_true in Hlive as [_ ->]. cbn [negb].
      by rewrite !andb_true_r.
    + rewrite andb_true_r. cbn [andb]. by rewrite orb_false_r, andb_false_r.
  - intros i Hi. apply find_elem in Hi as (e & He & Hlive).
    exists (attach way oh1 e). fold E in He.
    split; [by rewrite HE1, list_lookup_fmap, He|].
    destruct (attach_fields way oh1 e) as (_ & _ & Hr1 & _ & Hh1).
    rewrite Hr1, Hh1, Hlive. by apply is_live_true in Hlive as [_ ->].
  - intros h [Hh Hall]. split; [done|].
    intros e1 He1 Hpos. destruct (Hin1 _ He1) as (e & He & ->).
    destruct (attach_fields way oh1 e) as (_ & Hp1 & Hr1 & _).
    rewrite Hr1. rewrite Hp1 in Hpos. by apply Hall.
  - intros h e1 He1 Hpos Hlive.
    apply list_elem_of_lookup in He1 as (i & Hi).
    destruct (pending_for m1 range h) eqn:Hz; [|lia]. exfalso.
    apply (pending_for_none m1 range h i e1 Hz); [|done|done].
    apply find_elem. rewrite HE1, list_lookup_fmap in Hi.
    fold E. destruct (E !! i) as [e|] eqn:He; [|done].
    injection Hi as <-. exists e. split; [done|].
    by destruct (attach_fields way oh1 e) as (_ & _ & _ & <- & _).
Qed.

(** A way in which no relation has a live interest is not stored: the
  registry is as it should be with the way among the delivered ones. *)
Lemma tracking_discard_way (delivered : list Way.t) (way : Way.t)
    (m : Manager) :
  tracking delivered [] m ->
  MembersDatabase.find (m_members_db m) (Way.id way) = [] ->
  tracking (delivered ++ [way]) [] m.
Proof.
  intros Htr Hnone.
  assert (Hdead : forall e,
    e ∈ MembersDatabase.m_elements (m_members_db m) ->
    MembersDatabase.is_live (Way.id way) e = false).
  { intros e He. destruct (MembersDatabase.is_live _ e) eqn:Hlive; [|done].
    apply list_elem_of_lookup in He as (i & Hi).
    assert (Hin : i ∈ MembersDatabase.find (m_members_db m) (Way.id way))
      by (apply find_elem; by exists e).
    rewrite Hnone in Hin. by apply elem_of_nil in Hin. }
  destruct Htr as [H1 H2 H3 H4 H5 H6 H7 H8 H9].
  split; try done.
  - intros e oh He Hrem Hoh. destruct (H6 e oh He Hrem Hoh) as (w & ? & ? & ?).
    exists w. split; [done|]. split; [done|]. apply elem_of_app. by left.
  - intros e w He Hrem Hw Hwid. apply elem_of_app in Hw as [Hw|Hw].
    + by apply (H7 e w).
    + apply list_elem_of_singleton in Hw as ->. exfalso.
      assert (MembersDatabase.is_live (Way.id way) e = true)
        by (by apply is_live_true).
      rewrite Hdead in H; done.
Qed.

(** *** Pass 2: a way is handed to [member_way] *)

Lemma assemble_way_same_registry (way : Way.t) (m : Manager) :
  same_registry m
    (final (assemble_way TA m_assembler_config m_filter item_size way m)).
Proof.
  destruct (way_qualifies m_filter way) eqn:Hq.
  - rewrite assemble_way_qualified by done.
    by destruct (assemble_closed_way TA m_assembler_config way)
      as [[| | |]|out].
  - by rewrite assemble_way_not_qualified.
Qed.

Lemma assemble_way_outcome (way : Way.t) (m : Manager) :
  outcome (assemble_way_ way m) = inr tt
  \/ exists e,
       raises_other TA m_assembler_config (call_way way) e
       /\ outcome (assemble_way_ way m) = inl e
       /\ trace (assemble_way_ way m) = [call_way way].
Proof.
  destruct (way_qualifies m_filter way) eqn:Hq.
  - rewrite assemble_way_qualified by done.
    unfold raises_other. cbn [call_result].
    destruct (assemble_closed_way TA m_assembler_config way)
      as [[what| |what|what]|out]; cbn [outcome trace];
      try (by left); right; by eexists.
  - rewrite assemble_way_not_qualified by done. by left.
Qed.

Lemma tracking_same_registry (delivered : list Way.t) (pending : list nat)
    (m m' : Manager) :
  same_registry m m' ->
  tracking delivered pending m ->
  tracking delivered pending m'
  /\ (forall h, RelationsDatabase.get (m_stash m') (m_relations_db m') h
                = RelationsDatabase.get (m_stash m) (m_relations_db m) h)
  /\ (forall h, finished m h -> finished m' h).
Proof.
  destruct m as [s rdb mdb o st], m' as [s' rdb' mdb' o' st'].
  unfold same_registry. cbn [m_stash m_relations_db m_members_db].
  intros (-> & -> & ->) Htr.
  split; [|done]. destruct Htr. by split.
Qed.

(** No interest of a stored relation waits for its way once a way has
  been delivered for each of its members with non-zero id. *)
Lemma waiting_zero (delivered : list Way.t) (pending : list nat)
    (m : Manager) (h : RelationsDatabase.RelationHandle) (r : Relation.t) :
  tracking delivered pending m ->
  RelationsDatabase.get (m_stash m) (m_relations_db m) h = Some r ->
  (forall member,
     member ∈ Relation.members r -> RelationMember.ref member ≠ 0 ->
     exists w, w ∈ delivered /\ Way.id w = RelationMember.ref member) ->
  waiting m h = 0%nat.
Proof.
  intros Htr Hget Hall. unfold waiting.
  destruct (List.filter _ _) as [|e l] eqn:Hf; [done|]. exfalso.
  assert (Hin : In e (e :: l)) by (by left).
  rewrite <- Hf in Hin. apply List.filter_In in Hin as [Hin Hw].
  apply list_elem_of_In in Hin. unfold waits_for in Hw.
  apply andb_true_iff in Hw as [Hw Hoh].
  apply andb_true_iff in Hw as [Hpos Hrem].
  apply Nat.eqb_eq in Hpos. apply negb_true_iff in Hrem.
  destruct (interest_member _ _ _ Htr h r e Hget Hin Hpos Hrem)
    as (member & Hmem & Hnz & Hid).
  destruct (Hall member Hmem Hnz) as (w & HwD & Hwid).
  apply (delivered_attached _ _ _ Htr e w Hin Hrem HwD); [congruence|].
  by destruct (MembersDatabase.object_handle e).
Qed.

(** A way handed to [member_way], no way of the same id having been
  delivered before.  The step fails only if an assembler invocation
  raises an exception other than [invalid_location].  When it ends
  normally, the registry is kept, and every stored relation with a
  member that has the id of the way, and a delivered way for each other
  member with non-zero id, is completed and finished. *)
Lemma member_way_tracked (delivered : list Way.t) (way : Way.t)
    (m : Manager) :
  tracking delivered [] m ->
  (forall w, w ∈ delivered -> Way.id w ≠ Way.id way) ->
  let res := member_way_ way m in
  (outcome res = inr tt
   \/ exists call e,
        call ∈ trace res
        /\ raises_other TA m_assembler_config call e
        /\ outcome res = inl e)
  /\ (outcome res = inr tt ->
      tracking (delivered ++ [way]) [] (final res)
      /\ (forall h, finished m h -> finished (final res) h)
      /\ forall h r,
           RelationsDatabase.get (m_stash m) (m_relations_db m) h = Some r ->
           (exists member,
              member ∈ Relation.members r
              /\ RelationMember.ref member = Way.id way
              /\ RelationMember.ref member ≠ 0) ->
           (forall member,
              member ∈ Relation.members r ->
              RelationMember.ref member ≠ 0 ->
              exists w, w ∈ delivered ++ [way]
                        /\ Way.id w = RelationMember.ref member) ->
           finished (final res) h
           /\ (forall sh,
                 (m_relations_db m !! h) ≫= RelationsDatabase.handle
                 = Some sh ->
                 m_stash (final res) !! sh = Some None)
           /\ exists (ways : list Way.t)
                     (before after : list assembler_call),
                trace res = before ++ [call_relation r ways] ++ after
                /\ Forall2 (fun member w =>
                              Way.id w = RelationMember.ref member
                              /\ w ∈ delivered ++ [way])
                           (nonzero_members r) ways).
Proof.
  intros Htr Hfresh res. subst res. unfold member_way.
  pose proof (members_db_add_stored way on_complete_ m) as Hadd.
  destruct (MembersDatabase.find (m_members_db m) (Way.id way))
    as [|i rest] eqn:Hrange.
  - (* no relation is interested in the way *)
    rewrite (bind_silent _ _ m false m Hadd).
    pose proof (tracking_discard_way delivered way m Htr Hrange) as Htr1.
    destruct (tracking_same_registry _ _ _ _
                (assemble_way_same_registry way m) Htr1)
      as (Htr2 & Hget2 & Hfin2).
    split.
    { destruct (assemble_way_outcome way m)
        as [Hok|(e & Hraise & Hfail & Htrace)]; [by left|].
      right. exists (call_way way), e. rewrite Htrace.
      split; [apply list_elem_of_here | done]. }
    intros _. split; [exact Htr2|]. split; [exact Hfin2|].
    intros h r Hget (member & Hmem & Hid & Hnz) _. exfalso.
    destruct (member_interest _ _ _ Htr h r member Hget Hmem Hnz)
      as (e & He & _ & Heid & Hrem).
    apply list_elem_of_lookup in He as (k & Hk).
    assert (Hin : k ∈ MembersDatabase.find (m_members_db m) (Way.id way)).
    { apply find_elem. exists e. split; [done|].
      apply is_live_true. split; [congruence | done]. }
    rewrite Hrange in Hin. by apply elem_of_nil in Hin.
  - (* the way is stored and the relations are notified *)
    destruct (tracking_store_way delivered way m Htr Hfresh)
      as (Htr1 & Hfin1 & Hpend1).
    cbv zeta in Htr1, Hfin1, Hpend1. rewrite Hrange in Htr1, Hpend1.
    set (range := i :: rest) in *.
    set (m1 := store_way way m) in *.
    set (notified := members_db_notify range on_complete_ m1) in *.
    assert (Hadd' :
      members_db_add way on_complete_ m
      = mk_result (match outcome notified with
                   | inl e => inl e
                   | inr _ => inr true
                   end) (final notified) (trace notified)).
    { rewrite Hadd. unfold bind, ret. fold notified.
      destruct (outcome notified) as [e|[]]; cbn [outcome final trace];
        by rewrite ?app_nil_r. }
    pose proof (notify_outcome (delivered ++ [way]) range m1 Htr1)
      as Hno. cbv zeta in Hno. fold notified in Hno.
    split.
    { destruct Hno as [Hok|(call & e & Hin & Hraise & Hfail)].
      - rewrite (bind_result _ _ m true (final notified) (trace notified))
          by (by rewrite Hadd', Hok).
        cbn [outcome trace].
        destruct (assemble_way_outcome way (final notified))
          as [Hok2|(e & Hraise & Hfail & Htrace)]; [by left|].
        right. exists (call_way way), e. rewrite Htrace.
        split; [|done]. apply elem_of_app. right. apply list_elem_of_here.
      - right. exists call, e.
        rewrite (bind_inl _ _ m e) by (by rewrite Hadd', Hfail).
        cbn [outcome trace]. by rewrite Hadd'. }
    intros Hout.
    destruct (bind_outcome_inr _ _ _ _ Hout) as (stored & Hout1 & Hout2).
    rewrite Hadd' in Hout1, Hout2. cbn [outcome final] in Hout1, Hout2.
    destruct (outcome notified) as [e|[]] eqn:Hnotified; [done|].
    injection Hout1 as <-.
    rewrite (bind_result _ _ m true (final notified) (trace notified))
      by (by rewrite Hadd').
    cbn [final trace].
    destruct (notify_completes (delivered ++ [way]) range m1 Htr1
                Hnotified) as (Htr2 & Hfin2 & _ & Hdone2).
    fold notified in Htr2, Hfin2, Hdone2.
    destruct (tracking_same_registry _ _ _ _
                (assemble_way_same_registry way (final notified)) Htr2)
      as (Htr3 & Hget3 & Hfin3).
    split; [exact Htr3|]. split.
    { intros h Hf. by apply Hfin3, Hfin2, Hfin1. }
    intros h r Hget (member & Hmem & Hid & Hnz) Hall.
    assert (Hget1 : RelationsDatabase.get (m_stash m1) (m_relations_db m1) h
                    = Some r).
    { subst m1. by rewrite (store_way_get delivered [] way m h Htr). }
    destruct (Hdone2 h r Hget1)
      as (Hf & Hrel & ways & before & after & Ht & Hw).
    { by apply (waiting_zero (delivered ++ [way]) range m1 h r). }
    { destruct (member_interest _ _ _ Htr1 h r member Hget1 Hmem Hnz)
        as (e1 & He1 & Hpos1 & Hid1 & Hrem1).
      apply (Hpend1 h e1 He1 Hpos1).
      apply is_live_true. split; [congruence | done]. }
    split; [by apply Hfin3|]. split.
    { intros sh Hsh.
      destruct (assemble_way_same_registry way (final notified))
        as (-> & _). by apply Hrel. }
    exists ways, before, (after ++ trace (assemble_way_ way (final notified))).
    split; [|done]. by rewrite Ht, <- !app_assoc.
Qed.
(** *** The registry stays consistent *)

Lemma registry_step_ok (m m' : Manager) :
  registry_ok m -> registry_step m m' -> registry_ok m'.
Proof.
  intros [Hpb Hpw Hrb Hib Hio] [Hgrow Hrel Hsize Hhandles Hfrom].
  split.
  - intros e' oh He' Hoh.
    destruct (Hfrom e' He') as (e & He & _ & _ & _ & Hh).
    destruct (Hh oh Hoh) as [Hold|Hnew]; [|lia].
    specialize (Hpb e oh He Hold). lia.
  - intros e' oh r He' Hoh Hk.
    destruct (Hfrom e' He') as (e & He & _ & _ & _ & Hh).
    apply Hrel in Hk.
    destruct (Hh oh Hoh) as [Hold|Hnew].
    + by apply (Hpw e oh r).
    + apply lookup_lt_Some in Hk. lia.
  - intros h sh Hsh. apply Hhandles in Hsh. specialize (Hrb h sh Hsh). lia.
  - intros e' He'.
    destruct (Hfrom e' He') as (e & He & _ & -> & _).
    rewrite Hsize. by apply Hib.
  - intros h r Hget e' He'.
    destruct (relations_db_get_inv _ _ _ _ Hget) as (sh & Hsh & Hs).
    apply Hhandles in Hsh. apply Hrel in Hs.
    pose proof (relations_db_get_stored _ _ h sh r Hsh Hs) as Hget0.
    unfold interests_against in He'.
    apply list_elem_of_In, filter_In in He' as [He' Hlive].
    apply list_elem_of_In in He'.
    destruct (Hfrom e' He') as (e & He & Hid & Hpos & Hrm & _).
    apply andb_true_iff in Hlive as [Hh Hr].
    apply negb_true_iff in Hr.
    destruct (Hio h r Hget0 e) as (member & Hin & Hnz & Hm).
    { unfold interests_against. apply list_elem_of_In, filter_In.
      split; [by apply list_elem_of_In|].
      rewrite <- Hpos, Hh. by rewrite (Hrm Hr). }
    exists member. split; [done|]. split; [done|]. congruence.
Qed.

Lemma registry_step_same (m m' : Manager) :
  m_stash m' = m_stash m ->
  m_relations_db m' = m_relations_db m ->
  m_members_db m' = m_members_db m ->
  registry_step m m'.
Proof.
  intros Hs Hr He. split; rewrite ?Hs, ?Hr, ?He; try done.
  intros e' He'. exists e'. repeat split; try done. by left.
Qed.

Lemma keeps_ret {A : Type} (P : Manager -> Prop) (a : A) : keeps P (ret a).
Proof. by intros m. Qed.

Lemma keeps_throw {A : Type} (P : Manager -> Prop) (e : exception) :
  keeps P (@throw A e).
Proof. by intros m. Qed.

Lemma keeps_get_manager (P : Manager -> Prop) : keeps P get_manager.
Proof. by intros m. Qed.

Lemma keeps_expect {A : Type} (P : Manager -> Prop) (o : option A) :
  keeps P (expect o).
Proof. destruct o; [apply keeps_ret | apply keeps_throw]. Qed.

Lemma keeps_bind {A B : Type} (P : Manager -> Prop) (c : M A)
    (k : A -> M B) :
  keeps P c -> (forall a, keeps P (k a)) -> keeps P (bind c k).
Proof.
  intros Hc Hk m Hm. unfold bind. specialize (Hc m Hm).
  destruct (outcome (c m)) as [e|a]; [done|]. by apply Hk.
Qed.

Lemma keeps_try_catch (P : Manager -> Prop) (body : M unit) :
  keeps P body -> keeps P (try_catch_invalid_location body).
Proof.
  intros Hb m Hm. unfold try_catch_invalid_location. specialize (Hb m Hm).
  by destruct (outcome (body m)) as [[| | |]|[]].
Qed.

Lemma keeps_step (f : Manager -> Manager) :
  (forall m, registry_ok m -> registry_step m (f m)) ->
  keeps registry_ok (modify f).
Proof.
  intros Hf m Hm. apply (registry_step_ok m); [done|]. by apply Hf.
Qed.

Lemma keeps_for_each {X : Type} (P : Manager -> Prop) (f : X -> M unit)
    (l : list X) :
  (forall x, x ∈ l -> keeps P (f x)) -> keeps P (for_each f l).
Proof.
  induction l as [|x rest IH]; intros Hf; simpl; [apply keeps_ret|].
  apply keeps_bind; [apply Hf, list_elem_of_here|].
  intros _. apply IH. intros y Hy. by apply Hf, list_elem_of_further.
Qed.

(** The closed-way path and the assembler calls touch the output and the
  statistics only. *)
Lemma keeps_after_assembler (call : assembler_call)
    (res : assembler_result) :
  keeps registry_ok
    (let* stats := run_assembler call res in
     stats_add stats ;; output_possibly_flush item_size).
Proof.
  apply keeps_bind.
  - intros m Hm. unfold run_assembler. destruct res as [e|out]; [done|].
    apply (registry_step_ok m); [done|]. by apply registry_step_same.
  - intros stats. apply keeps_bind; [|intros _];
      apply keeps_step; intros m _; by apply registry_step_same.
Qed.

Lemma keeps_assemble_way (way : Way.t) :
  keeps registry_ok (assemble_way_ way).
Proof.
  unfold assemble_way. destruct (_ <=? 3)%nat; [apply keeps_ret|].
  apply keeps_try_catch, keeps_bind.
  { destruct (_ || _); [apply keeps_throw | apply keeps_ret]. }
  intros _. destruct (Way.ends_have_same_location way); [|apply keeps_ret].
  destruct (TagList_.has_tag _ _ _); [apply keeps_ret|].
  destruct (tags.match_none_of _ _); [apply keeps_ret|].
  apply keeps_after_assembler.
Qed.

Lemma keeps_gather_ways (P : Manager -> Prop)
    (members : list RelationMember.t) :
  keeps P (gather_ways members).
Proof.
  induction members as [|member rest IH]; simpl; [apply keeps_ret|].
  destruct (negb _); [|exact IH].
  apply keeps_bind.
  - apply keeps_bind; [apply keeps_get_manager|]. intros m.
    apply keeps_expect.
  - intros w. apply keeps_bind; [exact IH|]. intros ways. apply keeps_ret.
Qed.

Lemma keeps_complete_relation (r : Relation.t) :
  keeps registry_ok (complete_relation_ r).
Proof.
  apply keeps_bind; [apply keeps_gather_ways|]. intros ways.
  apply keeps_try_catch, keeps_after_assembler.
Qed.

Lemma keeps_deref (P : Manager -> Prop)
    (h : RelationsDatabase.RelationHandle) :
  keeps P (deref h).
Proof.
  apply keeps_bind; [apply keeps_get_manager|]. intros m.
  apply keeps_expect.
Qed.

Lemma step_members_db_remove (id relation_id : object_id_type)
    (m : Manager) :
  registry_step m (final (members_db_remove id relation_id m)).
Proof.
  unfold members_db_remove, modify, set_stash_members,
    MembersDatabase.remove. cbn [final fst snd].
  set (hit := MembersDatabase.registered_by _ _ _ _).
  split; cbn [m_stash m_relations_db m_members_db
              MembersDatabase.m_elements].
  - destruct (existsb _ _); [done|]. by rewrite remove_items_length.
  - intros k r. destruct (existsb _ _); [done|]. apply remove_items_some.
  - done.
  - done.
  - intros e' He'.
    apply list_elem_of_In, in_map_iff in He' as (e & <- & He).
    apply list_elem_of_In in He. exists e. split; [done|].
    destruct (hit e); simpl; repeat split; try done; intros; by left.
Qed.

Lemma step_rel_handle_remove (h : RelationsDatabase.RelationHandle)
    (m : Manager) :
  registry_step m (final (rel_handle_remove h m)).
Proof.
  unfold rel_handle_remove, modify, RelationsDatabase.remove.
  cbn [final].
  destruct (m_relations_db m !! h) as [e|] eqn:He;
    [|by apply registry_step_same].
  split; cbn [m_stash m_relations_db m_members_db].
  - destruct (RelationsDatabase.handle e); [|done].
    unfold ItemStash.remove_item. by rewrite length_insert.
  - intros k r. destruct (RelationsDatabase.handle e) as [sh|]; [|done].
    unfold ItemStash.remove_item. intros Hk.
    destruct (decide (sh = k)) as [<-|Hne].
    + destruct (decide (sh < length (m_stash m))%nat).
      * by rewrite list_lookup_insert_eq in Hk.
      * by rewrite list_insert_ge in Hk by lia.
    + by rewrite list_lookup_insert_ne in Hk.
  - by rewrite length_insert.
  - intros h' sh. destruct (decide (h = h')) as [<-|Hne].
    + rewrite list_lookup_insert_eq by (by eapply lookup_lt_Some). done.
    + by rewrite list_lookup_insert_ne.
  - intros e' He'. exists e'. repeat split; try done. by left.
Qed.

Lemma step_decrement_members (pos : RelationsDatabase.RelationHandle)
    (m : Manager) :
  registry_step m
    (mk_Manager (m_stash m)
       (RelationsDatabase.decrement_members (m_relations_db m) pos)
       (m_members_db m) (m_output m) (m_stats m)).
Proof.
  split; cbn [m_stash m_relations_db m_members_db]; try done.
  - unfold RelationsDatabase.decrement_members.
    destruct (m_relations_db m !! pos); [|done]. by rewrite length_insert.
  - intros h sh. by rewrite decrement_members_handle.
  - intros e' He'. exists e'. repeat split; try done. by left.
Qed.

Lemma keeps_remove_members (r : Relation.t) :
  keeps registry_ok (remove_members r).
Proof.
  unfold remove_members. generalize (Relation.id r). intros rid.
  induction (Relation.members r) as [|member rest IH]; simpl;
    [apply keeps_ret|].
  apply keeps_bind; [|intros _; exact IH].
  destruct (negb _); [|apply keeps_ret].
  intros m Hm. apply (registry_step_ok m); [done|].
  apply step_members_db_remove.
Qed.

Lemma keeps_on_complete (h : RelationsDatabase.RelationHandle) :
  keeps registry_ok (on_complete_ h).
Proof.
  apply keeps_bind.
  { apply keeps_bind; [apply keeps_deref|].
    intros r. apply keeps_complete_relation. }
  intros _. apply keeps_bind.
  { apply keeps_bind; [apply keeps_deref|].
    intros r. apply keeps_remove_members. }
  intros _ m Hm. apply (registry_step_ok m); [done|].
  apply step_rel_handle_remove.
Qed.

Lemma keeps_members_db_notify (range : list nat)
    (func : RelationsDatabase.RelationHandle -> M unit) :
  (forall h, keeps registry_ok (func h)) ->
  keeps registry_ok (members_db_notify range func).
Proof.
  intros Hf. induction range as [|i rest IH]; simpl; [apply keeps_ret|].
  apply keeps_bind; [apply keeps_get_manager|]. intros m.
  apply keeps_bind; [apply keeps_expect|]. intros elem.
  apply keeps_bind.
  { apply keeps_step. intros m' _. apply step_decrement_members. }
  intros _. apply keeps_bind; [apply keeps_get_manager|]. intros m'.
  apply keeps_bind; [|intros _; exact IH].
  destruct (RelationsDatabase.has_all_members _ _);
    [apply Hf | apply keeps_ret].
Qed.

(** Storing the way and attaching its handle to the matching interests. *)
Lemma step_store_way (way : Way.t) (m : Manager) :
  let attach e :=
    if MembersDatabase.is_live (Way.id way) e then
      MembersDatabase.mk_element
        (MembersDatabase.member_id e) (MembersDatabase.relation_pos e)
        (MembersDatabase.member_num e) (Some (length (m_stash m)))
        (MembersDatabase.removed e)
    else e in
  registry_step m
    (mk_Manager (m_stash m ++ [Some (ItemStash.item_way way)])
       (m_relations_db m)
       (MembersDatabase.mk
          (map attach (MembersDatabase.m_elements (m_members_db m)))
          (MembersDatabase.m_init_phase (m_members_db m)))
       (m_output m) (m_stats m)).
Proof.
  intros attach.
  split; cbn [m_stash m_relations_db m_members_db
              MembersDatabase.m_elements]; try done.
  - rewrite length_app. simpl. lia.
  - intros k r Hk.
    destruct (decide (k < length (m_stash m))%nat) as [Hlt|Hge].
    + by rewrite lookup_app_l in Hk.
    + rewrite lookup_app_r in Hk by lia.
      destruct (k - length (m_stash m))%nat as [|n]; simpl in Hk; [|done].
      by injection Hk.
  - intros e' He'.
    apply list_elem_of_In, in_map_iff in He' as (e & <- & He).
    apply list_elem_of_In in He. exists e. split; [done|].
    subst attach. simpl.
    destruct (MembersDatabase.is_live (Way.id way) e); simpl;
      repeat split; try done.
    + intros oh [= <-]. right. rewrite length_app. simpl. lia.
    + intros; by left.
Qed.

Lemma keeps_members_db_add (way : Way.t)
    (func : RelationsDatabase.RelationHandle -> M unit) :
  (forall h, keeps registry_ok (func h)) ->
  keeps registry_ok (members_db_add way func).
Proof.
  intros Hf. apply keeps_bind; [apply keeps_get_manager|]. intros m0.
  destruct (MembersDatabase.find _ _) as [|i range]; [apply keeps_ret|].
  apply keeps_bind.
  { apply keeps_step. intros m _. apply step_store_way. }
  intros _. apply keeps_bind; [by apply keeps_members_db_notify|].
  intros _. apply keeps_ret.
Qed.

Lemma keeps_member_way (way : Way.t) :
  keeps registry_ok (member_way_ way).
Proof.
  apply keeps_bind.
  - apply keeps_members_db_add, keeps_on_complete.
  - intros _. apply keeps_assemble_way.
Qed.

Lemma elem_of_insert_sorted (e x : MembersDatabase.element)
    (l : list MembersDatabase.element) :
  x ∈ MembersDatabase.insert_sorted e l <-> x = e \/ x ∈ l.
Proof.
  induction l as [|y rest IH]; simpl.
  - rewrite list_elem_of_singleton. split; [by left|].
    intros [->|H]; [done|]. by apply elem_of_nil in H.
  - destruct (_ <=? _).
    + by rewrite elem_of_cons.
    + rewrite !elem_of_cons, IH. tauto.
Qed.

Lemma elem_of_sorted (x : MembersDatabase.element)
    (l : list MembersDatabase.element) :
  x ∈ foldr MembersDatabase.insert_sorted [] l <-> x ∈ l.
Proof.
  induction l as [|y rest IH]; simpl; [done|].
  rewrite elem_of_insert_sorted, elem_of_cons, IH. tauto.
Qed.

Lemma keeps_prepare : keeps registry_ok prepare.
Proof.
  apply keeps_step. intros m _.
  split; cbn [m_stash m_relations_db m_members_db
              MembersDatabase.m_elements MembersDatabase.prepare];
    try done.
  intros e' He'. apply (proj1 (elem_of_sorted _ _)) in He'.
  exists e'. split; [exact He'|]. repeat split; try done. by left.
Qed.

(** Pass 1 writes to the stash only at the slot of the relation it stores
  and keeps the handles of the relations database. *)
Lemma walk_members_frame (h : RelationsDatabase.RelationHandle)
    (sh : ItemStash.handle_type) :
  forall (rest : list RelationMember.t) (n : nat) (m : Manager),
    (m_relations_db m !! h) ≫= RelationsDatabase.handle = Some sh ->
    let m' := final (walk_members h n rest m) in
    length (m_stash m') = length (m_stash m)
    /\ (forall k, k ≠ sh -> m_stash m' !! k = m_stash m !! k)
    /\ length (m_relations_db m') = length (m_relations_db m)
    /\ (forall k, (m_relations_db m' !! k) ≫= RelationsDatabase.handle
                  = (m_relations_db m !! k) ≫= RelationsDatabase.handle).
Proof.
  induction rest as [|member rest IH]; intros n m Hh; [done|].
  cbn [walk_members].
  set (step := if item_type.eqb (RelationMember.type member) item_type.way
               then members_db_track h (RelationMember.ref member) n
               else member_set_ref h n 0).
  assert (Hstep :
    length (m_stash (final (step m))) = length (m_stash m)
    /\ (forall k, k ≠ sh -> m_stash (final (step m)) !! k = m_stash m !! k)
    /\ length (m_relations_db (final (step m))) = length (m_relations_db m)
    /\ (forall k,
          (m_relations_db (final (step m)) !! k) ≫= RelationsDatabase.handle
          = (m_relations_db m !! k) ≫= RelationsDatabase.handle)).
  { subst step. destruct (item_type.eqb _ _).
    - unfold members_db_track, modify, MembersDatabase.track.
      cbn [final m_stash m_relations_db].
      split; [done|]. split; [done|]. split.
      + unfold RelationsDatabase.increment_members.
        destruct (m_relations_db m !! h); [|done]. by rewrite length_insert.
      + intros k. apply increment_members_handle.
    - unfold member_set_ref, deref, bind, get_manager, expect.
      cbn [outcome final trace].
      destruct (RelationsDatabase.get _ _ h) as [r|]; [|done].
      unfold modify, ret. cbn [outcome final m_stash m_relations_db].
      unfold RelationsDatabase.set. rewrite Hh.
      split; [by rewrite length_insert|]. split; [|done].
      intros k Hk. by rewrite list_lookup_insert_ne. }
  destruct Hstep as (Hl1 & Hs1 & Hr1 & Hh1).
  unfold bind. destruct (outcome (step m)) as [e|[]]; cbn [final]; [done|].
  destruct (IH (S n) (final (step m))) as (Hl2 & Hs2 & Hr2 & Hh2).
  { by rewrite Hh1. }
  split; [congruence|]. split; [|split; [congruence|]].
  - intros k Hk. by rewrite Hs2, Hs1.
  - intros k. by rewrite Hh2, Hh1.
Qed.

Lemma elem_of_interests_of (h : RelationsDatabase.RelationHandle)
    (e : MembersDatabase.element) :
  forall (members : list RelationMember.t) (n : nat),
    e ∈ interests_of h n members ->
    MembersDatabase.object_handle e = None
    /\ MembersDatabase.relation_pos e = h
    /\ exists member, member ∈ members
         /\ RelationMember.type member = item_type.way
         /\ MembersDatabase.member_id e = RelationMember.ref member.
Proof.
  induction members as [|member rest IH]; intros n He; simpl in He.
  { by apply elem_of_nil in He. }
  apply elem_of_app in He as [He|He].
  - destruct (item_type.eqb _ _) eqn:Hway; [|by apply elem_of_nil in He].
    apply list_elem_of_singleton in He as ->. simpl.
    split; [done|]. split; [done|]. exists member.
    split; [apply list_elem_of_here|]. split; [|done].
    by apply bool_decide_eq_true in Hway.
  - destruct (IH _ He) as (? & ? & member' & Hin & ? & ?).
    split; [done|]. split; [done|]. exists member'.
    split; [by apply list_elem_of_further | done].
Qed.

Lemma keeps_relation (r : Relation.t) :
  way_members_nonzero r -> keeps registry_ok (relation m_filter r).
Proof.
  intros Hnz m [Hpb Hpw Hrb Hib Hio]. unfold relation.
  destruct (keep_relation m_filter r); [|by split].
  set (h := length (m_relations_db m)).
  set (sh := length (m_stash m)).
  set (m1 := mk_Manager
               (m_stash m ++ [Some (ItemStash.item_relation r)])
               (m_relations_db m
                ++ [RelationsDatabase.mk_element (Some sh) 0])
               (m_members_db m) (m_output m) (m_stats m)).
  assert (Hadd : relations_db_add r m = mk_result (inr h) m1 [])
    by reflexivity.
  assert (Hh : (m_relations_db m1 !! h) ≫= RelationsDatabase.handle
               = Some sh).
  { subst m1 h. simpl. by rewrite list_lookup_middle. }
  assert (Hs : m_stash m1 !! sh
               = Some (Some (ItemStash.item_relation r))).
  { subst m1 sh. simpl. by rewrite list_lookup_middle. }
  rewrite (bind_result _ _ m h m1 [] Hadd). cbn [final].
  rewrite (bind_result _ _ m1 r m1 []).
  2: { apply deref_stored. by apply (relations_db_get_stored _ _ h sh). }
  cbn [final].
  destruct r as [rid rtags members].
  cbn [Relation.members Relation.id Relation.tags] in *.
  destruct (walk_members_spec h sh rid rtags members [] m1 Hh Hs)
    as (_ & _ & Hh' & Hs' & He & _).
  destruct (walk_members_frame h sh members 0 m1 Hh)
    as (Hlen & Hframe & Hrlen & Hhandles).
  change (length []) with 0%nat in *. simpl in Hs', He.
  set (mf := final (walk_members h 0 members m1)) in *.
  assert (Hlen1 : length (m_stash m1) = S sh)
    by (subst m1 sh; simpl; rewrite length_app; simpl; lia).
  assert (Hrlen1 : length (m_relations_db m1) = S h)
    by (subst m1 h; simpl; rewrite length_app; simpl; lia).
  assert (Hold_stash : forall k, (k < sh)%nat ->
                                 m_stash mf !! k = m_stash m !! k).
  { intros k Hk. rewrite Hframe by lia. subst m1. simpl.
    by rewrite lookup_app_l. }
  assert (Hold_handle : forall k s,
    (m_relations_db mf !! k) ≫= RelationsDatabase.handle = Some s ->
    k = h /\ s = sh
    \/ (k < h)%nat
       /\ (m_relations_db m !! k) ≫= RelationsDatabase.handle = Some s).
  { intros k s. rewrite Hhandles.
    destruct (decide (k = h)) as [->|Hne].
    - rewrite Hh. intros [= <-]. by left.
    - intros Hk. right. subst m1. simpl in Hk.
      destruct (decide (k < h)%nat) as [Hlt|Hge].
      + split; [done|]. by rewrite lookup_app_l in Hk.
      + rewrite lookup_app_r in Hk by (subst h; lia).
        destruct (k - length (m_relations_db m))%nat as [|j] eqn:Hj;
          [subst h; lia | done]. }
  change (m_members_db m1) with (m_members_db m) in He.
  split.
  - intros e oh Hin Hoh. rewrite He in Hin. rewrite Hlen, Hlen1.
    apply elem_of_app in Hin as [Hin|Hin].
    + specialize (Hpb e oh Hin Hoh). fold sh in Hpb. lia.
    + apply elem_of_interests_of in Hin as (Hnone & _). congruence.
  - intros e oh r' Hin Hoh. rewrite He in Hin.
    apply elem_of_app in Hin as [Hin|Hin].
    + pose proof (Hpb e oh Hin Hoh) as Hlt. fold sh in Hlt.
      rewrite Hold_stash by done. by apply (Hpw e oh r').
    + apply elem_of_interests_of in Hin as (Hnone & _). congruence.
  - intros k s Hk. rewrite Hlen, Hlen1.
    destruct (Hold_handle k s Hk) as [[_ ->]|[_ Hk0]]; [lia|].
    specialize (Hrb k s Hk0). fold sh in Hrb. lia.
  - intros e Hin. rewrite He in Hin. rewrite Hrlen, Hrlen1.
    apply elem_of_app in Hin as [Hin|Hin].
    + specialize (Hib e Hin). fold h in Hib. lia.
    + apply elem_of_interests_of in Hin as (_ & -> & _). lia.
  - intros k r' Hget e Hin.
    destruct (relations_db_get_inv _ _ _ _ Hget) as (s & Hk & Hsk).
    unfold interests_against in Hin.
    apply list_elem_of_In, filter_In in Hin as [Hin Hlive].
    apply list_elem_of_In in Hin. rewrite He in Hin.
    apply andb_true_iff in Hlive as [Hpos Hrm].
    apply Nat.eqb_eq in Hpos.
    destruct (Hold_handle k s Hk) as [[-> ->]|[Hlt Hk0]].
    + (* the relation just stored *)
      rewrite Hs' in Hsk. injection Hsk as <-.
      cbn [Relation.members].
      apply elem_of_app in Hin as [Hin|Hin].
      { specialize (Hib e Hin). fold h in Hib. lia. }
      apply elem_of_interests_of in Hin
        as (_ & _ & member & Hmem & Hway & Hid).
      exists member. split; [|split; [by apply Hnz | done]].
      apply list_elem_of_In, in_map_iff. exists member.
      split; [|by apply list_elem_of_In].
      unfold zero_unless_way, item_type.eqb.
      by rewrite bool_decide_eq_true_2.
    + (* a relation stored before *)
      pose proof (Hrb k s Hk0) as Hslt. fold sh in Hslt.
      rewrite Hold_stash in Hsk by done.
      pose proof (relations_db_get_stored _ _ k s r' Hk0 Hsk) as Hget0.
      apply elem_of_app in Hin as [Hin|Hin].
      * apply (Hio k r' Hget0 e). unfold interests_against.
        apply list_elem_of_In, filter_In.
        split; [by apply list_elem_of_In|].
        by rewrite Hpos, Nat.eqb_refl, Hrm.
      * apply elem_of_interests_of in Hin as (_ & Hpos' & _). lia.
Qed.

Lemma registry_ok_new (max_buffer_size : nat) :
  registry_ok (Manager_new max_buffer_size).
Proof.
  split; simpl.
  - intros e oh He. by apply elem_of_nil in He.
  - intros e oh r He. by apply elem_of_nil in He.
  - done.
  - intros e He. by apply elem_of_nil in He.
  - done.
Qed.

End ManagerProperties.

(** ** Concrete runs *)

(** C1, as stated, fails in both directions: a multipolygon relation whose
  tags satisfy the filter but which has no way member is not kept, and a
  relation is kept although only its type tag satisfies the filter. *)
Lemma keep_relation_counterexample :
  ~ (keep_relation TagsFilter_default Examples.relation9 = true <->
     spec_keep_relation TagsFilter_default Examples.relation9 = true)
  /\ ~ (keep_relation Examples.type_filter Examples.relation8 = true <->
        spec_keep_relation Examples.type_filter Examples.relation8 = true).
Proof.
  split.
  - intros [_ H]. specialize (H eq_refl). vm_compute in H. discriminate.
  - intros [H _]. specialize (H eq_refl). vm_compute in H. discriminate.
Qed.

(** C2, as stated, fails.  The way 44 meets every condition of the claim
  and the assembler is invoked, but no Area is emitted: the assembler
  raises [invalid_location] for a node ref without location.  The way
  45 is tagged area=no, by its second area tag, and still produces a
  closed-way Area: [has_tag] looks at the value the tag list yields for
  the key, area=yes. *)
Lemma assemble_way_counterexample :
  let run way :=
    assemble_way Examples.ring_assembler tt TagsFilter_default
                 Examples.unit_size way (Manager_new 1000) in
  (spec_way_qualifies TagsFilter_default Examples.way_hole = true
   /\ call_way Examples.way_hole ∈ trace (run Examples.way_hole)
   /\ output_stream (final (run Examples.way_hole)) = [])
  /\ (mkTag "area" "no" ∈ Way.tags Examples.way_area_twice
      /\ spec_way_qualifies TagsFilter_default Examples.way_area_twice
         = false
      /\ map Area.id (output_stream (final (run Examples.way_area_twice)))
         = [90]).
Proof.
  cbv zeta. split; [split; [|split]|split; [|split]].
  - reflexivity.
  - apply list_elem_of_here.
  - reflexivity.
  - apply list_elem_of_further, list_elem_of_here.
  - reflexivity.
  - reflexivity.
Qed.

(** The closed way 42 reaches the assembler and its Area is appended to
  the output; the closed way tagged area=no does not reach the
  assembler, and leaves the manager as it was. *)
Lemma assemble_way_invokes_assembler_iff_witness :
  call_way Examples.way42
    ∈ trace (assemble_way Examples.ring_assembler tt TagsFilter_default
               Examples.unit_size Examples.way42 (Manager_new 1000))
  /\ output_stream
       (final (assemble_way Examples.ring_assembler tt TagsFilter_default
                 Examples.unit_size Examples.way42 (Manager_new 1000)))
     = output_stream (Manager_new 1000)
       ++ [Area.mk 84 [mkTag "building" "yes"] [(Examples.square 1, [])]]
  /\ TagList_.has_tag (Way.tags Examples.way_area_no) "area" "no" = true
  /\ assemble_way Examples.ring_assembler tt TagsFilter_default
       Examples.unit_size Examples.way_area_no (Manager_new 1000)
     = mk_result (inr tt) (Manager_new 1000) [].
Proof.
  split; [|split; [|split]].
  - apply (proj1 (assemble_way_invokes_assembler_iff
                    Examples.ring_assembler tt TagsFilter_default
                    Examples.unit_size Examples.way42 (Manager_new 1000))).
    repeat split; try reflexivity.
    + simpl. lia.
    + exists (mkTag "building" "yes"). split; [|reflexivity].
      apply list_elem_of_here.
  - apply (proj1 (proj2 (proj2 (assemble_way_invokes_assembler_iff
                    Examples.ring_assembler tt TagsFilter_default
                    Examples.unit_size Examples.way42 (Manager_new 1000))))
             (mk_assembler_output
                [Area.mk 84 [mkTag "building" "yes"]
                         [(Examples.square 1, [])]]
                (area_stats.mk 1 1 0 0)));
      reflexivity.
  - reflexivity.
  - apply (proj2 (proj2 (proj2 (assemble_way_invokes_assembler_iff
                           Examples.ring_assembler tt TagsFilter_default
                           Examples.unit_size Examples.way_area_no
                           (Manager_new 1000))))).
    reflexivity.
Defined.

(** C4, as stated, fails: the way 20 qualifies for closed-way assembly and
  completes the relation 8; the Area of the relation is written first,
  the closed-way Area of the way second. *)
Lemma closed_way_area_not_first :
  let res := Examples.second_pass Examples.way20
               (Examples.after_pass1 [Examples.relation8]) in
  way_qualifies TagsFilter_default Examples.way20 = true
  /\ trace res = [call_relation Examples.relation8 [Examples.way20];
                  call_way Examples.way20]
  /\ output_stream (final res)
     = [Examples.area_of_relation8; Examples.area_of_way20]
  /\ Area.from_way Examples.area_of_way20 = true
  /\ Area.from_way Examples.area_of_relation8 = false
  /\ ~ precedes Examples.area_of_way20 Examples.area_of_relation8
         (output_stream (final res)).
Proof.
  assert (Hout : output_stream
                   (final (Examples.second_pass Examples.way20
                             (Examples.after_pass1 [Examples.relation8])))
                 = [Examples.area_of_relation8; Examples.area_of_way20])
    by (vm_compute; reflexivity).
  cbv zeta. rewrite Hout.
  split; [reflexivity|]. split; [vm_compute; reflexivity|].
  split; [reflexivity|]. split; [reflexivity|]. split; [reflexivity|].
  intros (i & j & Hlt & Hi & Hj).
  destruct i as [|[|i]]; destruct j as [|[|j]]; simpl in Hi, Hj;
    try lia; discriminate.
Qed.

(** C5, as stated, fails: the assembler raises [invalid_location] for the
  closed way 44, the manager catches it and returns normally, and the
  statistics are what they were: no counter has been incremented. *)
Lemma invalid_location_not_counted :
  let m := Manager_new 1000 in
  let res := assemble_way Examples.ring_assembler tt TagsFilter_default
               Examples.unit_size Examples.way_hole m in
  assemble_closed_way Examples.ring_assembler tt Examples.way_hole
    = inl (invalid_location "invalid location")
  /\ trace res = [call_way Examples.way_hole]
  /\ outcome res = inr tt
  /\ m_stats (final res) = m_stats m
  /\ ~ (area_stats.invalid_locations (m_stats m)
        < area_stats.invalid_locations (m_stats (final res)))%nat
  /\ ~ (area_stats.assembler_failures (m_stats m)
        < area_stats.assembler_failures (m_stats (final res)))%nat.
Proof.
  cbv zeta. split; [reflexivity|]. split; [reflexivity|].
  split; [reflexivity|]. split; [reflexivity|].
  split; intros H; vm_compute in H; inversion H.
Qed.

(** The amended C5 at the closed way 44. *)
Lemma invalid_location_is_swallowed_witness :
  way_qualifies TagsFilter_default Examples.way_hole = true
  /\ assemble_closed_way Examples.ring_assembler tt Examples.way_hole
     = inl (invalid_location "invalid location")
  /\ assemble_way Examples.ring_assembler tt TagsFilter_default
       Examples.unit_size Examples.way_hole (Manager_new 1000)
     = mk_result (inr tt) (Manager_new 1000) [call_way Examples.way_hole].
Proof.
  split; [reflexivity|]. split; [reflexivity|].
  apply (proj1 (invalid_location_is_swallowed Examples.ring_assembler tt
                  TagsFilter_default Examples.unit_size)
           Examples.way_hole (Manager_new 1000) "invalid location");
    reflexivity.
Defined.

(** Pass 1 on the relation 7 of the scenario "simple multipolygon". *)
Lemma relation_registers_interests_witness :
  keep_relation TagsFilter_default Examples.relation7 = true
  /\ let res := relation TagsFilter_default Examples.relation7
                  (Manager_new 1000) in
     RelationsDatabase.get (m_stash (final res)) (m_relations_db (final res))
                           0
     = Some Examples.stored_relation7
     /\ MembersDatabase.m_elements (m_members_db (final res))
        = [MembersDatabase.mk_element 10 0 0 None false;
           MembersDatabase.mk_element 11 0 2 None false].
Proof.
  split; [reflexivity|].
  pose proof (relation_registers_interests TagsFilter_default
                Examples.relation7 (Manager_new 1000) eq_refl)
    as (_ & Hstored & Helements & _).
  split; [exact Hstored | exact Helements].
Defined.


(** ** The scenarios of the specification, run on the embedding *)

(** Single closed way: one Area with id 84, built from a way. *)
Example scenario_single_closed_way :
  let res := Examples.run [] [Examples.way42] in
  outcome res = inr tt
  /\ output_stream (final res)
     = [Area.mk 84 [mkTag "building" "yes"] [(Examples.square 1, [])]]
  /\ map Area.from_way (output_stream (final res)) = [true]
  /\ map Area.orig_id (output_stream (final res)) = [42].
Proof. vm_compute. done. Qed.

(** Simple multipolygon: one Area with id 15 = 7 * 2 + 1, built from the
  relation and its two ways; the relation is released. *)
Example scenario_simple_multipolygon :
  let res := Examples.run [Examples.relation7]
               [Examples.way10; Examples.way11] in
  outcome res = inr tt
  /\ map Area.id (output_stream (final res)) = [15]
  /\ map Area.from_way (output_stream (final res)) = [false]
  /\ RelationsDatabase.get (m_stash (final res))
                           (m_relations_db (final res)) 0 = None.
Proof. vm_compute. done. Qed.

(** area=no suppression: no Area and no statistics. *)
Example scenario_area_no :
  let res := Examples.run [] [Examples.way_area_no] in
  outcome res = inr tt
  /\ output_stream (final res) = []
  /\ stats (final res) = area_stats.zero.
Proof. vm_compute. done. Qed.

(** Incomplete relation: the way 11 never appears; no Area is written and
  the relation stays in the relations database. *)
Example scenario_incomplete_relation :
  let res := Examples.run [Examples.relation7] [Examples.way10] in
  outcome res = inr tt
  /\ output_stream (final res) = []
  /\ RelationsDatabase.get (m_stash (final res))
                           (m_relations_db (final res)) 0
     = Some Examples.stored_relation7.
Proof. vm_compute. done. Qed.

(** Shared way completing two relations: the Area of the relation that
  registered first comes first. *)
Example scenario_shared_way :
  let res := Examples.run [Examples.relation_A; Examples.relation_B]
               [Examples.way5] in
  outcome res = inr tt
  /\ map Area.id (output_stream (final res)) = [3; 5].
Proof. vm_compute. done. Qed.

(** An assembler failure that is not [invalid_location] leaves the manager
  through [member_way]: the completion closure is left at the assembler
  call, before the interests are removed and the handle is released, and
  the closed-way path is not reached. *)
Example scenario_other_exception :
  let res := member_way Examples.failing_assembler tt TagsFilter_default
               Examples.unit_size Examples.way20
               (Examples.after_pass1 [Examples.relation8]) in
  outcome res = inl (other_exception "bad_alloc")
  /\ trace res = [call_relation Examples.relation8 [Examples.way20]]
  /\ output_stream (final res) = []
  /\ RelationsDatabase.get (m_stash (final res))
                           (m_relations_db (final res)) 0
     = Some Examples.relation8
  /\ length (interests_against (final res) 0) = 1%nat.
Proof. vm_compute. done. Qed.

(** * Further properties of the code *)

(** ** Area ids, both directions *)

Lemma area_id_of_parts (id : object_id_type) (t : item_type.t) :
  id_in_range id ->
  let b := if item_type.eqb t item_type.relation then 1 else 0 in
  Z.abs (object_id_to_area_id id t) = Z.abs id * 2 + b
  /\ Z.quot (object_id_to_area_id id t) 2 = id.
Proof.
  intros Hr b. rewrite object_id_to_area_id_closed_form by done. fold b.
  assert (Hb : 0 <= b < 2) by (subst b; case_match; lia).
  split.
  - unfold signed_like. destruct (id <? 0); lia.
  - rewrite quot2_signed by lia.
    unfold signed_like. destruct (Z.ltb_spec id 0); lia.
Qed.

(** X1.  The area id is unique: two objects with ids in range get the same
  area id only if they have the same id and are both ways or both
  relations. *)
Theorem area_id_unique (id1 id2 : object_id_type) (t1 t2 : item_type.t) :
  id_in_range id1 -> id_in_range id2 ->
  t1 = item_type.way \/ t1 = item_type.relation ->
  t2 = item_type.way \/ t2 = item_type.relation ->
  object_id_to_area_id id1 t1 = object_id_to_area_id id2 t2 ->
  id1 = id2 /\ t1 = t2.
Proof.
  intros Hr1 Hr2 Ht1 Ht2 Heq.
  destruct (area_id_of_parts id1 t1 Hr1) as [Ha1 Hq1].
  destruct (area_id_of_parts id2 t2 Hr2) as [Ha2 Hq2].
  rewrite Heq in Ha1, Hq1.
  assert (Hid : id1 = id2) by congruence. split; [done|]. subst id2.
  rewrite Ha1 in Ha2.
  destruct Ht1 as [-> | ->], Ht2 as [-> | ->]; try done;
    cbv [item_type.eqb] in Ha2; repeat case_bool_decide; try done; lia.
Qed.

Lemma area_id_unique_witness :
  object_id_to_area_id (-7) item_type.relation = -15
  /\ (-7 = -7 /\ item_type.relation = item_type.relation).
Proof.
  split; [reflexivity|].
  apply (area_id_unique (-7) (-7) item_type.relation item_type.relation).
  - unfold id_in_range. lia.
  - unfold id_in_range. lia.
  - by right.
  - by right.
  - reflexivity.
Defined.

(** X2.  Decoding an area id and encoding it again gives the area id back,
  for every area id except -1 (and the least 64-bit integer): the id is
  [area_id_to_object_id], the type is read off [from_way].  The area id
  -1 decodes to the relation 0, whose area id is 1; no object with an id
  in range has the area id -1. *)
Theorem area_id_decode_encode (a : Area.t) :
  int64_min < Area.id a <= int64_max ->
  Area.id a ≠ -1 ->
  id_in_range (Area.orig_id a)
  /\ object_id_to_area_id (Area.orig_id a)
       (if Area.from_way a then item_type.way else item_type.relation)
     = Area.id a.
Proof.
  unfold int64_min, int64_max. intros Hrange Hne.
  unfold Area.orig_id, area_id_to_object_id, Area.from_way,
    Area.positive_id, abs64, to_uint64.
  set (x := Area.id a) in *.
  rewrite (wrap64_small (Z.abs x))
    by (unfold int64_min, int64_max; lia).
  rewrite Z.mod_small by lia. rewrite land_1_mod.
  assert (Hq : Z.quot x 2 = signed_like x (Z.abs x / 2)).
  { unfold signed_like. destruct (Z.ltb_spec x 0).
    - replace x with (- Z.abs x) at 1 by lia.
      rewrite Z.quot_opp_l by lia. by rewrite Z.quot_div_nonneg by lia.
    - replace x with (Z.abs x) at 1 by lia.
      by rewrite Z.quot_div_nonneg by lia. }
  pose proof (Z.div_mod (Z.abs x) 2 ltac:(lia)) as Hdm.
  pose proof (Z.mod_pos_bound (Z.abs x) 2 ltac:(lia)) as Hm.
  assert (Hin : id_in_range (Z.quot x 2)).
  { rewrite Hq. unfold id_in_range, signed_like.
    destruct (x <? 0); lia. }
  split; [exact Hin|].
  rewrite object_id_to_area_id_closed_form by done.
  rewrite Hq. unfold signed_like.
  destruct (Z.eqb_spec (Z.abs x mod 2) 0) as [H0|H1].
  - change (item_type.eqb item_type.way item_type.relation) with false.
    cbv iota. destruct (Z.ltb_spec x 0);
      [destruct (Z.ltb_spec (- (Z.abs x / 2)) 0)
      |destruct (Z.ltb_spec (Z.abs x / 2) 0)]; lia.
  - change (item_type.eqb item_type.relation item_type.relation) with true.
    cbv iota. destruct (Z.ltb_spec x 0);
      [destruct (Z.ltb_spec (- (Z.abs x / 2)) 0)
      |destruct (Z.ltb_spec (Z.abs x / 2) 0)]; lia.
Qed.

Lemma area_id_decode_encode_witness :
  object_id_to_area_id (Area.orig_id (Area.mk (-15) [] []))
    (if Area.from_way (Area.mk (-15) [] [])
     then item_type.way else item_type.relation) = -15.
Proof.
  apply (area_id_decode_encode (Area.mk (-15) [] [])).
  - unfold int64_min, int64_max. simpl. lia.
  - simpl. lia.
Defined.

(** X3.  No object with an id in range has the area id -1, and the area id
  is negative exactly for a negative id, zero exactly for the way 0. *)
Theorem area_id_sign (id : object_id_type) (t : item_type.t) :
  id_in_range id ->
  t = item_type.way \/ t = item_type.relation ->
  object_id_to_area_id id t ≠ -1
  /\ (object_id_to_area_id id t < 0 <-> id < 0)
  /\ (object_id_to_area_id id t = 0 <-> id = 0 /\ t = item_type.way).
Proof.
  intros Hr Ht. rewrite object_id_to_area_id_closed_form by done.
  unfold signed_like.
  destruct Ht as [-> | ->]; cbv [item_type.eqb];
    case_bool_decide; try done;
    destruct (Z.ltb_spec id 0); repeat split; try lia;
    intros; try lia; intuition (try lia; try discriminate).
Qed.

Lemma area_id_sign_witness :
  object_id_to_area_id 0 item_type.relation ≠ -1.
Proof.
  apply (area_id_sign 0 item_type.relation).
  - unfold id_in_range. lia.
  - by right.
Defined.

(** ** The rings of an Area *)

Lemma size_t_incr_iter (a k : Z) :
  0 <= k -> size_t_incr ((a + k) mod 2 ^ 64) = (a + (k + 1)) mod 2 ^ 64.
Proof.
  intros Hk. unfold size_t_incr.
  rewrite Z.add_mod_idemp_l by lia. f_equal. lia.
Qed.

Lemma num_rings_loop_counts (ndebug : bool) (items : list Item.t) :
  ndebug = true \/ forallb area_child items = true ->
  forall a b ka kb : Z,
    0 <= ka -> 0 <= kb ->
    num_rings_loop ndebug items
      ((a + ka) mod 2 ^ 64, (b + kb) mod 2 ^ 64)
    = Some
        ((a + (ka + Z.of_nat
                      (length (items_of_type item_type.outer_ring items))))
           mod 2 ^ 64,
         (b + (kb + Z.of_nat
                      (length (items_of_type item_type.inner_ring items))))
           mod 2 ^ 64).
Proof.
  induction items as [|item rest IH]; intros Hok a b ka kb Hka Hkb.
  { simpl. by rewrite !Z.add_0_r. }
  assert (Hrest : ndebug = true \/ forallb area_child rest = true).
  { destruct Hok as [Hn|Hall]; [by left|]. right.
    simpl in Hall. by apply andb_true_iff in Hall as [_ Hall]. }
  assert (Hitem : ndebug = true \/ area_child item = true).
  { destruct Hok as [Hn|Hall]; [by left|]. right.
    simpl in Hall. by apply andb_true_iff in Hall as [Hall _]. }
  specialize (IH Hrest).
  cbn [num_rings_loop items_of_type List.filter fst snd].
  fold (items_of_type item_type.outer_ring rest).
  fold (items_of_type item_type.inner_ring rest).
  unfold area_child in Hitem.
  destruct (Item.type item); cbn [item_type.eqb];
    rewrite ?size_t_incr_iter by done;
    try (destruct Hitem as [->|Hitem]; [|discriminate Hitem]);
    try (rewrite IH by lia);
    unfold item_type.eqb; repeat case_bool_decide; try done;
    cbn [length]; do 2 f_equal; f_equal; lia.
Qed.

Lemma num_rings_loop_aborts (items : list Item.t) :
  forallb area_child items = false ->
  forall counter : Z * Z, num_rings_loop false items counter = None.
Proof.
  induction items as [|item rest IH]; intros Hbad counter; [done|].
  simpl in Hbad. cbn [num_rings_loop]. unfold area_child in Hbad.
  destruct (Item.type item); simpl in Hbad; try done; by apply IH.
Qed.

(** X4.  [num_rings] counts the outer rings and the inner rings among the
  children of the area; tag lists are skipped.  When all children are
  rings or tag lists, as in an Area, both kinds of build return the two
  counts, and [is_multipolygon] tells whether there are at least two
  outer rings.  On a child of any other type a build with assertions
  aborts, while a build with [NDEBUG] skips the child and still returns
  the counts.  With fewer than 2^64 children the counters do not wrap,
  and the two counts together do not exceed the number of children. *)
Theorem num_rings_counts (children : list Item.t) :
  Z.of_nat (length children) < 2 ^ 64 ->
  let outer := length (items_of_type item_type.outer_ring children) in
  let inner := length (items_of_type item_type.inner_ring children) in
  (outer + inner <= length children)%nat
  /\ (forallb area_child children = true ->
      forall ndebug : bool,
        Area_num_rings ndebug children
        = Some (Z.of_nat outer, Z.of_nat inner)
        /\ Area_is_multipolygon ndebug children
           = Some (bool_decide (2 <= outer)%nat))
  /\ (forallb area_child children = false ->
      Area_num_rings false children = None
      /\ Area_is_multipolygon false children = None)
  /\ Area_num_rings true children = Some (Z.of_nat outer, Z.of_nat inner)
  /\ Area_is_multipolygon true children
     = Some (bool_decide (2 <= outer)%nat).
Proof.
  intros Hlen outer inner.
  assert (Hsum : (outer + inner <= length children)%nat).
  { subst outer inner. clear Hlen.
    induction children as [|item rest IH]; [done|].
    cbn [items_of_type List.filter length].
    fold (items_of_type item_type.outer_ring rest).
    fold (items_of_type item_type.inner_ring rest).
    unfold item_type.eqb. repeat case_bool_decide; cbn [length];
      try lia. congruence. }
  assert (Hnum : forall ndebug,
            ndebug = true \/ forallb area_child children = true ->
            Area_num_rings ndebug children
            = Some (Z.of_nat outer, Z.of_nat inner)).
  { intros ndebug Hok. unfold Area_num_rings.
    change (0, 0) with ((0 + 0) mod 2 ^ 64, (0 + 0) mod 2 ^ 64).
    rewrite num_rings_loop_counts by (done || lia). fold outer inner.
    rewrite !Z.add_0_l, !Z.mod_small by lia. done. }
  assert (Hmulti : forall ndebug,
            ndebug = true \/ forallb area_child children = true ->
            Area_is_multipolygon ndebug children
            = Some (bool_decide (2 <= outer)%nat)).
  { intros ndebug Hok. unfold Area_is_multipolygon.
    rewrite (Hnum ndebug Hok). cbn [mbind option_bind fst]. f_equal.
    case_bool_decide.
    - apply Z.ltb_lt. lia.
    - apply Z.ltb_ge. lia. }
  split; [exact Hsum|]. split; [|split; [|split]].
  - intros Hall ndebug. split; [apply Hnum | apply Hmulti]; by right.
  - intros Hbad. unfold Area_is_multipolygon, Area_num_rings.
    by rewrite (num_rings_loop_aborts children Hbad).
  - apply Hnum. by left.
  - apply Hmulti. by left.
Qed.

Lemma num_rings_counts_witness :
  let children :=
    Area_children
      (Area.mk 15 []
         [(Examples.square 100, [Examples.square 200]);
          (Examples.square 300, [])]) in
  let stray := Item.mk item_type.node [] [] in
  (forall ndebug : bool,
     Area_num_rings ndebug children = Some (2, 1)
     /\ Area_is_multipolygon ndebug children = Some true)
  /\ Area_num_rings false (stray :: children) = None.
Proof.
  cbv zeta. split.
  - apply (num_rings_counts
             (Area_children
                (Area.mk 15 []
                   [(Examples.square 100, [Examples.square 200]);
                    (Examples.square 300, [])]))).
    + simpl. lia.
    + reflexivity.
  - apply (num_rings_counts
             (Item.mk item_type.node [] []
              :: Area_children
                   (Area.mk 15 []
                      [(Examples.square 100, [Examples.square 200]);
                       (Examples.square 300, [])]))).
    + simpl. lia.
    + reflexivity.
Defined.

(** *** Iterating over the rings *)

Lemma make_data_eq (T : item_type.t) (items : list Item.t) (e : nat) :
  ItemIterator.m_data (ItemIterator.make T items e e) = e.
Proof. unfold ItemIterator.make. by rewrite Nat.sub_diag. Qed.

Lemma make_hit (T : item_type.t) (items : list Item.t) (b e : nat)
    (item : Item.t) :
  (b < e)%nat -> items !! b = Some item ->
  item_type.eqb (Item.type item) T = true ->
  ItemIterator.make T items b e = ItemIterator.mk b e.
Proof.
  intros Hlt Hb Ht. unfold ItemIterator.make.
  destruct (e - b)%nat as [|fuel] eqn:Hf; [lia|]. simpl.
  destruct (Nat.eqb_spec b e); [lia|]. by rewrite Hb, Ht.
Qed.

Lemma make_miss (T : item_type.t) (items : list Item.t) (b e : nat)
    (item : Item.t) :
  (b < e)%nat -> items !! b = Some item ->
  item_type.eqb (Item.type item) T = false ->
  ItemIterator.make T items b e = ItemIterator.make T items (S b) e.
Proof.
  intros Hlt Hb Ht. unfold ItemIterator.make.
  destruct (e - b)%nat as [|fuel] eqn:Hf; [lia|]. simpl.
  destruct (Nat.eqb_spec b e); [lia|]. rewrite Hb, Ht.
  by replace (e - S b)%nat with fuel by lia.
Qed.

Lemma make_bounds (T : item_type.t) (items : list Item.t) :
  forall (d b e : nat),
    (e - b = d)%nat -> (b <= e <= length items)%nat ->
    (b <= ItemIterator.m_data (ItemIterator.make T items b e) <= e)%nat
    /\ ItemIterator.m_end (ItemIterator.make T items b e) = e.
Proof.
  induction d as [|d IH]; intros b e Hd Hbe.
  { assert (b = e) as -> by lia. rewrite make_data_eq. split; [lia|done]. }
  destruct (lookup_lt_is_Some_2 items b ltac:(lia)) as [item Hb].
  destruct (item_type.eqb (Item.type item) T) eqn:Ht.
  - rewrite (make_hit T items b e item) by (done || lia). simpl.
    split; [lia|done].
  - rewrite (make_miss T items b e item) by (done || lia).
    destruct (IH (S b) e) as [Hd' He']; [lia | lia |]. split; [lia|done].
Qed.

(** The items an iteration visits between a position [b] and the first item
  of the type at or after a position [q] are the items of the type
  between [b] and [q]. *)
Lemma visit_segment (T : item_type.t) (items : list Item.t) (e : nat) :
  forall (d b q fuel : nat),
    (q - b = d)%nat -> (b <= q <= e)%nat -> (e <= length items)%nat ->
    (d < fuel)%nat ->
    ItemIterator.visit fuel T items (ItemIterator.make T items b e)
      (ItemIterator.m_data (ItemIterator.make T items q e))
    = items_of_type T (take (q - b) (drop b items)).
Proof.
  induction d as [|d IH]; intros b q fuel Hd Hbq He Hfuel.
  { assert (b = q) as -> by lia. rewrite Nat.sub_diag. simpl.
    destruct fuel as [|fuel]; [done|]. simpl.
    by rewrite Nat.eqb_refl. }
  destruct (lookup_lt_is_Some_2 items b ltac:(lia)) as [item Hb].
  assert (Hseg : take (q - b) (drop b items)
                 = item :: take (q - S b) (drop (S b) items)).
  { rewrite (drop_S items item b Hb).
    by replace (q - b)%nat with (S (q - S b)) by lia. }
  rewrite Hseg. cbn [items_of_type List.filter].
  fold (items_of_type T (take (q - S b) (drop (S b) items))).
  destruct (item_type.eqb (Item.type item) T) eqn:Ht.
  - rewrite (make_hit T items b e item) by (done || lia).
    destruct fuel as [|fuel]; [lia|]. cbn [ItemIterator.visit
      ItemIterator.m_data ItemIterator.m_end].
    pose proof (make_bounds T items (e - q) q e eq_refl ltac:(lia))
      as [Hq _].
    destruct (Nat.eqb_spec b (ItemIterator.m_data
                                (ItemIterator.make T items q e)));
      [lia|].
    destruct (Nat.eqb_spec b e); [lia|]. cbn [orb]. rewrite Hb.
    f_equal. unfold ItemIterator.next. cbn [ItemIterator.m_data
      ItemIterator.m_end]. apply (IH (S b) q fuel); lia.
  - rewrite (make_miss T items b e item) by (done || lia).
    apply (IH (S b) q fuel); lia.
Qed.

Lemma range_items (T : item_type.t) (items : list Item.t) (b e : nat) :
  (b <= e <= length items)%nat ->
  ItemIterator.range T items b e
  = items_of_type T (take (e - b) (drop b items)).
Proof.
  intros Hbe. unfold ItemIterator.range.
  rewrite <- (make_data_eq T items e) at 3.
  apply (visit_segment T items e (e - b) b e); lia.
Qed.

(** The position of the first item of the type after a run of items of
  other types. *)
Lemma make_after_run (T : item_type.t) :
  forall (run pre rest : list Item.t),
    Forall (fun item => item_type.eqb (Item.type item) T = false) run ->
    match rest with
    | [] => True
    | item :: _ => item_type.eqb (Item.type item) T = true
    end ->
    ItemIterator.m_data
      (ItemIterator.make T (pre ++ run ++ rest) (length pre)
                         (length (pre ++ run ++ rest)))
    = (length pre + length run)%nat.
Proof.
  induction run as [|item run IH]; intros pre rest Hrun Hrest.
  - cbn [app length]. rewrite Nat.add_0_r. destruct rest as [|item rest].
    + rewrite app_nil_r. apply make_data_eq.
    + rewrite (make_hit T _ _ _ item); [done | | | done].
      * rewrite length_app. simpl. lia.
      * by rewrite list_lookup_middle.
  - apply Forall_cons in Hrun as [Hitem Hrun].
    rewrite (make_miss T _ _ _ item); [| | | done].
    + replace (pre ++ (item :: run) ++ rest)
        with ((pre ++ [item]) ++ run ++ rest)
        by (by rewrite <- app_assoc).
      replace (S (length pre)) with (length (pre ++ [item]))
        by (rewrite length_app; simpl; lia).
      rewrite (IH (pre ++ [item]) rest Hrun Hrest).
      rewrite length_app. simpl. lia.
    + rewrite !length_app. simpl. lia.
    + change ((item :: run) ++ rest) with (item :: (run ++ rest)).
      by rewrite list_lookup_middle.
Qed.

Lemma inner_rings_segment (children : list Item.t) (p : nat)
    (outer : Item.t) :
  children !! p = Some outer ->
  Item.type outer = item_type.outer_ring ->
  let q := ItemIterator.m_data
             (ItemIterator.make item_type.outer_ring children (S p)
                                (length children)) in
  (S p <= q <= length children)%nat
  /\ Area_inner_rings children p
     = items_of_type item_type.inner_ring (take (q - p) (drop p children))
  /\ Area_inner_rings_deprecated children
       (ItemIterator.mk p (length children))
     = items_of_type item_type.inner_ring (take (q - p) (drop p children)).
Proof.
  intros Hp Houter q.
  pose proof (lookup_lt_Some _ _ _ Hp) as Hlt.
  assert (Hq : (S p <= q <= length children)%nat).
  { subst q. by apply (make_bounds _ _ (length children - S p)); [|lia]. }
  assert (Hcb : ItemIterator.make item_type.outer_ring children p
                  (length children)
                = ItemIterator.mk p (length children)).
  { apply (make_hit _ _ _ _ outer); [done | done |].
    unfold item_type.eqb. by rewrite Houter, bool_decide_eq_true_2. }
  split; [exact Hq|]. split.
  - unfold Area_inner_rings. cbv zeta. rewrite Hcb.
    unfold ItemIterator.next. cbn [ItemIterator.m_data ItemIterator.m_end].
    fold q. apply range_items. lia.
  - unfold Area_inner_rings_deprecated, Area_inner_ring_cbegin,
      Area_inner_ring_cend, ItemIterator.cast, ItemIterator.next.
    cbn [ItemIterator.m_data ItemIterator.m_end]. fold q.
    assert (Hend : ItemIterator.m_end
                     (ItemIterator.make item_type.outer_ring children (S p)
                                        (length children))
                   = length children).
    { by apply (make_bounds _ _ (length children - S p)); [|lia]. }
    rewrite Hend.
    apply (visit_segment _ _ (length children) (q - p) p q); lia.
Qed.

(** X5.  Reading the rings back: over the children of an Area laid out
  with each outer ring followed by its inner rings, [outer_rings] yields
  the outer rings in order, and [inner_rings] of an outer ring yields
  exactly the inner rings of that outer ring — none of the next outer
  ring, and nothing for an outer ring without inner rings. *)
Theorem area_rings_read_back (a : Area.t)
    (before after : list (NodeRefList * list NodeRefList))
    (ring : NodeRefList) (inners : list NodeRefList) :
  Area.rings a = before ++ (ring, inners) :: after ->
  Area_outer_rings (Area_children a)
  = map (fun r => Item.outer_ring (fst r)) (Area.rings a)
  /\ Area_children a !! S (length (ring_items before))
     = Some (Item.outer_ring ring)
  /\ Area_inner_rings (Area_children a) (S (length (ring_items before)))
     = map Item.inner_ring inners.
Proof.
  intros Hrings.
  assert (Hfilter_inner : forall l : list NodeRefList,
    items_of_type item_type.inner_ring (map Item.inner_ring l)
    = map Item.inner_ring l).
  { induction l as [|x l IH]; [done|]. simpl. by rewrite IH. }
  assert (Hno_outer : forall l : list NodeRefList,
    Forall (fun item =>
              item_type.eqb (Item.type item) item_type.outer_ring = false)
           (map Item.inner_ring l)).
  { induction l as [|x l IH]; [done|]. simpl. by apply Forall_cons. }
  split; [|split].
  - unfold Area_outer_rings. rewrite range_items by lia.
    rewrite Nat.sub_0_r, drop_0, firstn_all.
    unfold Area_children. generalize (Area.rings a). intros rings.
    cbn [items_of_type List.filter]. fold (items_of_type
      item_type.outer_ring (ring_items rings)).
    change (item_type.eqb (Item.type (Item.tag_list (Area.tags a)))
              item_type.outer_ring) with false. cbv iota.
    induction rings as [|[o ins] rings IH]; [done|].
    cbn [ring_items flat_map map fst snd app items_of_type List.filter].
    change (item_type.eqb (Item.type (Item.outer_ring o))
              item_type.outer_ring) with true. cbv iota. f_equal.
    fold (ring_items rings).
    unfold items_of_type. rewrite List.filter_app. fold (items_of_type
      item_type.outer_ring (ring_items rings)). rewrite IH.
    clear. induction ins as [|x ins IH]; [done|]. simpl. exact IH.
  - unfold Area_children. rewrite Hrings. unfold ring_items.
    rewrite flat_map_app. cbn [flat_map fst snd app].
    rewrite app_comm_cons. by apply list_lookup_middle.
  - set (pre := Item.tag_list (Area.tags a) :: ring_items before).
    assert (Hch : Area_children a
                  = pre ++ [Item.outer_ring ring]
                    ++ map Item.inner_ring inners ++ ring_items after).
    { unfold Area_children, pre. rewrite Hrings. unfold ring_items.
      by rewrite flat_map_app. }
    assert (Hp : Area_children a !! length pre
                 = Some (Item.outer_ring ring)).
    { rewrite Hch. by apply list_lookup_middle. }
    change (S (length (ring_items before))) with (length pre).
    destruct (inner_rings_segment (Area_children a) (length pre)
                (Item.outer_ring ring) Hp eq_refl) as (_ & -> & _).
    assert (Hq : ItemIterator.m_data
                   (ItemIterator.make item_type.outer_ring (Area_children a)
                      (S (length pre)) (length (Area_children a)))
                 = (length (pre ++ [Item.outer_ring ring])
                    + length (map Item.inner_ring inners))%nat).
    { rewrite Hch.
      replace (pre ++ [Item.outer_ring ring]
               ++ map Item.inner_ring inners ++ ring_items after)
        with ((pre ++ [Item.outer_ring ring])
              ++ map Item.inner_ring inners ++ ring_items after)
        by (by rewrite <- app_assoc).
      replace (S (length pre))
        with (length (pre ++ [Item.outer_ring ring]))
        by (rewrite length_app; simpl; lia).
      apply make_after_run; [apply Hno_outer|].
      by destruct after as [|[o ins] after]. }
    rewrite Hq, Hch. rewrite drop_app_length.
    rewrite length_app. cbn [length].
    replace (length pre + 1 + length (map Item.inner_ring inners)
             - length pre)%nat
      with (S (length (map Item.inner_ring inners))) by lia.
    cbn [app take items_of_type List.filter].
    change (item_type.eqb (Item.type (Item.outer_ring ring))
              item_type.inner_ring) with false. cbv iota.
    rewrite take_app_length.
    apply Hfilter_inner.
Qed.

Lemma area_rings_read_back_witness :
  let a := Area.mk 15 []
             [(Examples.square 100, [Examples.square 200]);
              (Examples.square 300, [])] in
  Area_inner_rings (Area_children a) 1
    = [Item.inner_ring (Examples.square 200)]
  /\ Area_inner_rings (Area_children a) 3 = [].
Proof.
  cbv zeta. split.
  - apply (area_rings_read_back
             (Area.mk 15 []
                [(Examples.square 100, [Examples.square 200]);
                 (Examples.square 300, [])])
             [] [(Examples.square 300, [])]
             (Examples.square 100) [Examples.square 200]).
    reflexivity.
  - apply (area_rings_read_back
             (Area.mk 15 []
                [(Examples.square 100, [Examples.square 200]);
                 (Examples.square 300, [])])
             [(Examples.square 100, [Examples.square 200])] []
             (Examples.square 300) []).
    reflexivity.
Defined.

(** X6.  The deprecated pair [inner_ring_cbegin] / [inner_ring_cend] of an
  iterator at an outer ring delimits the same inner rings as
  [inner_rings] of that outer ring, on every child sequence. *)
Theorem deprecated_inner_ring_iteration (children : list Item.t) (p : nat)
    (outer : Item.t) :
  children !! p = Some outer ->
  Item.type outer = item_type.outer_ring ->
  Area_inner_rings_deprecated children
    (ItemIterator.mk p (length children))
  = Area_inner_rings children p.
Proof.
  intros Hp Houter.
  destruct (inner_rings_segment children p outer Hp Houter)
    as (_ & -> & ->). done.
Qed.

Lemma deprecated_inner_ring_iteration_witness :
  let children :=
    Area_children
      (Area.mk 15 []
         [(Examples.square 100, []);
          (Examples.square 300, [Examples.square 400])]) in
  Area_inner_rings_deprecated children (ItemIterator.mk 1 (length children))
  = Area_inner_rings children 1.
Proof.
  cbv zeta.
  apply (deprecated_inner_ring_iteration _ 1
           (Item.outer_ring (Examples.square 100))); reflexivity.
Defined.

(** ** TagMatcher *)

(** X7.  A TagMatcher built from a key matcher only ignores the values, and
  a key-and-value matcher and its inverted twin split the tags with a
  matching key between them: no tag is accepted by both, and a tag list is
  accepted by the key-only matcher exactly when it is accepted by one of
  the two.  A tag whose key does not match is rejected by both, so the
  inverted matcher is not the negation of the plain one. *)
Theorem inverted_matcher_splits_key_matches
    (key_matcher value_matcher : StringMatcher.t) :
  let key_only := TagMatcher.of_key key_matcher in
  let plain := TagMatcher.of_key_value key_matcher value_matcher false in
  let inverted := TagMatcher.of_key_value key_matcher value_matcher true in
  (forall k v : string,
     TagMatcher.match_key_value key_only k v
     = StringMatcher.call key_matcher k)
  /\ (forall tag : Tag,
        TagMatcher.match_tag inverted tag
        = StringMatcher.call key_matcher (key tag)
          && negb (TagMatcher.match_tag plain tag))
  /\ (forall tag : Tag,
        StringMatcher.call key_matcher (key tag) = false ->
        TagMatcher.match_tag plain tag = false
        /\ TagMatcher.match_tag inverted tag = false)
  /\ (forall tags : TagList,
        TagMatcher.match_tags key_only tags
        = TagMatcher.match_tags plain tags
          || TagMatcher.match_tags inverted tags).
Proof.
  cbv zeta. split; [|split; [|split]].
  - intros k v. unfold TagMatcher.match_key_value. simpl.
    by destruct (StringMatcher.call key_matcher k).
  - intros tag. unfold TagMatcher.match_tag, TagMatcher.match_key_value.
    simpl.
    by destruct (StringMatcher.call key_matcher (key tag)),
                (StringMatcher.call value_matcher (value tag)).
  - intros tag Hk. unfold TagMatcher.match_tag, TagMatcher.match_key_value.
    simpl. by rewrite Hk.
  - intros tags. induction tags as [|tag rest IH]; [done|].
    cbn [TagMatcher.match_tags]. rewrite IH.
    unfold TagMatcher.match_tag, TagMatcher.match_key_value. simpl.
    destruct (StringMatcher.call key_matcher (key tag)),
             (StringMatcher.call value_matcher (value tag)),
             (TagMatcher.match_tags
                (TagMatcher.of_key_value key_matcher value_matcher false)
                rest),
             (TagMatcher.match_tags
                (TagMatcher.of_key_value key_matcher value_matcher true)
                rest); done.
Qed.

Lemma inverted_matcher_splits_key_matches_witness :
  let highway := StringMatcher.matching (String.eqb "highway") in
  TagMatcher.match_tag
    (TagMatcher.of_key_value highway StringMatcher.always_true false)
    (mkTag "name" "Main Street") = false
  /\ TagMatcher.match_tag
       (TagMatcher.of_key_value highway StringMatcher.always_true true)
       (mkTag "name" "Main Street") = false.
Proof.
  cbv zeta.
  apply (inverted_matcher_splits_key_matches
           (StringMatcher.matching (String.eqb "highway"))
           StringMatcher.always_true).
  reflexivity.
Defined.

(** X8.  The result of a TagMatcher on a tag list depends only on which
  tags occur in it: the early return of the loop makes no difference, two
  lists with the same tags (in any order, with any repetition) get the
  same answer, and the answer for a concatenation is the disjunction of
  the answers for the parts. *)
Theorem match_tags_depends_on_members (m : TagMatcher.t)
    (tags1 tags2 : TagList) :
  TagMatcher.match_tags m (tags1 ++ tags2)
  = TagMatcher.match_tags m tags1 || TagMatcher.match_tags m tags2
  /\ ((forall tag : Tag, tag ∈ tags1 <-> tag ∈ tags2) ->
      TagMatcher.match_tags m tags1 = TagMatcher.match_tags m tags2).
Proof.
  split.
  - rewrite !match_tags_existsb. apply existsb_app.
  - intros Hsame.
    destruct (TagMatcher.match_tags m tags1) eqn:H1.
    + symmetry. apply match_tags_true. apply match_tags_true in H1.
      destruct H1 as (tag & Hin & Hm). exists tag. split; [|done].
      by apply Hsame.
    + destruct (TagMatcher.match_tags m tags2) eqn:H2; [|done].
      apply match_tags_true in H2. destruct H2 as (tag & Hin & Hm).
      assert (TagMatcher.match_tags m tags1 = true) as Habs.
      { apply match_tags_true. exists tag. split; [|done]. by apply Hsame. }
      congruence.
Qed.

Lemma match_tags_depends_on_members_witness :
  let m := TagMatcher.of_key (StringMatcher.matching (String.eqb "area")) in
  TagMatcher.match_tags m [mkTag "area" "yes"; mkTag "name" "Pond"]
  = TagMatcher.match_tags m
      [mkTag "name" "Pond"; mkTag "area" "yes"; mkTag "name" "Pond"].
Proof.
  cbv zeta.
  apply (match_tags_depends_on_members
           (TagMatcher.of_key (StringMatcher.matching (String.eqb "area")))
           [mkTag "area" "yes"; mkTag "name" "Pond"]
           [mkTag "name" "Pond"; mkTag "area" "yes"; mkTag "name" "Pond"]).
  intros tag. rewrite !list_elem_of_In. simpl. tauto.
Defined.

(** ** The manager: accounting *)

Lemma area_stats_add_zero_r (a : area_stats.t) :
  area_stats.add a area_stats.zero = a.
Proof.
  destruct a. unfold area_stats.add. simpl. by rewrite !Nat.add_0_r.
Qed.

Lemma area_stats_add_assoc (a b c : area_stats.t) :
  area_stats.add a (area_stats.add b c)
  = area_stats.add (area_stats.add a b) c.
Proof. unfold area_stats.add. simpl. by rewrite !Nat.add_assoc. Qed.

Section ManagerAccountingProperties.

Context (TA : TAssembler) (m_assembler_config : config_type TA).
Context (m_filter : TagsFilter) (item_size : Area.t -> nat).
Context (extra : exception -> Prop).

#[local] Abbreviation disciplined_ :=
  (disciplined TA m_assembler_config extra).
#[local] Abbreviation stats_total_ := (stats_total TA m_assembler_config).

Lemma stats_total_app (t1 t2 : list assembler_call) :
  stats_total_ (t1 ++ t2)
  = area_stats.add (stats_total_ t1) (stats_total_ t2).
Proof.
  induction t1 as [|call t1 IH]; simpl.
  - by destruct (stats_total_ t2).
  - by rewrite IH, area_stats_add_assoc.
Qed.

Lemma disciplined_silent {A : Type} (c : M A) :
  (forall m, trace (c m) = []
             /\ stats (final (c m)) = stats m
             /\ CallbackBuffer.m_has_callback (m_output (final (c m)))
                = CallbackBuffer.m_has_callback (m_output m)
             /\ (CallbackBuffer.m_has_callback (m_output m) = false ->
                 CallbackBuffer.handed_off (m_output (final (c m)))
                 = CallbackBuffer.handed_off (m_output m))
             /\ forall e, outcome (c m) = inl e ->
                  e = stash_corruption \/ is_invalid_location e = true
                  \/ extra e) ->
  disciplined_ c.
Proof.
  intros H. split.
  - intros m. destruct (H m) as (-> & -> & _). simpl.
    by rewrite area_stats_add_zero_r.
  - intros m e Ho. destruct (H m) as (_ & _ & _ & _ & He).
    destruct (He e Ho) as [->|[->|Hx]]; auto.
  - intros m. by destruct (H m) as (_ & _ & -> & _).
  - intros m. by destruct (H m) as (_ & _ & _ & Hp & _).
Qed.

Lemma disciplined_ret {A : Type} (a : A) : disciplined_ (ret a).
Proof. by apply disciplined_silent. Qed.

Lemma disciplined_throw {A : Type} (e : exception) :
  e = stash_corruption \/ is_invalid_location e = true \/ extra e ->
  disciplined_ (@throw A e).
Proof.
  intros He. apply disciplined_silent. intros m.
  repeat split; try done. intros e' [= <-]. exact He.
Qed.

Lemma disciplined_get_manager : disciplined_ get_manager.
Proof. by apply disciplined_silent. Qed.

Lemma disciplined_expect {A : Type} (o : option A) :
  disciplined_ (expect o).
Proof.
  destruct o; [apply disciplined_ret | apply disciplined_throw; by left].
Qed.

Lemma disciplined_modify (f : Manager -> Manager) :
  (forall m, stats (f m) = stats m
             /\ CallbackBuffer.m_has_callback (m_output (f m))
                = CallbackBuffer.m_has_callback (m_output m)
             /\ (CallbackBuffer.m_has_callback (m_output m) = false ->
                 CallbackBuffer.handed_off (m_output (f m))
                 = CallbackBuffer.handed_off (m_output m))) ->
  disciplined_ (modify f).
Proof.
  intros H. apply disciplined_silent. intros m.
  destruct (H m) as (Hs & Hc & Hp). by repeat split.
Qed.

Lemma disciplined_bind {A B : Type} (c : M A) (k : A -> M B) :
  disciplined_ c -> (forall a, disciplined_ (k a)) ->
  disciplined_ (bind c k).
Proof.
  intros [Hsc Hec Hcc Hpc] Hk. split.
  - intros m. unfold bind. specialize (Hsc m).
    destruct (outcome (c m)) as [e|a] eqn:Ho; simpl; [done|].
    destruct (Hk a) as [Hsk _ _ _]. rewrite (Hsk (final (c m))), Hsc.
    by rewrite stats_total_app, area_stats_add_assoc.
  - intros m e. unfold bind. specialize (Hec m).
    destruct (outcome (c m)) as [e'|a] eqn:Ho; simpl.
    { intros [= <-]. by apply Hec. }
    intros Hout. destruct (Hk a) as [_ Hek _ _].
    destruct (Hek (final (c m)) e Hout)
      as [->|[Hi|[Hx|(call & Hin & Hcall)]]]; auto.
    right. right. right. exists call. split; [|done].
    apply elem_of_app. by right.
  - intros m. unfold bind. specialize (Hcc m).
    destruct (outcome (c m)) as [e|a] eqn:Ho; simpl; [done|].
    destruct (Hk a) as [_ _ Hck _]. by rewrite Hck.
  - intros m Hpull. unfold bind. specialize (Hcc m). specialize (Hpc m Hpull).
    destruct (outcome (c m)) as [e|a] eqn:Ho; simpl; [done|].
    destruct (Hk a) as [_ _ _ Hpk]. rewrite Hpk; [done|]. congruence.
Qed.

Lemma disciplined_try_catch (body : M unit) :
  disciplined_ body -> disciplined_ (try_catch_invalid_location body).
Proof.
  intros [Hs He Hc Hp]. split.
  - intros m. unfold try_catch_invalid_location. specialize (Hs m).
    by destruct (outcome (body m)) as [[| | |]|[]].
  - intros m e. unfold try_catch_invalid_location. specialize (He m).
    destruct (outcome (body m)) as [[w| |w|w]|[]] eqn:Ho; simpl;
      intros Hout; try done; rewrite Ho in Hout; by apply He.
  - intros m. unfold try_catch_invalid_location. specialize (Hc m).
    by destruct (outcome (body m)) as [[| | |]|[]].
  - intros m Hpull. unfold try_catch_invalid_location.
    specialize (Hp m Hpull).
    by destruct (outcome (body m)) as [[| | |]|[]].
Qed.

Lemma disciplined_run_assembler (call : assembler_call) :
  forall k : area_stats.t -> M unit,
    (forall stats_ m,
       k stats_ m
       = mk_result (inr tt)
           (mk_Manager (m_stash m) (m_relations_db m) (m_members_db m)
              (CallbackBuffer.possibly_flush item_size (m_output m))
              (area_stats.add (m_stats m) stats_))
           []) ->
    disciplined_
      (let* stats_ :=
         run_assembler call (call_result TA m_assembler_config call) in
       k stats_).
Proof.
  intros k Hk.
  assert (Hflush : forall cb,
    CallbackBuffer.m_has_callback (CallbackBuffer.possibly_flush item_size cb)
    = CallbackBuffer.m_has_callback cb).
  { intros cb. unfold CallbackBuffer.possibly_flush, CallbackBuffer.flush.
    destruct (_ <=? _)%nat; [|done].
    by destruct (CallbackBuffer.m_has_callback cb) eqn:Hcb. }
  split.
  - intros m. unfold bind, run_assembler, stats_total, stats_of.
    destruct (call_result TA m_assembler_config call) as [e|out] eqn:Hc;
      simpl; rewrite ?Hc, ?Hk; simpl.
    + by rewrite !area_stats_add_zero_r.
    + by rewrite !area_stats_add_zero_r.
  - intros m e. unfold bind, run_assembler.
    destruct (call_result TA m_assembler_config call) as [e'|out] eqn:Hc;
      simpl; rewrite ?Hk; simpl; [|done].
    intros [= <-]. right. right. right. exists call. split; [|done].
    by apply list_elem_of_singleton.
  - intros m. unfold bind, run_assembler.
    destruct (call_result TA m_assembler_config call) as [e'|out] eqn:Hc;
      simpl; rewrite ?Hk; simpl; [done|].
    by rewrite Hflush.
  - intros m Hpull. unfold bind, run_assembler.
    destruct (call_result TA m_assembler_config call) as [e'|out] eqn:Hc;
      simpl; rewrite ?Hk; simpl; [done|].
    unfold CallbackBuffer.possibly_flush, CallbackBuffer.flush. simpl.
    rewrite Hpull. by destruct (_ <=? _)%nat.
Qed.

Lemma stats_then_flush (stats_ : area_stats.t) (m : Manager) :
  (stats_add stats_ ;; output_possibly_flush item_size) m
  = mk_result (inr tt)
      (mk_Manager (m_stash m) (m_relations_db m) (m_members_db m)
         (CallbackBuffer.possibly_flush item_size (m_output m))
         (area_stats.add (m_stats m) stats_))
      [].
Proof. reflexivity. Qed.

Lemma disciplined_check_locations (way : Way.t) :
  disciplined_
    (if negb (Location_.valid (NodeRef.location (Way.front way)))
        || negb (Location_.valid (NodeRef.location (Way.back way)))
     then throw (invalid_location "invalid location")
     else ret tt).
Proof.
  destruct (_ || _); [|apply disciplined_ret].
  apply disciplined_throw. right. by left.
Qed.

Lemma disciplined_assemble_way (way : Way.t) :
  disciplined_
    (assemble_way TA m_assembler_config m_filter item_size way).
Proof.
  unfold assemble_way. destruct (_ <=? 3)%nat; [apply disciplined_ret|].
  apply disciplined_try_catch, disciplined_bind;
    [apply disciplined_check_locations|]. intros _.
  destruct (Way.ends_have_same_location way); [|apply disciplined_ret].
  destruct (TagList_.has_tag (Way.tags way) "area" "no");
    [apply disciplined_ret|].
  destruct (tags.match_none_of (Way.tags way) m_filter);
    [apply disciplined_ret|].
  apply (disciplined_run_assembler (call_way way)). apply stats_then_flush.
Qed.

Lemma disciplined_deref (h : RelationsDatabase.RelationHandle) :
  disciplined_ (deref h).
Proof.
  apply disciplined_bind; [apply disciplined_get_manager|].
  intros m. apply disciplined_expect.
Qed.

Lemma disciplined_gather_ways (members : list RelationMember.t) :
  disciplined_ (gather_ways members).
Proof.
  induction members as [|member rest IH]; simpl; [apply disciplined_ret|].
  destruct (negb _); [|exact IH].
  apply disciplined_bind.
  - apply disciplined_bind; [apply disciplined_get_manager|].
    intros m. apply disciplined_expect.
  - intros w. apply disciplined_bind; [exact IH|].
    intros ways. apply disciplined_ret.
Qed.

Lemma disciplined_complete_relation (r : Relation.t) :
  disciplined_ (complete_relation TA m_assembler_config item_size r).
Proof.
  apply disciplined_bind; [apply disciplined_gather_ways|].
  intros ways. apply disciplined_try_catch.
  apply (disciplined_run_assembler (call_relation r ways)).
  apply stats_then_flush.
Qed.

Lemma disciplined_remove_members (r : Relation.t) :
  disciplined_ (remove_members r).
Proof.
  unfold remove_members. generalize (Relation.id r). intros rid.
  induction (Relation.members r) as [|member rest IH]; simpl;
    [apply disciplined_ret|].
  apply disciplined_bind; [|intros _; exact IH].
  destruct (negb _); [|apply disciplined_ret].
  by apply disciplined_modify.
Qed.

Lemma disciplined_rel_handle_remove (h : RelationsDatabase.RelationHandle) :
  disciplined_ (rel_handle_remove h).
Proof.
  apply disciplined_modify. intros m.
  by destruct (RelationsDatabase.remove _ _ _).
Qed.

Lemma disciplined_on_complete (h : RelationsDatabase.RelationHandle) :
  disciplined_ (on_complete TA m_assembler_config item_size h).
Proof.
  apply disciplined_bind.
  { apply disciplined_bind; [apply disciplined_deref|].
    intros r. apply disciplined_complete_relation. }
  intros _. apply disciplined_bind.
  { apply disciplined_bind; [apply disciplined_deref|].
    intros r. apply disciplined_remove_members. }
  intros _. apply disciplined_rel_handle_remove.
Qed.

Lemma disciplined_members_db_notify (range : list nat)
    (func : RelationsDatabase.RelationHandle -> M unit) :
  (forall h, disciplined_ (func h)) ->
  disciplined_ (members_db_notify range func).
Proof.
  intros Hf. induction range as [|i rest IH]; simpl;
    [apply disciplined_ret|].
  apply disciplined_bind; [apply disciplined_get_manager|]. intros m.
  apply disciplined_bind; [apply disciplined_expect|]. intros elem.
  apply disciplined_bind; [by apply disciplined_modify|]. intros _.
  apply disciplined_bind; [apply disciplined_get_manager|]. intros m'.
  apply disciplined_bind; [|intros _; exact IH].
  destruct (RelationsDatabase.has_all_members _ _);
    [apply Hf | apply disciplined_ret].
Qed.

Lemma disciplined_members_db_add (way : Way.t)
    (func : RelationsDatabase.RelationHandle -> M unit) :
  (forall h, disciplined_ (func h)) ->
  disciplined_ (members_db_add way func).
Proof.
  intros Hf. apply disciplined_bind; [apply disciplined_get_manager|].
  intros m.
  destruct (MembersDatabase.find _ _) as [|i range];
    [apply disciplined_ret|].
  apply disciplined_bind.
  { apply disciplined_modify. intros m'.
    by destruct (ItemStash.add_item _ _). }
  intros _.
  apply disciplined_bind; [by apply disciplined_members_db_notify|].
  intros _. apply disciplined_ret.
Qed.

Lemma disciplined_member_way (way : Way.t) :
  disciplined_
    (member_way TA m_assembler_config m_filter item_size way).
Proof.
  apply disciplined_bind.
  - apply disciplined_members_db_add, disciplined_on_complete.
  - intros _. apply disciplined_assemble_way.
Qed.

Lemma disciplined_for_each {X : Type} (f : X -> M unit) (l : list X) :
  (forall x, disciplined_ (f x)) -> disciplined_ (for_each f l).
Proof.
  intros Hf. induction l as [|x rest IH]; simpl; [apply disciplined_ret|].
  apply disciplined_bind; [apply Hf | intros _; exact IH].
Qed.

Lemma disciplined_flush_output : disciplined_ flush_output.
Proof.
  apply disciplined_modify. intros m. split; [done|].
  unfold set_output, CallbackBuffer.flush. simpl.
  destruct (CallbackBuffer.m_has_callback (m_output m)) eqn:Hcb;
    by rewrite ?Hcb.
Qed.

Lemma disciplined_handler_pass2_ways (ways : list Way.t) :
  extra (out_of_order_error "Way IDs out of order.") ->
  forall max_way_id : option object_id_type,
    disciplined_
      (handler_pass2_ways TA m_assembler_config m_filter item_size
                          max_way_id ways).
Proof.
  intros Hextra.
  induction ways as [|way rest IH]; intros max_way_id; simpl;
    [apply disciplined_ret|].
  apply disciplined_bind.
  { unfold check_order_way. destruct max_way_id as [max_id|];
      [|apply disciplined_ret].
    destruct (_ <=? _); [|apply disciplined_ret].
    apply disciplined_throw. by do 2 right. }
  intros _. apply disciplined_bind; [apply disciplined_member_way|].
  intros _. apply IH.
Qed.

Lemma disciplined_pass2 (ways : list Way.t) :
  extra (out_of_order_error "Way IDs out of order.") ->
  disciplined_ (pass2 TA m_assembler_config m_filter item_size ways).
Proof.
  intros Hextra. apply disciplined_bind.
  - by apply disciplined_handler_pass2_ways.
  - intros _. apply disciplined_flush_output.
Qed.

End ManagerAccountingProperties.

Section ManagerAccountingTheorems.

Context (TA : TAssembler) (m_assembler_config : config_type TA).
Context (m_filter : TagsFilter) (item_size : Area.t -> nat).

#[local] Abbreviation stats_total_ := (stats_total TA m_assembler_config).

(** *** No [invalid_location] leaves the second pass *)

#[local] Abbreviation contains_ := (@contains_invalid_location).

Lemma contains_returns {A : Type} (c : M A) :
  (forall m, exists a, outcome (c m) = inr a) ->
  contains_invalid_location c.
Proof. intros H m e Ho. destruct (H m) as [a Ha]. congruence. Qed.

Lemma contains_expect {A : Type} (o : option A) :
  contains_invalid_location (expect o).
Proof. intros m e. destruct o; simpl; [done|]. by intros [= <-]. Qed.

Lemma contains_bind {A B : Type} (c : M A) (k : A -> M B) :
  contains_invalid_location c ->
  (forall a, contains_invalid_location (k a)) ->
  contains_invalid_location (bind c k).
Proof.
  intros Hc Hk m e. unfold bind. specialize (Hc m).
  destruct (outcome (c m)) as [e'|a] eqn:Ho; simpl.
  - intros [= <-]. by apply Hc.
  - apply Hk.
Qed.

Lemma contains_try_catch (body : M unit) :
  contains_invalid_location (try_catch_invalid_location body).
Proof.
  intros m e. unfold try_catch_invalid_location.
  destruct (outcome (body m)) as [[w| |w|w]|[]] eqn:Ho; simpl; try done;
    rewrite Ho; by intros [= <-].
Qed.

Lemma contains_deref (h : RelationsDatabase.RelationHandle) :
  contains_invalid_location (deref h).
Proof.
  apply contains_bind; [apply contains_returns; by eexists|].
  intros m. apply contains_expect.
Qed.

Lemma contains_gather_ways (members : list RelationMember.t) :
  contains_invalid_location (gather_ways members).
Proof.
  induction members as [|member rest IH]; simpl;
    [apply contains_returns; by eexists|].
  destruct (negb _); [|exact IH].
  apply contains_bind.
  - apply contains_bind; [apply contains_returns; by eexists|].
    intros m. apply contains_expect.
  - intros w. apply contains_bind; [exact IH|].
    intros ways. apply contains_returns. by eexists.
Qed.

Lemma contains_assemble_way (way : Way.t) :
  contains_invalid_location
    (assemble_way TA m_assembler_config m_filter item_size way).
Proof.
  unfold assemble_way.
  destruct (_ <=? 3)%nat; [apply contains_returns; by eexists|].
  apply contains_try_catch.
Qed.

Lemma contains_remove_members (r : Relation.t) :
  contains_invalid_location (remove_members r).
Proof.
  unfold remove_members. generalize (Relation.id r). intros rid.
  induction (Relation.members r) as [|member rest IH]; simpl;
    [apply contains_returns; by eexists|].
  apply contains_bind; [|intros _; exact IH].
  destruct (negb _); apply contains_returns; by eexists.
Qed.

Lemma contains_on_complete (h : RelationsDatabase.RelationHandle) :
  contains_invalid_location
    (on_complete TA m_assembler_config item_size h).
Proof.
  apply contains_bind.
  { apply contains_bind; [apply contains_deref|]. intros r.
    apply contains_bind; [apply contains_gather_ways|].
    intros ways. apply contains_try_catch. }
  intros _. apply contains_bind.
  { apply contains_bind; [apply contains_deref|].
    intros r. apply contains_remove_members. }
  intros _. apply contains_returns. by eexists.
Qed.

Lemma contains_members_db_notify (range : list nat)
    (func : RelationsDatabase.RelationHandle -> M unit) :
  (forall h, contains_invalid_location (func h)) ->
  contains_invalid_location (members_db_notify range func).
Proof.
  intros Hf. induction range as [|i rest IH]; simpl;
    [apply contains_returns; by eexists|].
  apply contains_bind; [apply contains_returns; by eexists|]. intros m.
  apply contains_bind; [apply contains_expect|]. intros elem.
  apply contains_bind; [apply contains_returns; by eexists|]. intros _.
  apply contains_bind; [apply contains_returns; by eexists|]. intros m'.
  apply contains_bind; [|intros _; exact IH].
  destruct (RelationsDatabase.has_all_members _ _);
    [apply Hf | apply contains_returns; by eexists].
Qed.

Lemma contains_member_way (way : Way.t) :
  contains_invalid_location
    (member_way TA m_assembler_config m_filter item_size way).
Proof.
  apply contains_bind; [|intros _; apply contains_assemble_way].
  apply contains_bind; [apply contains_returns; by eexists|]. intros m.
  destruct (MembersDatabase.find _ _) as [|i range];
    [apply contains_returns; by eexists|].
  apply contains_bind; [apply contains_returns; by eexists|]. intros _.
  apply contains_bind;
    [apply contains_members_db_notify, contains_on_complete|].
  intros _. apply contains_returns. by eexists.
Qed.

Lemma contains_pass2 (ways : list Way.t) :
  contains_invalid_location
    (pass2 TA m_assembler_config m_filter item_size ways).
Proof.
  apply contains_bind; [|intros _; apply contains_returns; by eexists].
  generalize (@None object_id_type).
  induction ways as [|way rest IH]; intros max_way_id; simpl;
    [apply contains_returns; by eexists|].
  apply contains_bind.
  { unfold check_order_way. destruct max_way_id as [max_id|];
      [|apply contains_returns; by eexists].
    destruct (_ <=? _); [|apply contains_returns; by eexists].
    intros m e. simpl. by intros [= <-]. }
  intros _.
  apply contains_bind; [apply contains_member_way | intros _; apply IH].
Qed.

Lemma exceptions_from_calls {A : Type} (extra : exception -> Prop)
    (c : M A) (m : Manager) (e : exception) :
  disciplined TA m_assembler_config extra c ->
  contains_invalid_location c ->
  outcome (c m) = inl e ->
  is_invalid_location e = false
  /\ (e = stash_corruption
      \/ extra e
      \/ exists call,
           call ∈ trace (c m)
           /\ raises_other TA m_assembler_config call e).
Proof.
  intros [_ He _ _] Hc Ho. pose proof (Hc m e Ho) as Hni.
  split; [done|].
  destruct (He m e Ho) as [->|[Hi|[Hx|(call & Hin & Hcall)]]];
    [by left | congruence | by right; left |].
  right. right. exists call. by repeat split.
Qed.

(** X9.  The aggregated statistics that [stats] returns grow, over one
  [member_way] step and over the whole second pass, by exactly the
  statistics of the assembler invocations made that returned, however the
  step or the pass ends; an invocation that raised contributes nothing. *)
Theorem stats_aggregate_returned_calls (ways : list Way.t) (way : Way.t)
    (m : Manager) :
  let step := member_way TA m_assembler_config m_filter item_size way m in
  let pass := pass2 TA m_assembler_config m_filter item_size ways m in
  stats (final step) = area_stats.add (stats m) (stats_total_ (trace step))
  /\ stats (final pass)
     = area_stats.add (stats m) (stats_total_ (trace pass)).
Proof.
  cbv zeta. split.
  - apply (stats_accounted _ _ _ _
             (disciplined_member_way TA m_assembler_config m_filter
                item_size (fun _ => True) way)).
  - apply (stats_accounted _ _ _ _
             (disciplined_pass2 TA m_assembler_config m_filter item_size
                (fun _ => True) ways I)).
Qed.


End ManagerAccountingTheorems.


(** ** The manager: what the passes touch *)

Lemma insert_last {X : Type} (l : list X) (x y : X) :
  <[length l := y]> (l ++ [x]) = l ++ [y].
Proof.
  rewrite insert_app_r_alt by lia. by rewrite Nat.sub_diag.
Qed.

Lemma increment_members_last (rdb : RelationsDatabase.t)
    (sh : option ItemStash.handle_type) (k : nat) :
  forall c : nat,
    Nat.iter k (fun db => RelationsDatabase.increment_members db (length rdb))
             (rdb ++ [RelationsDatabase.mk_element sh c])
    = rdb ++ [RelationsDatabase.mk_element sh (c + k)].
Proof.
  induction k as [|k IH]; intros c.
  - simpl. by rewrite Nat.add_0_r.
  - rewrite Nat.iter_succ_r.
    unfold RelationsDatabase.increment_members at 2.
    rewrite list_lookup_middle by done. cbn [RelationsDatabase.handle
      RelationsDatabase.members]. rewrite insert_last, IH.
    do 3 f_equal. lia.
Qed.

Lemma interests_of_length (h : RelationsDatabase.RelationHandle) :
  forall (members : list RelationMember.t) (n : nat),
    length (interests_of h n members)
    = length (List.filter
                (fun member =>
                   item_type.eqb (RelationMember.type member) item_type.way)
                members).
Proof.
  induction members as [|member rest IH]; intros n; [done|].
  cbn [interests_of List.filter]. rewrite length_app, IH.
  by destruct (item_type.eqb _ _).
Qed.

Lemma find_nil (db : MembersDatabase.t) (id : object_id_type) :
  (forall e, e ∈ MembersDatabase.m_elements db ->
             MembersDatabase.is_live id e = false) ->
  MembersDatabase.find db id = [].
Proof.
  intros Hnone. unfold MembersDatabase.find.
  destruct (filter _ _) as [|[i e] hits] eqn:Hf; [done|].
  assert (Hin : (i, e) ∈ (i, e) :: hits) by apply list_elem_of_here.
  rewrite <- Hf in Hin. apply list_elem_of_filter in Hin as [Hlive Hin].
  apply elem_of_lookup_imap in Hin as (i' & e' & [= -> ->] & Hl).
  simpl in Hlive. rewrite Hnone in Hlive; [done|].
  by eapply list_elem_of_lookup_2.
Qed.

Section ManagerPassProperties.

Context (TA : TAssembler) (m_assembler_config : config_type TA).
Context (m_filter : TagsFilter) (item_size : Area.t -> nat).

Lemma walk_members_counter (h : RelationsDatabase.RelationHandle)
    (sh : ItemStash.handle_type) (rid : object_id_type) (rtags : TagList) :
  forall (rest seen : list RelationMember.t) (m : Manager),
    (m_relations_db m !! h) ≫= RelationsDatabase.handle = Some sh ->
    m_stash m !! sh
      = Some (Some (ItemStash.item_relation
                      (Relation.mk rid rtags (seen ++ rest)))) ->
    let res := walk_members h (length seen) rest m in
    m_relations_db (final res)
    = Nat.iter (length (interests_of h (length seen) rest))
               (fun db => RelationsDatabase.increment_members db h)
               (m_relations_db m)
    /\ m_output (final res) = m_output m
    /\ m_stats (final res) = m_stats m.
Proof.
  induction rest as [|member rest IH]; intros seen m Hh Hs; [done|].
  assert (Hlen : S (length seen)
                 = length (seen ++ [zero_unless_way member]))
    by (rewrite length_app; simpl; lia).
  cbn [walk_members interests_of].
  destruct (item_type.eqb (RelationMember.type member) item_type.way)
    eqn:Hway.
  - assert (Hz : zero_unless_way member = member)
      by (unfold zero_unless_way; by rewrite Hway).
    rewrite Hz in *.
    set (m1 := final (members_db_track h (RelationMember.ref member)
                                       (length seen) m)).
    assert (Hstep : members_db_track h (RelationMember.ref member)
                      (length seen) m = mk_result (inr tt) m1 [])
      by reflexivity.
    rewrite (bind_silent _ _ m tt m1 Hstep). rewrite Hlen.
    destruct (IH (seen ++ [member]) m1) as (Hr & Ho & Hst).
    { subst m1. simpl. by rewrite increment_members_handle. }
    { subst m1. simpl. by rewrite <- app_assoc. }
    rewrite Hr, Ho, Hst. split; [|done].
    cbn [app length]. by rewrite Nat.iter_succ_r.
  - assert (Hz : zero_unless_way member = RelationMember.set_ref member 0)
      by (unfold zero_unless_way; by rewrite Hway).
    rewrite Hz in *.
    pose proof (member_set_ref_stored h sh (length seen) 0 _ m Hh Hs)
      as Hstep.
    rewrite (bind_silent _ _ m tt _ Hstep). rewrite Hlen.
    match goal with
    | |- context [walk_members _ _ _ ?m1'] => set (m1 := m1')
    end.
    destruct (IH (seen ++ [RelationMember.set_ref member 0]) m1)
      as (Hr & Ho & Hst).
    { done. }
    { subst m1. cbn [m_stash].
      rewrite list_lookup_insert_eq by (by eapply lookup_lt_Some).
      do 3 f_equal. unfold Relation.set_members. cbn [Relation.members
        Relation.id Relation.tags]. f_equal.
      replace (length seen) with (length seen + 0)%nat by lia.
      rewrite alter_app_r. simpl. by rewrite <- app_assoc. }
    by rewrite Hr, Ho, Hst.
Qed.

Lemma relation_kept (r : Relation.t) (m : Manager) :
  keep_relation m_filter r = true ->
  let h := length (m_relations_db m) in
  let sh := length (m_stash m) in
  let m1 := mk_Manager
              (m_stash m ++ [Some (ItemStash.item_relation r)])
              (m_relations_db m
               ++ [RelationsDatabase.mk_element (Some sh) 0])
              (m_members_db m) (m_output m) (m_stats m) in
  relation m_filter r m = walk_members h 0 (Relation.members r) m1
  /\ (m_relations_db m1 !! h) ≫= RelationsDatabase.handle = Some sh
  /\ m_stash m1 !! sh = Some (Some (ItemStash.item_relation r)).
Proof.
  intros Hkeep h sh m1. unfold relation. rewrite Hkeep.
  assert (Hadd : relations_db_add r m = mk_result (inr h) m1 [])
    by reflexivity.
  assert (Hh : (m_relations_db m1 !! h) ≫= RelationsDatabase.handle
               = Some sh).
  { subst m1 h. simpl. by rewrite list_lookup_middle. }
  assert (Hs : m_stash m1 !! sh
               = Some (Some (ItemStash.item_relation r))).
  { subst m1 sh. simpl. by rewrite list_lookup_middle. }
  assert (Hderef : deref h m1 = mk_result (inr r) m1 []).
  { unfold deref, bind, get_manager, expect. cbn [outcome final trace].
    by rewrite (relations_db_get_stored _ _ h sh r Hh Hs). }
  rewrite (bind_silent _ _ m h m1 Hadd).
  by rewrite (bind_silent _ _ m1 r m1 Hderef).
Qed.

Lemma relation_silent (r : Relation.t) (m : Manager) :
  let res := relation m_filter r m in
  outcome res = inr tt
  /\ trace res = []
  /\ m_output (final res) = m_output m
  /\ m_stats (final res) = m_stats m.
Proof.
  cbv zeta. destruct (keep_relation m_filter r) eqn:Hkeep.
  - destruct (relation_kept r m Hkeep) as (-> & Hh & Hs).
    destruct r as [rid rtags members]. cbn [Relation.members] in *.
    destruct (walk_members_spec _ _ rid rtags members [] _ Hh Hs)
      as (Ho & Ht & _).
    destruct (walk_members_counter _ _ rid rtags members [] _ Hh Hs)
      as (_ & Hout & Hst).
    change (length []) with 0%nat in *. by rewrite Ho, Ht, Hout, Hst.
  - unfold relation. by rewrite Hkeep.
Qed.

(** X11.  [assemble_way] never touches the stash, the relations database or
  the members database.  For a way no relation has a live interest in,
  [member_way] does what [assemble_way] does and nothing else: the way
  is not stored. *)
Theorem way_without_interest_is_not_stored (way : Way.t) (m : Manager) :
  same_registry m
    (final (assemble_way TA m_assembler_config m_filter item_size way m))
  /\ ((forall e, e ∈ MembersDatabase.m_elements (m_members_db m) ->
                 MembersDatabase.is_live (Way.id way) e = false) ->
      member_way TA m_assembler_config m_filter item_size way m
      = assemble_way TA m_assembler_config m_filter item_size way m).
Proof.
  split; [apply assemble_way_same_registry|].
  intros Hnone. unfold member_way.
  rewrite (bind_silent _ _ m false m); [done|].
  unfold members_db_add, bind, get_manager.
  cbn [outcome final trace]. by rewrite (find_nil _ _ Hnone).
Qed.

(** X12.  Pass 1 enters a relation it keeps as the last entry of the
  relations database, with the handle of its copy in the stash and an
  outstanding count equal to the number of its members of type way, a
  way listed twice counting twice.  The count is at least one, so a
  relation is never complete when it is registered. *)
Theorem kept_relation_awaits_its_way_members (r : Relation.t)
    (m : Manager) :
  keep_relation m_filter r = true ->
  let res := relation m_filter r m in
  let way_members :=
    List.filter (fun member =>
                   item_type.eqb (RelationMember.type member) item_type.way)
                (Relation.members r) in
  m_relations_db (final res)
  = m_relations_db m
    ++ [RelationsDatabase.mk_element (Some (length (m_stash m)))
                                     (length way_members)]
  /\ (0 < length way_members)%nat
  /\ RelationsDatabase.has_all_members (m_relations_db (final res))
                                       (length (m_relations_db m))
     = false.
Proof.
  intros Hkeep res way_members. subst res.
  assert (Hpos : (0 < length way_members)%nat).
  { unfold keep_relation in Hkeep.
    destruct (TagList_.get_value_by_key _ _); [|done].
    destruct (_ && _); [|done].
    apply existsb_exists in Hkeep as (member & Hin & Hway).
    assert (Hf : In member way_members)
      by (apply List.filter_In; by split).
    destruct way_members; [done | simpl; lia]. }
  assert (Hdb : m_relations_db (final (relation m_filter r m))
                = m_relations_db m
                  ++ [RelationsDatabase.mk_element
                        (Some (length (m_stash m))) (length way_members)]).
  { destruct (relation_kept r m Hkeep) as (-> & Hh & Hs).
    destruct r as [rid rtags members]. cbn [Relation.members] in *.
    destruct (walk_members_counter _ _ rid rtags members [] _ Hh Hs)
      as (Hr & _).
    change (length []) with 0%nat in Hr. rewrite Hr. cbn [m_relations_db].
    by rewrite increment_members_last, interests_of_length. }
  split; [exact Hdb|]. split; [exact Hpos|].
  rewrite Hdb. unfold RelationsDatabase.has_all_members.
  rewrite list_lookup_middle by done. cbn [RelationsDatabase.members].
  apply Nat.eqb_neq. lia.
Qed.

(** X13.  Pass 1 is silent: over any list of relations it ends normally,
  invokes no assembler, and leaves the output buffer and the statistics
  as they were.  Relations that [keep_relation] rejects leave no trace
  in the manager at all. *)
Theorem first_pass_is_silent (relations : list Relation.t) (m : Manager) :
  let res := pass1 m_filter relations m in
  outcome res = inr tt
  /\ trace res = []
  /\ m_output (final res) = m_output m
  /\ stats (final res) = stats m
  /\ ((forall r, r ∈ relations -> keep_relation m_filter r = false) ->
      final res = m).
Proof.
  cbv zeta. unfold pass1. revert m.
  induction relations as [|r rest IH]; intros m; [done|].
  cbn [for_each].
  destruct (relation_silent r m) as (Ho & Ht & Hout & Hst).
  rewrite (bind_inr _ _ m tt Ho). cbn [outcome final trace].
  destruct (IH (final (relation m_filter r m)))
    as (Ho' & Ht' & Hout' & Hst' & Hrej).
  rewrite Ho', Ht, Ht', Hout', Hout. unfold stats in *.
  rewrite Hst', Hst. repeat split; try done.
  intros Hall. rewrite Hrej.
  - unfold relation. rewrite Hall; [done | apply list_elem_of_here].
  - intros r' Hr'. apply Hall. by apply list_elem_of_further.
Qed.

(** X14.  With a callback installed by [handler], a second pass that ends
  normally leaves the output buffer empty, and what the callback has
  been handed, in order, is what was in the output before followed by
  exactly the areas the assembler invocations of the pass committed, in
  the order of the invocations: nothing is held back, lost or handed
  over twice. *)
Theorem second_pass_hands_off_every_area (ways : list Way.t)
    (m : Manager) :
  let run :=
    (handler true ;;
     pass2 TA m_assembler_config m_filter item_size ways) m in
  outcome run = inr tt ->
  CallbackBuffer.m_buffer (m_output (final run)) = []
  /\ concat (CallbackBuffer.handed_off (m_output (final run)))
     = output_stream m ++ emitted TA m_assembler_config (trace run).
Proof.
  cbv zeta.
  set (m0 := set_output m (CallbackBuffer.set_callback (m_output m) true)).
  assert (Hh : handler true m = mk_result (inr tt) m0 []) by reflexivity.
  rewrite (bind_silent _ _ m tt m0 Hh). intros Hout.
  assert (Hstream :
    output_stream
      (final (pass2 TA m_assembler_config m_filter item_size ways m0))
    = output_stream m
      ++ emitted TA m_assembler_config
           (trace (pass2 TA m_assembler_config m_filter item_size ways m0))).
  { destruct (orderly_pass2 TA m_assembler_config m_filter item_size ways)
      as [He _]. by rewrite He. }
  assert (Hempty :
    CallbackBuffer.m_buffer
      (m_output
         (final (pass2 TA m_assembler_config m_filter item_size ways m0)))
    = []).
  { revert Hout. unfold pass2, bind.
    pose proof (callback_kept _ _ _ _
      (disciplined_handler_pass2_ways TA m_assembler_config m_filter
         item_size (fun _ => True) ways I None)
      m0) as Hcb.
    destruct (outcome (handler_pass2_ways _ _ _ _ _ ways m0)) as [e|[]];
      [done|]. intros _.
    cbn [final flush_output modify set_output m_output].
    unfold CallbackBuffer.flush. rewrite Hcb. done. }
  split; [exact Hempty|].
  rewrite <- Hstream. unfold output_stream, CallbackBuffer.output_stream.
  by rewrite Hempty, app_nil_r.
Qed.

(** X15.  The registry stays consistent: after pass 1 over any relations
  whose way members have non-zero ids, [prepare], and any sequence of
  [member_way] steps on a new manager, every payload handle of an
  interest is a slot of the stash handed out for a way, every stored
  relation's handle is a slot of the stash, every interest refers to an
  entry of the relations database, and the live interests against a
  stored relation are interests in its members with non-zero id. *)
Theorem registry_stays_consistent (max_buffer_size : nat)
    (relations : list Relation.t) (ways : list Way.t) :
  (forall r, r ∈ relations -> way_members_nonzero r) ->
  registry_ok
    (final ((pass1 m_filter relations ;; prepare ;;
             for_each (member_way TA m_assembler_config m_filter item_size)
                      ways)
              (Manager_new max_buffer_size))).
Proof.
  intros Hnz.
  apply (keeps_bind registry_ok); [| |apply registry_ok_new].
  - apply keeps_for_each. intros r Hr. by apply keeps_relation, Hnz.
  - intros _. apply keeps_bind; [apply keeps_prepare|].
    intros _. apply keeps_for_each. intros w _. apply keeps_member_way.
Qed.

(** X19.  Pull mode: without a callback the second pass hands nothing off,
  [flush_output] does nothing, and a [read] after the pass returns what
  was in the buffer before followed by exactly the areas the assembler
  invocations of the pass committed, in the order of the invocations,
  and leaves the buffer empty.  This holds however the pass ends. *)
Theorem pull_mode_read_returns_every_area (ways : list Way.t)
    (m : Manager) :
  CallbackBuffer.m_has_callback (m_output m) = false ->
  let pass := pass2 TA m_assembler_config m_filter item_size ways m in
  let got := read (final pass) in
  CallbackBuffer.handed_off (m_output (final pass))
  = CallbackBuffer.handed_off (m_output m)
  /\ outcome got
     = inr (CallbackBuffer.m_buffer (m_output m)
            ++ emitted TA m_assembler_config (trace pass))
  /\ CallbackBuffer.m_buffer (m_output (final got)) = []
  /\ flush_output m = mk_result (inr tt) m [].
Proof.
  intros Hpull. cbv zeta.
  pose proof (pull_mode_kept _ _ _ _
    (disciplined_pass2 TA m_assembler_config m_filter item_size
       (fun _ => True) ways I)
    m Hpull) as Hhanded.
  destruct (orderly_pass2 TA m_assembler_config m_filter item_size ways)
    as [He _]. specialize (He m).
  unfold output_stream, CallbackBuffer.output_stream in He.
  rewrite Hhanded, <- app_assoc in He. apply app_inv_head in He.
  split; [exact Hhanded|]. split; [|split].
  - unfold read. simpl. by rewrite He.
  - done.
  - unfold flush_output, modify, set_output, CallbackBuffer.flush.
    rewrite Hpull. by destruct m.
Qed.

End ManagerPassProperties.

Lemma way_without_interest_is_not_stored_witness :
  let m := Examples.after_pass1 [Examples.relation7] in
  member_way Examples.ring_assembler tt TagsFilter_default
             Examples.unit_size Examples.way42 m
  = assemble_way Examples.ring_assembler tt TagsFilter_default
                 Examples.unit_size Examples.way42 m.
Proof.
  cbv zeta.
  apply (way_without_interest_is_not_stored Examples.ring_assembler tt
           TagsFilter_default Examples.unit_size Examples.way42
           (Examples.after_pass1 [Examples.relation7])).
  assert (Hels :
    MembersDatabase.m_elements
      (m_members_db (Examples.after_pass1 [Examples.relation7]))
    = [MembersDatabase.mk_element 10 0 0 None false;
       MembersDatabase.mk_element 11 0 2 None false])
    by (vm_compute; reflexivity).
  rewrite Hels. intros e He. apply list_elem_of_In in He. simpl in He.
  destruct He as [<-|[<-|[]]]; reflexivity.
Defined.

Lemma kept_relation_awaits_its_way_members_witness :
  keep_relation TagsFilter_default Examples.relation7 = true
  /\ m_relations_db
       (final (relation TagsFilter_default Examples.relation7
                        (Manager_new 1000)))
     = [RelationsDatabase.mk_element (Some 0%nat) 2].
Proof.
  split; [reflexivity|].
  apply (kept_relation_awaits_its_way_members TagsFilter_default
           Examples.relation7 (Manager_new 1000)).
  reflexivity.
Defined.

Lemma first_pass_is_silent_witness :
  keep_relation TagsFilter_default Examples.relation9 = false
  /\ final (pass1 TagsFilter_default [Examples.relation9]
                  (Manager_new 1000))
     = Manager_new 1000.
Proof.
  split; [reflexivity|].
  apply (first_pass_is_silent TagsFilter_default [Examples.relation9]
           (Manager_new 1000)).
  intros r Hr. apply list_elem_of_In in Hr. simpl in Hr.
  destruct Hr as [<-|[]]. reflexivity.
Defined.

Lemma second_pass_hands_off_every_area_witness :
  let run :=
    (handler true ;;
     pass2 Examples.ring_assembler tt TagsFilter_default Examples.unit_size
           [Examples.way20; Examples.way42])
      (Manager_new 1000) in
  CallbackBuffer.m_buffer (m_output (final run)) = []
  /\ concat (CallbackBuffer.handed_off (m_output (final run)))
     = output_stream (Manager_new 1000)
       ++ emitted Examples.ring_assembler tt (trace run).
Proof.
  cbv zeta.
  apply (second_pass_hands_off_every_area Examples.ring_assembler tt
           TagsFilter_default Examples.unit_size
           [Examples.way20; Examples.way42] (Manager_new 1000)).
  reflexivity.
Defined.

Lemma registry_stays_consistent_witness :
  registry_ok
    (final ((pass1 TagsFilter_default
                   [Examples.relation7; Examples.relation8] ;;
             prepare ;;
             for_each (member_way Examples.ring_assembler tt
                                  TagsFilter_default Examples.unit_size)
                      [Examples.way10; Examples.way20; Examples.way11])
              (Manager_new 1000))).
Proof.
  apply (registry_stays_consistent Examples.ring_assembler tt
           TagsFilter_default Examples.unit_size 1000
           [Examples.relation7; Examples.relation8]
           [Examples.way10; Examples.way20; Examples.way11]).
  intros r Hr member Hin Hway.
  apply list_elem_of_In in Hr. simpl in Hr.
  destruct Hr as [<-|[<-|[]]]; apply list_elem_of_In in Hin; simpl in Hin.
  - destruct Hin as [<-|[<-|[<-|[]]]]; done.
  - destruct Hin as [<-|[]]; done.
Defined.

(** ** The write thread *)

Section WriteThreadProperties.

Context {Queue Compressor Exn : Type}.
Context (pop : Queue -> (Exn + string) * Queue).
Context (drain : Queue -> Queue).
Context (at_end_of_data : string -> bool).
Context (write : Compressor -> string -> option Exn * Compressor).
Context (close : Compressor -> option Exn * Compressor).

#[local] Abbreviation write_loop_ :=
  (WriteThread.write_loop pop at_end_of_data write).
#[local] Abbreviation operator_call_ :=
  (WriteThread.operator_call pop drain at_end_of_data write close).
#[local] Abbreviation delivers_ :=
  (WriteThread.delivers pop at_end_of_data).
#[local] Abbreviation write_all_ := (WriteThread.write_all write).

(** The loop writes the blocks the queue delivers and goes on with what
  follows them. *)
Lemma write_loop_blocks (blocks : list string) :
  forall (fuel : nat) (queue queue1 : Queue)
         (compressor compressor1 : Compressor),
    delivers_ queue blocks = Some queue1 ->
    write_all_ compressor blocks = (None, compressor1) ->
    write_loop_ (length blocks + fuel) queue compressor
    = write_loop_ fuel queue1 compressor1.
Proof.
  induction blocks as [|block rest IH];
    intros fuel queue queue1 compressor compressor1 Hd Hw.
  - simpl in *. congruence.
  - cbn [length Nat.add WriteThread.write_loop].
    cbn [WriteThread.delivers] in Hd. cbn [WriteThread.write_all] in Hw.
    destruct (pop queue) as [[e|data] queue'] eqn:Hpop; [done|].
    destruct (String.eqb data block) eqn:Heq; [|done].
    apply String.eqb_eq in Heq as ->.
    destruct (at_end_of_data block); [done|]. simpl in Hd.
    destruct (write compressor block) as [[e|] compressor'] eqn:Hwr;
      [done|].
    by apply IH.
Qed.

(** The loop that fails on a block while writing. *)
Lemma write_loop_write_fails (blocks : list string) (block : string) :
  forall (fuel : nat) (queue queue1 : Queue)
         (compressor compressor1 compressor2 : Compressor) (e : Exn),
    delivers_ queue (blocks ++ [block]) = Some queue1 ->
    write_all_ compressor blocks = (None, compressor1) ->
    write compressor1 block = (Some e, compressor2) ->
    write_loop_ (length blocks + S fuel) queue compressor
    = Some (Some e, queue1, compressor2).
Proof.
  induction blocks as [|b rest IH];
    intros fuel queue queue1 compressor compressor1 compressor2 e
           Hd Hw Hfail.
  - cbn [app WriteThread.delivers] in Hd. simpl in Hw.
    injection Hw as <-. cbn [length Nat.add WriteThread.write_loop].
    destruct (pop queue) as [[e'|data] queue'] eqn:Hpop; [done|].
    destruct (String.eqb data block) eqn:Heq; [|done].
    apply String.eqb_eq in Heq as ->.
    destruct (at_end_of_data block); [done|]. simpl in Hd.
    injection Hd as ->. by rewrite Hfail.
  - cbn [length Nat.add WriteThread.write_loop].
    cbn [app WriteThread.delivers] in Hd.
    cbn [WriteThread.write_all] in Hw.
    destruct (pop queue) as [[e'|data] queue'] eqn:Hpop; [done|].
    destruct (String.eqb data b) eqn:Heq; [|done].
    apply String.eqb_eq in Heq as ->.
    destruct (at_end_of_data b); [done|]. simpl in Hd.
    destruct (write compressor b) as [[e'|] compressor'] eqn:Hwr; [done|].
    by apply (IH fuel queue' queue1 compressor' compressor1 compressor2).
Qed.

(** What a loop that has ended has done. *)
Lemma write_loop_ended (fuel : nat) :
  forall (queue queue' : Queue) (compressor compressor' : Compressor)
         (raised : option Exn),
    write_loop_ fuel queue compressor = Some (raised, queue', compressor') ->
    exists (blocks : list string) (queue1 : Queue)
           (compressor1 : Compressor),
      (length blocks < fuel)%nat
      /\ delivers_ queue blocks = Some queue1
      /\ write_all_ compressor blocks = (None, compressor1)
      /\ match raised with
         | None =>
             compressor' = compressor1
             /\ exists data, pop queue1 = (inr data, queue')
                             /\ at_end_of_data data = true
         | Some e =>
             (compressor' = compressor1 /\ pop queue1 = (inl e, queue'))
             \/ exists data,
                  pop queue1 = (inr data, queue')
                  /\ at_end_of_data data = false
                  /\ write compressor1 data = (Some e, compressor')
         end.
Proof.
  induction fuel as [|fuel IH];
    intros queue queue' compressor compressor' raised Hloop; [done|].
  cbn [WriteThread.write_loop] in Hloop.
  destruct (pop queue) as [[e|data] queue0] eqn:Hpop.
  - injection Hloop as <- <- <-. exists [], queue, compressor.
    split; [simpl; lia|]. split; [done|]. split; [done|]. by left.
  - destruct (at_end_of_data data) eqn:Hend.
    + injection Hloop as <- <- <-. exists [], queue, compressor.
      split; [simpl; lia|]. split; [done|]. split; [done|].
      split; [done|]. by exists data.
    + destruct (write compressor data) as [[e|] compressor0] eqn:Hwr.
      * injection Hloop as <- <- <-. exists [], queue, compressor.
        split; [simpl; lia|]. split; [done|]. split; [done|].
        right. by exists data.
      * destruct (IH _ _ _ _ _ Hloop)
          as (blocks & queue1 & compressor1 & Hlen & Hd & Hw & Hr).
        exists (data :: blocks), queue1, compressor1.
        split; [simpl; lia|]. split.
        { cbn [WriteThread.delivers]. rewrite Hpop, String.eqb_refl, Hend.
          exact Hd. }
        split; [|exact Hr].
        cbn [WriteThread.write_all]. by rewrite Hwr.
Qed.

(** X16.  The normal run of the write thread: when the queue delivers the
  blocks and then the end of the data, and the compressor accepts each
  block and the close, the thread writes exactly these blocks, in order,
  closes the compressor, satisfies the promise with true and leaves the
  queue as it is after the end of the data, without draining it. *)
Theorem write_thread_normal_run (blocks : list string) (fuel : nat)
    (queue queue1 queue2 : Queue)
    (compressor compressor1 compressor2 : Compressor) (last : string) :
  WriteThread.delivers pop at_end_of_data queue blocks = Some queue1 ->
  pop queue1 = (inr last, queue2) ->
  at_end_of_data last = true ->
  WriteThread.write_all write compressor blocks = (None, compressor1) ->
  close compressor1 = (None, compressor2) ->
  (length blocks < fuel)%nat ->
  WriteThread.operator_call pop drain at_end_of_data write close
    fuel queue compressor
  = Some (WriteThread.mk queue2 compressor2
                         (WriteThread.promise_value true)).
Proof.
  intros Hd Hpop Hend Hw Hclose Hfuel.
  unfold WriteThread.operator_call.
  replace fuel with (length blocks + S (fuel - S (length blocks)))%nat
    by lia.
  rewrite (write_loop_blocks blocks _ queue queue1 compressor compressor1)
    by done.
  cbn [WriteThread.write_loop]. by rewrite Hpop, Hend, Hclose.
Qed.

(** X17.  The failing runs of the write thread: whichever call raises
  first — a [pop], the [write] of a block, or the [close] after the end
  of the data — its exception goes into the promise and the queue is
  drained; no block is written after the failure, and the compressor is
  not closed after a failed [pop] or [write]. *)
Theorem write_thread_failing_run (blocks : list string) (fuel : nat)
    (queue queue1 queue2 : Queue)
    (compressor compressor1 compressor2 : Compressor) (e : Exn) :
  WriteThread.delivers pop at_end_of_data queue blocks = Some queue1 ->
  WriteThread.write_all write compressor blocks = (None, compressor1) ->
  (length blocks < fuel)%nat ->
  (pop queue1 = (inl e, queue2) ->
   WriteThread.operator_call pop drain at_end_of_data write close
     fuel queue compressor
   = Some (WriteThread.mk (drain queue2) compressor1
                          (WriteThread.promise_exception e)))
  /\ (forall data : string,
        pop queue1 = (inr data, queue2) ->
        at_end_of_data data = false ->
        write compressor1 data = (Some e, compressor2) ->
        WriteThread.operator_call pop drain at_end_of_data write close
          fuel queue compressor
        = Some (WriteThread.mk (drain queue2) compressor2
                               (WriteThread.promise_exception e)))
  /\ (forall data : string,
        pop queue1 = (inr data, queue2) ->
        at_end_of_data data = true ->
        close compressor1 = (Some e, compressor2) ->
        WriteThread.operator_call pop drain at_end_of_data write close
          fuel queue compressor
        = Some (WriteThread.mk (drain queue2) compressor2
                               (WriteThread.promise_exception e))).
Proof.
  intros Hd Hw Hfuel.
  assert (Hloop :
    write_loop_ fuel queue compressor
    = write_loop_ (S (fuel - S (length blocks))) queue1 compressor1).
  { replace fuel with (length blocks + S (fuel - S (length blocks)))%nat
      at 1 by lia.
    by apply write_loop_blocks. }
  unfold WriteThread.operator_call. rewrite Hloop.
  cbn [WriteThread.write_loop].
  split; [|split].
  - by intros ->.
  - intros data -> -> ->. done.
  - intros data -> -> ->. done.
Qed.

(** X18.  Every run of the write thread that ends has satisfied the
  promise, and never with false.  If the promise holds true, the queue
  delivered some blocks and then the end of the data, the compressor
  accepted exactly these blocks and was closed; if it holds an exception,
  the queue has been drained.  More rounds do not change the result. *)
Theorem write_thread_promise (fuel : nat) (queue : Queue)
    (compressor : Compressor) (thread : WriteThread.t) :
  WriteThread.operator_call pop drain at_end_of_data write close
    fuel queue compressor = Some thread ->
  match WriteThread.m_promise thread with
  | WriteThread.promise_unsatisfied => False
  | WriteThread.promise_value b =>
      b = true
      /\ exists (blocks : list string) (queue1 : Queue) (last : string)
                (compressor1 : Compressor),
           WriteThread.delivers pop at_end_of_data queue blocks
           = Some queue1
           /\ pop queue1 = (inr last, WriteThread.m_queue thread)
           /\ at_end_of_data last = true
           /\ WriteThread.write_all write compressor blocks
              = (None, compressor1)
           /\ close compressor1 = (None, WriteThread.m_compressor thread)
  | WriteThread.promise_exception e =>
      exists queue' : Queue, WriteThread.m_queue thread = drain queue'
  end
  /\ forall fuel' : nat,
       (fuel <= fuel')%nat ->
       WriteThread.operator_call pop drain at_end_of_data write close
         fuel' queue compressor = Some thread.
Proof.
  intros Hrun.
  assert (Hmono : forall n q c r, write_loop_ n q c = Some r ->
            forall n', (n <= n')%nat -> write_loop_ n' q c = Some r).
  { induction n as [|n IH]; intros q c r Hn n' Hle; [done|].
    destruct n' as [|n']; [lia|].
    cbn [WriteThread.write_loop] in *.
    destruct (pop q) as [[e|data] q0]; [done|].
    destruct (at_end_of_data data); [done|].
    destruct (write c data) as [[e|] c0]; [done|].
    apply (IH _ _ _ Hn). lia. }
  split.
  - unfold WriteThread.operator_call in Hrun.
    destruct (write_loop_ fuel queue compressor)
      as [[[[e|] queue'] compressor']|] eqn:Hloop; [| |done].
    + injection Hrun as <-. simpl. by exists queue'.
    + destruct (close compressor') as [[e|] closed] eqn:Hclose.
      * injection Hrun as <-. simpl. by exists queue'.
      * injection Hrun as <-. simpl. split; [done|].
        destruct (write_loop_ended _ _ _ _ _ _ Hloop)
          as (blocks & queue1 & compressor1 & _ & Hd & Hw & -> & data
              & Hpop & Hend).
        by exists blocks, queue1, data, compressor1.
  - intros fuel' Hle. unfold WriteThread.operator_call in *.
    destruct (write_loop_ fuel queue compressor) as [r|] eqn:Hloop;
      [|done].
    by rewrite (Hmono _ _ _ _ Hloop fuel' Hle).
Qed.

End WriteThreadProperties.

Lemma write_thread_normal_run_witness :
  WriteThread.Examples.run 5 [inr "header"; inr "block 1"; inr "block 2"]
  = Some (WriteThread.mk [] ["header"; "block 1"; "block 2"; "<close>"]
                         (WriteThread.promise_value true)).
Proof.
  apply (write_thread_normal_run
           WriteThread.Examples.pop WriteThread.Examples.drain
           WriteThread.Examples.at_end_of_data
           WriteThread.Examples.write WriteThread.Examples.close
           ["header"; "block 1"; "block 2"] 5
           [inr "header"; inr "block 1"; inr "block 2"] [] []
           [] ["header"; "block 1"; "block 2"]
           ["header"; "block 1"; "block 2"; "<close>"] EmptyString);
    first [reflexivity | simpl; lia].
Defined.

Lemma write_thread_failing_run_witness :
  WriteThread.Examples.run 5
    [inr "header"; inl "read failed"; inr "block 2"]
  = Some (WriteThread.mk [] ["header"]
                         (WriteThread.promise_exception "read failed")).
Proof.
  apply (write_thread_failing_run
           WriteThread.Examples.pop WriteThread.Examples.drain
           WriteThread.Examples.at_end_of_data
           WriteThread.Examples.write WriteThread.Examples.close
           ["header"] 5
           [inr "header"; inl "read failed"; inr "block 2"]
           [inl "read failed"; inr "block 2"] [inr "block 2"]
           [] ["header"] ["header"] "read failed");
    first [reflexivity | simpl; lia].
Defined.

Lemma write_thread_promise_witness :
  let thread :=
    WriteThread.mk (Queue := list (string + string)) []
      ["header"] (WriteThread.promise_exception "write failed") in
  WriteThread.Examples.run 3 [inr "header"; inr "a block too long"]
  = Some thread
  /\ (exists queue' : list (string + string),
        WriteThread.m_queue thread = WriteThread.Examples.drain queue')
  /\ WriteThread.Examples.run 7 [inr "header"; inr "a block too long"]
     = Some thread.
Proof.
  cbv zeta. split; [reflexivity|].
  pose proof (write_thread_promise
                WriteThread.Examples.pop WriteThread.Examples.drain
                WriteThread.Examples.at_end_of_data
                WriteThread.Examples.write WriteThread.Examples.close
                3 [inr "header"; inr "a block too long"] []
                (WriteThread.mk [] ["header"]
                   (WriteThread.promise_exception "write failed"))
                eq_refl) as [Hpromise Hfuel].
  split; [exact Hpromise|]. apply Hfuel. lia.
Defined.

Lemma pull_mode_read_returns_every_area_witness :
  let pass :=
    pass2 Examples.ring_assembler tt TagsFilter_default Examples.unit_size
          [Examples.way20; Examples.way42] (Manager_new 1000) in
  outcome (read (final pass))
  = inr (CallbackBuffer.m_buffer (m_output (Manager_new 1000))
         ++ emitted Examples.ring_assembler tt (trace pass)).
Proof.
  cbv zeta.
  apply (pull_mode_read_returns_every_area Examples.ring_assembler tt
           TagsFilter_default Examples.unit_size
           [Examples.way20; Examples.way42] (Manager_new 1000)).
  reflexivity.
Defined.

(** ** The completion of a relation, from the start of the run *)

Lemma lookup_snoc_Some {X : Type} (l : list X) (x y : X) (i : nat) :
  (l ++ [x]) !! i = Some y ->
  l !! i = Some y \/ (i = length l /\ y = x).
Proof.
  intros H. apply lookup_app_Some in H as [H|[Hle H]]; [by left|].
  right. destruct (i - length l)%nat as [|k] eqn:Hk; simpl in H; [|done].
  injection H as <-. split; [lia | done].
Qed.

Lemma interests_of_wait (h : RelationsDatabase.RelationHandle) :
  forall (members : list RelationMember.t) (n : nat)
         (e : MembersDatabase.element),
    e ∈ interests_of h n members -> waits_for h e = true.
Proof.
  induction members as [|member rest IH]; intros n e He; simpl in He.
  { by apply elem_of_nil in He. }
  apply elem_of_app in He as [He|He]; [|by apply (IH (S n))].
  destruct (item_type.eqb _ _); [|by apply elem_of_nil in He].
  apply list_elem_of_singleton in He as ->.
  unfold waits_for. simpl. by rewrite Nat.eqb_refl.
Qed.

Lemma filter_all {X : Type} (f : X -> bool) (l : list X) :
  (forall x, x ∈ l -> f x = true) -> List.filter f l = l.
Proof.
  induction l as [|x rest IH]; intros H; [done|]. simpl.
  rewrite (H x) by apply list_elem_of_here. f_equal. apply IH.
  intros y Hy. apply H. by apply list_elem_of_further.
Qed.

Lemma insert_sorted_filter (f : MembersDatabase.element -> bool)
    (e : MembersDatabase.element) (l : list MembersDatabase.element) :
  length (List.filter f (MembersDatabase.insert_sorted e l))
  = length (List.filter f (e :: l)).
Proof.
  induction l as [|x rest IH]; [done|]. cbn [MembersDatabase.insert_sorted].
  destruct (_ <=? _); [done|]. simpl in *.
  destruct (f x), (f e); simpl in *; lia.
Qed.

Lemma sorted_filter (f : MembersDatabase.element -> bool)
    (l : list MembersDatabase.element) :
  length (List.filter f (foldr MembersDatabase.insert_sorted [] l))
  = length (List.filter f l).
Proof.
  induction l as [|x rest IH]; [done|]. cbn [foldr].
  rewrite insert_sorted_filter. simpl. destruct (f x); simpl; by rewrite IH.
Qed.

Section ManagerCompletion.

Context (TA : TAssembler) (m_assembler_config : config_type TA).
Context (m_filter : TagsFilter) (item_size : Area.t -> nat).

(** What pass 1 does to the registry for a relation it keeps. *)
Lemma relation_effect (r : Relation.t) (m : Manager) :
  keep_relation m_filter r = true ->
  let m' := final (relation m_filter r m) in
  let h := length (m_relations_db m) in
  m_stash m'
  = m_stash m
    ++ [Some (ItemStash.item_relation
                (Relation.mk (Relation.id r) (Relation.tags r)
                             (map zero_unless_way (Relation.members r))))]
  /\ m_relations_db m'
     = m_relations_db m
       ++ [RelationsDatabase.mk_element
             (Some (length (m_stash m)))
             (length (interests_of h 0 (Relation.members r)))]
  /\ MembersDatabase.m_elements (m_members_db m')
     = MembersDatabase.m_elements (m_members_db m)
       ++ interests_of h 0 (Relation.members r).
Proof.
  intros Hkeep. cbv zeta.
  destruct (relation_kept m_filter r m Hkeep) as (-> & Hh & Hs).
  destruct r as [rid rtags members].
  cbn [Relation.members Relation.id Relation.tags] in *.
  set (h := length (m_relations_db m)) in *.
  set (sh := length (m_stash m)) in *.
  set (m1 := mk_Manager _ _ _ _ _) in *.
  destruct (walk_members_spec h sh rid rtags members [] m1 Hh Hs)
    as (_ & _ & _ & Hs' & He & _).
  destruct (walk_members_counter h sh rid rtags members [] m1 Hh Hs)
    as (Hr & _).
  destruct (walk_members_frame h sh members 0 m1 Hh) as (Hlen & Hother & _).
  change (length []) with 0%nat in *. cbn [app] in Hs'.
  set (m' := final (walk_members h 0 members m1)) in *.
  split; [|split; [|exact He]].
  - apply list_eq. intros k.
    destruct (decide (k = sh)) as [->|Hne].
    + rewrite Hs'. subst sh. by rewrite list_lookup_middle.
    + rewrite (Hother k Hne). subst m1. cbn [m_stash].
      destruct (decide (k < sh)%nat) as [Hlt|Hge].
      * by rewrite !lookup_app_l.
      * rewrite !lookup_ge_None_2; [done| |];
          rewrite length_app; simpl; fold sh; lia.
  - rewrite Hr. subst m1 h. cbn [m_relations_db].
    by rewrite increment_members_last.
Qed.

(** Pass 1 keeps the registry as it should be, no way having been
  delivered, when it reads a relation whose id no stored relation has
  and whose way members have non-zero ids. *)
Lemma tracking_relation (r : Relation.t) (m : Manager) :
  tracking [] [] m ->
  way_members_nonzero r ->
  (forall h r',
     RelationsDatabase.get (m_stash m) (m_relations_db m) h = Some r' ->
     Relation.id r' ≠ Relation.id r) ->
  let m' := final (relation m_filter r m) in
  tracking [] [] m'
  /\ forall h r',
       RelationsDatabase.get (m_stash m') (m_relations_db m') h = Some r' ->
       Relation.id r' = Relation.id r
       \/ RelationsDatabase.get (m_stash m) (m_relations_db m) h = Some r'.
Proof.
  intros Htr Hnz Hfresh. cbv zeta.
  destruct (keep_relation m_filter r) eqn:Hkeep.
  2: { unfold relation. rewrite Hkeep. cbn [ret final]. split; [done|].
       intros h r' Hget. by right. }
  destruct (relation_effect r m Hkeep) as (Hs & Hr & He).
  cbv zeta in Hs, Hr, He.
  set (m' := final (relation m_filter r m)) in *.
  set (h0 := length (m_relations_db m)) in *.
  set (sh0 := length (m_stash m)) in *.
  set (r0 := Relation.mk (Relation.id r) (Relation.tags r)
                         (map zero_unless_way (Relation.members r))) in *.
  set (I := interests_of h0 0 (Relation.members r)) in *.
  set (E := MembersDatabase.m_elements (m_members_db m)) in *.
  (* the stored relations *)
  assert (Hold : forall h sh,
    (m_relations_db m !! h) ≫= RelationsDatabase.handle = Some sh ->
    (m_relations_db m' !! h) ≫= RelationsDatabase.handle = Some sh
    /\ m_stash m' !! sh = m_stash m !! sh /\ h ≠ h0).
  { intros h sh Hh.
    destruct (m_relations_db m !! h) as [entry|] eqn:Hentry; [|done].
    destruct (relation_stored _ _ _ Htr h sh) as (r' & Hr').
    { by rewrite Hentry. }
    rewrite Hr, Hs. rewrite (lookup_app_l_Some _ _ _ _ Hentry).
    split; [done|]. split.
    - rewrite lookup_app_l; [done | by eapply lookup_lt_Some].
    - apply lookup_lt_Some in Hentry. subst h0. lia. }
  assert (Hnew : (m_relations_db m' !! h0) ≫= RelationsDatabase.handle
                 = Some sh0
                 /\ m_stash m' !! sh0 = Some (Some (ItemStash.item_relation r0))).
  { rewrite Hr, Hs. subst h0 sh0. by rewrite !list_lookup_middle. }
  assert (Hget : forall h,
    RelationsDatabase.get (m_stash m') (m_relations_db m') h
    = if decide (h = h0) then Some r0
      else RelationsDatabase.get (m_stash m) (m_relations_db m) h).
  { intros h. destruct (decide (h = h0)) as [->|Hne].
    - destruct Hnew as [Hh Hst].
      by apply (relations_db_get_stored _ _ h0 sh0).
    - unfold RelationsDatabase.get at 1. rewrite Hr.
      destruct ((m_relations_db m ++ _) !! h) as [entry|] eqn:Hentry.
      + apply lookup_snoc_Some in Hentry as [Hentry|[Heq _]]; [|done].
        unfold RelationsDatabase.get. rewrite Hentry. cbn [mbind option_bind].
        destruct (RelationsDatabase.handle entry) as [sh|] eqn:Hsh; [|done].
        cbn [mbind option_bind].
        destruct (Hold h sh) as (_ & Hst & _); [by rewrite Hentry|].
        unfold ItemStash.get_relation, ItemStash.get_item. by rewrite Hst.
      + unfold RelationsDatabase.get.
        destruct (m_relations_db m !! h) as [entry|] eqn:Hentry2; [|done].
        by rewrite (lookup_app_l_Some _ _ _ _ Hentry2) in Hentry. }
  assert (Hlive_old : forall e,
    e ∈ E -> MembersDatabase.removed e = false ->
    MembersDatabase.relation_pos e ≠ h0).
  { intros e He0 Hrem.
    destruct (interest_owner _ _ _ Htr e He0 Hrem) as (sh & Hsh).
    by destruct (Hold _ sh Hsh) as (_ & _ & Hne). }
  assert (Hin : forall e,
    e ∈ MembersDatabase.m_elements (m_members_db m') -> e ∈ E \/ e ∈ I).
  { intros e. rewrite He. apply elem_of_app. }
  split; [split|].
  - (* relation_stored *)
    intros h sh Hh. rewrite Hr in Hh.
    destruct ((m_relations_db m ++ _) !! h) as [entry|] eqn:Hentry; [|done].
    apply lookup_snoc_Some in Hentry as [Hentry|[-> ->]].
    + destruct (relation_stored _ _ _ Htr h sh) as (r' & Hr').
      { by rewrite Hentry. }
      exists r'. destruct (Hold h sh) as (_ & -> & _); [|done].
      by rewrite Hentry.
    + injection Hh as <-. exists r0. apply Hnew.
  - (* relation_ids *)
    intros h1 h2 r1 r2. rewrite !Hget.
    destruct (decide (h1 = h0)) as [->|Hne1],
             (decide (h2 = h0)) as [->|Hne2]; try done.
    + intros [= <-] Hget2 Hid. exfalso. by apply (Hfresh h2 r2).
    + intros Hget1 [= <-] Hid. exfalso. by apply (Hfresh h1 r1).
    + apply (relation_ids _ _ _ Htr).
  - (* interest_member *)
    intros h r' e Hg Hin_e Hpos Hrem. rewrite Hget in Hg.
    destruct (Hin e Hin_e) as [He0|HeI].
    + destruct (decide (h = h0)) as [->|Hne].
      { exfalso. by apply (Hlive_old e). }
      by apply (interest_member _ _ _ Htr h r' e).
    + destruct (elem_of_interests_of h0 e _ _ HeI)
        as (_ & Hpos0 & member & Hmem & Hway & Hid).
      rewrite decide_True in Hg by congruence. injection Hg as <-.
      exists member. split; [|split; [by apply Hnz | done]].
      subst r0. cbn [Relation.members].
      assert (Hz : zero_unless_way member = member).
      { unfold zero_unless_way, item_type.eqb.
        by rewrite bool_decide_eq_true_2. }
      rewrite <- Hz. by apply (list_elem_of_fmap_2 zero_unless_way).
  - (* member_interest *)
    intros h r' member' Hg Hmem Hnz'. rewrite Hget in Hg.
    destruct (decide (h = h0)) as [->|Hne].
    + injection Hg as <-. subst r0. cbn [Relation.members] in Hmem.
      apply list_elem_of_fmap in Hmem as (member & -> & Hmem).
      unfold zero_unless_way in Hnz' |- *.
      destruct (item_type.eqb (RelationMember.type member) item_type.way)
        eqn:Hway; [|done].
      apply bool_decide_eq_true in Hway.
      apply list_elem_of_lookup in Hmem as (k & Hk).
      exists (MembersDatabase.mk_element (RelationMember.ref member) h0
                                         (0 + k) None false).
      split; [|done]. rewrite He. apply elem_of_app. right.
      by apply interests_of_lookup.
    + destruct (member_interest _ _ _ Htr h r' member' Hg Hmem Hnz')
        as (e & He0 & Hrest).
      exists e. split; [|done]. rewrite He. apply elem_of_app. by left.
  - (* interest_owner *)
    intros e Hin_e Hrem. destruct (Hin e Hin_e) as [He0|HeI].
    + destruct (interest_owner _ _ _ Htr e He0 Hrem) as (sh & Hsh).
      exists sh. by apply Hold.
    + destruct (elem_of_interests_of h0 e _ _ HeI) as (_ & -> & _).
      exists sh0. apply Hnew.
  - (* payload_delivered *)
    intros e oh Hin_e Hrem Hoh. destruct (Hin e Hin_e) as [He0|HeI].
    + destruct (payload_delivered _ _ _ Htr e oh He0 Hrem Hoh)
        as (w & _ & _ & Hw).
      by apply elem_of_nil in Hw.
    + destruct (elem_of_interests_of h0 e _ _ HeI) as (Hnone & _).
      congruence.
  - (* delivered_attached *)
    intros e w _ _ Hw. by apply elem_of_nil in Hw.
  - (* outstanding *)
    intros h entry sh Hentry Hsh.
    change (pending_for m' [] h) with 0%nat. rewrite Nat.add_0_r.
    unfold waiting. rewrite He, List.filter_app, length_app. fold E.
    rewrite Hr in Hentry.
    apply lookup_snoc_Some in Hentry as [Hentry|[Heq ->]].
    2: fold h0 in Heq; subst h.
    + rewrite (outstanding _ _ _ Htr h entry sh Hentry Hsh).
      change (pending_for m [] h) with 0%nat. rewrite Nat.add_0_r.
      unfold waiting. fold E.
      rewrite (filter_none (waits_for h) I); [simpl; lia|].
      intros e HeI.
      destruct (elem_of_interests_of h0 e _ _ HeI) as (_ & Hpos & _).
      unfold waits_for. rewrite Hpos.
      destruct (Nat.eqb_spec h0 h) as [Heq|]; [|done].
      apply lookup_lt_Some in Hentry. subst h0. lia.
    + cbn [RelationsDatabase.members].
      rewrite (filter_none (waits_for h0) E).
      * rewrite (filter_all (waits_for h0) I); [done|].
        intros e HeI.
        by apply (interests_of_wait h0 (Relation.members r) 0).
      * intros e He0. unfold waits_for.
        destruct (Nat.eqb_spec (MembersDatabase.relation_pos e) h0)
          as [Hpos|]; [|done].
        destruct (MembersDatabase.removed e) eqn:Hrem; [done|].
        exfalso. by apply (Hlive_old e).
  - (* pending_live *)
    intros i Hi. by apply elem_of_nil in Hi.
  - intros h r'. rewrite Hget.
    destruct (decide (h = h0)) as [->|Hne]; [|by right].
    intros [= <-]. by left.
Qed.

Lemma tracking_prepare (m : Manager) :
  tracking [] [] m ->
  tracking [] [] (final (prepare m))
  /\ forall h,
       RelationsDatabase.get (m_stash (final (prepare m)))
                             (m_relations_db (final (prepare m))) h
       = RelationsDatabase.get (m_stash m) (m_relations_db m) h.
Proof.
  intros [H1 H2 H3 H4 H5 H6 H7 H8 H9]. split; [|done].
  unfold prepare, modify. cbn [final].
  split; cbn [m_stash m_relations_db m_members_db
              MembersDatabase.m_elements MembersDatabase.prepare];
    try done.
  - intros h r e Hg He. apply (proj1 (elem_of_sorted _ _)) in He. exact (H3 h r e Hg He).
  - intros h r member Hg Hmem Hnz.
    destruct (H4 h r member Hg Hmem Hnz) as (e & He & Hrest).
    exists e. split; [by apply elem_of_sorted | done].
  - intros e He. apply (proj1 (elem_of_sorted _ _)) in He. exact (H5 e He).
  - intros e oh He. apply (proj1 (elem_of_sorted _ _)) in He. exact (H6 e oh He).
  - intros e w He. apply (proj1 (elem_of_sorted _ _)) in He. exact (H7 e w He).
  - intros h entry sh Hentry Hsh. rewrite (H8 h entry sh Hentry Hsh).
    unfold waiting, pending_for.
    cbn [m_members_db MembersDatabase.m_elements MembersDatabase.prepare].
    by rewrite sorted_filter.
  - intros i Hi. by apply elem_of_nil in Hi.
Qed.

Lemma tracking_new (max_buffer_size : nat) :
  tracking [] [] (Manager_new max_buffer_size).
Proof.
  split; cbn [Manager_new m_stash m_relations_db m_members_db
              MembersDatabase.empty MembersDatabase.m_elements];
    try done.
  - intros e He. by apply elem_of_nil in He.
  - intros e oh He. by apply elem_of_nil in He.
  - intros e w He. by apply elem_of_nil in He.
  - intros i Hi. by apply elem_of_nil in Hi.
Qed.

(** Pass 1 over relations with distinct ids whose way members have
  non-zero ids ends normally and leaves the registry as it should be. *)
Lemma tracking_pass1 :
  forall (relations : list Relation.t) (m : Manager),
    tracking [] [] m ->
    NoDup (map Relation.id relations) ->
    (forall r, r ∈ relations -> way_members_nonzero r) ->
    (forall h r',
       RelationsDatabase.get (m_stash m) (m_relations_db m) h = Some r' ->
       Relation.id r' ∉ map Relation.id relations) ->
    outcome (pass1 m_filter relations m) = inr tt
    /\ tracking [] [] (final (pass1 m_filter relations m)).
Proof.
  unfold pass1.
  induction relations as [|r rest IH]; intros m Htr Hdup Hnz Hfresh; [done|].
  cbn [for_each]. cbn [map] in Hdup, Hfresh.
  apply NoDup_cons in Hdup as [Hr Hdup].
  destruct (relation_silent m_filter r m) as (Ho & _).
  destruct (tracking_relation r m Htr) as (Htr1 & Hget1).
  { apply Hnz, list_elem_of_here. }
  { intros h r' Hget Hid. apply (Hfresh h r' Hget).
    rewrite Hid. apply list_elem_of_here. }
  rewrite (bind_inr _ _ m tt Ho). cbn [outcome final].
  apply IH; [done | done | |].
  - intros r' Hr'. apply Hnz. by apply list_elem_of_further.
  - intros h r' Hget. destruct (Hget1 h r' Hget) as [Hid|Hold].
    + by rewrite Hid.
    + intros Hin. apply (Hfresh h r' Hold). by apply list_elem_of_further.
Qed.

(** The second pass over ways in ascending order of id, when it ends
  normally, leaves the registry as it should be, the ways being
  delivered. *)
Lemma tracking_handler_pass2_ways :
  forall (ways delivered : list Way.t) (max_way_id : option object_id_type)
         (m : Manager),
    tracking delivered [] m ->
    (forall w, w ∈ delivered ->
               exists max_id, max_way_id = Some max_id
                              /\ Way.id w <= max_id) ->
    let res := handler_pass2_ways TA m_assembler_config m_filter item_size
                 max_way_id ways m in
    outcome res = inr tt ->
    tracking (delivered ++ ways) [] (final res).
Proof.
  induction ways as [|way rest IH];
    intros delivered max_way_id m Htr Hmax res Hout; subst res.
  { by rewrite app_nil_r. }
  cbn [handler_pass2_ways] in Hout |- *.
  assert (Hcheck : check_order_way max_way_id way m = mk_result (inr tt) m []
                   /\ forall w, w ∈ delivered -> Way.id w ≠ Way.id way).
  { unfold check_order_way in Hout |- *.
    destruct max_way_id as [max_id|].
    - destruct (Z.leb_spec (Way.id way) max_id) as [Hle|Hgt]; [done|].
      split; [done|]. intros w Hw.
      destruct (Hmax w Hw) as (x & [= <-] & Hx). lia.
    - split; [done|]. intros w Hw. by destruct (Hmax w Hw) as (x & ? & _). }
  destruct Hcheck as [Hcheck Hfresh].
  rewrite (bind_silent _ _ m tt m Hcheck) in Hout |- *.
  destruct (bind_outcome_inr _ _ _ _ Hout) as ([] & Hout1 & Hout2).
  destruct (member_way_tracked TA m_assembler_config m_filter item_size
              delivered way m Htr Hfresh) as (_ & Hstep).
  destruct (Hstep Hout1) as (Htr1 & _).
  rewrite (bind_inr _ _ m tt Hout1). cbn [final].
  rewrite (app_assoc delivered [way] rest : delivered ++ way :: rest = _).
  apply (IH (delivered ++ [way]) (Some (Way.id way))); [done| |done].
  intros w Hw. exists (Way.id way). split; [done|].
  apply elem_of_app in Hw as [Hw|Hw].
  - destruct max_way_id as [max_id|].
    + destruct (Hmax w Hw) as (x & [= <-] & Hx).
      unfold check_order_way in Hcheck.
      destruct (Z.leb_spec (Way.id way) max_id); [done | lia].
    + by destruct (Hmax w Hw) as (x & ? & _).
  - apply list_elem_of_singleton in Hw as ->. lia.
Qed.


End ManagerCompletion.


